(** * CmdParser: a shallow embedding of [cli::Parser] (src/cmdparser.hpp)

    The header defines one class, [cli::Parser], which owns a registry of
    parameter descriptors ([CmdBase] and its two subclasses), tokenises the
    raw argument vector into per-descriptor buckets and then resolves the
    buckets into typed values in three passes.  This file embeds that class
    and proves properties of [Parser::run], [Parser::get], the scalar
    conversions [Parser::parse] and [Parser::stringify].

    Conventions of the embedding:
    - a [CmdBase*] into [_commands] is the index of the descriptor;
    - [std::ostream] is the text written so far; [std::endl] is a newline;
    - a thrown [std::exception] is a value of [exn];
    - integer widths follow the LP64 data model (32-bit [int], 64-bit
      [long] and [long long]);
    - the floating-point overloads ([double], [float], [long double]) are
      outside the embedding. *)

From Stdlib Require Import ZArith Lia Ascii String.
From stdpp Require Import base list strings relations.

Local Open Scope Z_scope.

(** ** Characters and text *)

Module Text.

Definition tab : string := String (ascii_of_nat 9) "".
Definition endl : string := String (ascii_of_nat 10) "".

Definition code (c : ascii) : Z := Z.of_N (N_of_ascii c).

(** [isspace] in the "C" locale. *)
Definition isspace (c : ascii) : bool :=
  let n := code c in (n =? 32) || ((9 <=? n) && (n <=? 13)).

(** Value of a character read as a digit, as [strtol] does: 0-9, then
    letters of either case for 10..35. *)
Definition digit_val (c : ascii) : option Z :=
  let n := code c in
  if (48 <=? n) && (n <=? 57) then Some (n - 48)
  else if (97 <=? n) && (n <=? 122) then Some (n - 87)
  else if (65 <=? n) && (n <=? 90) then Some (n - 55)
  else None.

Definition is_digit_in (base : Z) (c : ascii) : bool :=
  match digit_val c with
  | Some d => d <? base
  | None => false
  end.

Definition digit_char (d : Z) : ascii := ascii_of_N (Z.to_N (48 + d)).

End Text.

(** ** The C library conversions used by the header

    [std::stoi] and its siblings call [strtol]/[strtoul] (and the [ll]
    variants) with a null position pointer, so trailing characters are
    ignored; they throw [std::invalid_argument] when no digit is consumed
    and [std::out_of_range] when the value does not fit. *)

Module CLib.
Import Text.

Inductive exn : Type :=
| bad_cast
| runtime_error (msg : string)
| invalid_argument (fn : string)
| out_of_range (fn : string).

(** [e.what()] as libstdc++ renders it. *)
Definition what (e : exn) : string :=
  match e with
  | bad_cast => "std::bad_cast"
  | runtime_error msg => msg
  | invalid_argument fn => fn
  | out_of_range fn => fn
  end.

Fixpoint skip_space (s : string) : string :=
  match s with
  | String c r => if isspace c then skip_space r else s
  | EmptyString => s
  end.

(** Optional sign: returns whether the number is negated and the rest. *)
Definition take_sign (s : string) : bool * string :=
  match s with
  | String "-" r => (true, r)
  | String "+" r => (false, r)
  | _ => (false, s)
  end.

(** Prefix handling: for base 0 or 16 a [0x]/[0X] followed by a hex digit
    is skipped; base 0 then means 16 after such a prefix, 8 after a
    leading [0], 10 otherwise. *)
Definition hex_prefix (s : string) : option string :=
  match s with
  | String z (String x (String h r)) =>
      if Ascii.eqb z "0" && (Ascii.eqb x "x" || Ascii.eqb x "X") && is_digit_in 16 h
      then Some (String h r) else None
  | _ => None
  end.

Definition leading_zero (s : string) : bool :=
  match s with
  | String z _ => Ascii.eqb z "0"
  | EmptyString => false
  end.

Definition detect_base (base : Z) (s : string) : Z * string :=
  match (if (base =? 0) || (base =? 16) then hex_prefix s else None) with
  | Some rest => (16, rest)
  | None => if base =? 0 then (if leading_zero s then 8 else 10, s) else (base, s)
  end.

(** The digit loop: longest prefix of digits valid in [base], accumulated
    left to right. *)
Fixpoint digits_loop (base : Z) (s : string) (acc : Z) : Z :=
  match s with
  | String c r =>
      match digit_val c with
      | Some d => if d <? base then digits_loop base r (acc * base + d) else acc
      | None => acc
      end
  | EmptyString => acc
  end.

Definition starts_with_digit (base : Z) (s : string) : bool :=
  match s with
  | String c _ => is_digit_in base c
  | EmptyString => false
  end.

Definition valid_base (base : Z) : bool :=
  (base =? 0) || ((2 <=? base) && (base <=? 36)).

(** Sign and magnitude of the subject sequence, [None] when no conversion
    can be performed.  The C library leaves a base outside 0, 2..36
    unspecified; the model reports it as "no conversion" and no theorem
    below depends on that choice. *)
Definition scan (s : string) (base : Z) : option (bool * Z) :=
  if negb (valid_base base) then None
  else
    let '(neg, s1) := take_sign (skip_space s) in
    let '(b, s2) := detect_base base s1 in
    if starts_with_digit b s2 then Some (neg, digits_loop b s2 0) else None.

(** [strtol]-based conversions: [bits] is the width of the result type. *)
Definition sto_signed (fn : string) (bits : Z) (s : string) (base : Z) : exn + Z :=
  match scan s base with
  | None => inl (invalid_argument fn)
  | Some (neg, m) =>
      let v := if neg then - m else m in
      if (- 2 ^ (bits - 1) <=? v) && (v <=? 2 ^ (bits - 1) - 1)
      then inr v else inl (out_of_range fn)
  end.

(** [strtoul]-based conversions: a magnitude above the maximum is a range
    error; a leading minus negates in the unsigned type. *)
Definition sto_unsigned (fn : string) (bits : Z) (s : string) (base : Z) : exn + Z :=
  match scan s base with
  | None => inl (invalid_argument fn)
  | Some (neg, m) =>
      if m <=? 2 ^ bits - 1
      then inr (if neg then (- m) mod 2 ^ bits else m)
      else inl (out_of_range fn)
  end.

Definition stoi := sto_signed "stoi" 32.
Definition stol := sto_signed "stol" 64.
Definition stoll := sto_signed "stoll" 64.
Definition stoul := sto_unsigned "stoul" 64.
Definition stoull := sto_unsigned "stoull" 64.

(** [std::to_string] on integers: decimal digits, most significant first.
    The fuel is the bit length of the number, which bounds the number of
    its decimal digits. *)
Fixpoint digits_fuel (fuel : nat) (n : Z) : string :=
  match fuel with
  | O => ""
  | S f =>
      if n <? 10 then String (digit_char n) ""
      else digits_fuel f (n / 10) +:+ String (digit_char (n mod 10)) ""
  end.

Definition to_string_nonneg (n : Z) : string :=
  digits_fuel (S (Z.to_nat (Z.log2 n))) n.

Definition to_string (z : Z) : string :=
  if z <? 0 then String "-" (to_string_nonneg (- z)) else to_string_nonneg z.

End CLib.

(** ** Declared value types

    The closed family of types [T] at which the header's templates are
    instantiated: the integer overloads of [Parser::parse], [bool],
    [std::string], [std::vector<T>] and [NumericalBase<T, base>]. *)

Inductive ity : Type := I_int | I_uint | I_ulong | I_ullong | I_llong | I_long.

Inductive ty : Type :=
| TInteger (k : ity)
| TBool
| TString
| TVector (t : ty)
| TNumericalBase (k : ity) (numericalBase : Z).

#[global] Instance ity_eq_dec : EqDecision ity.
Proof. solve_decision. Defined.

#[global] Instance ty_eq_dec : EqDecision ty.
Proof. solve_decision. Defined.

(** [class NumericalBase]: the wrapped number and the base it is read in. *)
Record NumericalBase : Type := mkNumericalBase { nb_value : Z; nb_base : Z }.

Fixpoint tyDenote (t : ty) : Type :=
  match t with
  | TInteger _ => Z
  | TBool => bool
  | TString => string
  | TVector t' => list (tyDenote t')
  | TNumericalBase _ _ => NumericalBase
  end.

(** [T()]: value-initialisation. *)
Definition value_init (t : ty) : tyDenote t :=
  match t with
  | TInteger _ => 0
  | TBool => false
  | TString => ""
  | TVector _ => []
  | TNumericalBase _ b => mkNumericalBase 0 b
  end.

(** [T value;] as a class member: class types are default-constructed,
    scalars are left indeterminate; [indet] stands for whatever the
    storage holds. *)
Definition default_init (t : ty) (indet : tyDenote t) : tyDenote t :=
  match t return tyDenote t -> tyDenote t with
  | TInteger _ => fun i => i
  | TBool => fun i => i
  | t' => fun _ => value_init t'
  end indet.

(** [ArgumentCountChecker<T>::Variadic]. *)
Definition Variadic (t : ty) : bool :=
  match t with
  | TVector _ => true
  | _ => false
  end.

(** ** Value conversion layer: the overloads of [Parser::parse] *)

Module Conv.
Import CLib.

(** The integer overloads, with their [numberBase] argument.  Each one
    requires exactly one element. *)
Definition parse_integer (k : ity) (elements : list string) (numberBase : Z) : exn + Z :=
  match elements with
  | [e] =>
      match k with
      | I_int => stoi e numberBase
      | I_uint => match stoul e numberBase with
                  | inr v => inr (v mod 2 ^ 32)
                  | inl x => inl x
                  end
      | I_ulong => stoul e numberBase
      | I_ullong => stoull e numberBase
      | I_llong => stoll e numberBase
      | I_long => stol e numberBase
      end
  | _ => inl bad_cast
  end.

(** The loop of the [std::vector<T>] overload: each element is converted
    on its own through a one-element buffer; the first failure leaves the
    function. *)
Fixpoint parse_each {A : Type} (one : list string -> exn + A)
    (elements : list string) : exn + list A :=
  match elements with
  | [] => inr []
  | element :: rest =>
      match one [element] with
      | inl e => inl e
      | inr v =>
          match parse_each one rest with
          | inl e => inl e
          | inr vs => inr (v :: vs)
          end
      end
  end.

(** [Parser::parse(elements, defval)], selected by the static type of
    [defval]. *)
Fixpoint parse (t : ty) (elements : list string) : tyDenote t -> exn + tyDenote t :=
  match t return tyDenote t -> exn + tyDenote t with
  | TInteger k => fun _ => parse_integer k elements 0
  | TBool => fun defval =>
      if negb (length elements =? 0)%nat
      then inl (runtime_error "A boolean command line parameter cannot have any arguments.")
      else inr (negb defval)
  | TString => fun _ =>
      match elements with
      | [e] => inr e
      | _ => inl bad_cast
      end
  | TVector t' => fun _ =>
      parse_each (fun buffer => parse t' buffer (value_init t')) elements
  | TNumericalBase k b => fun wrapper =>
      (* NumericalBase<T> (base 0) selects the overload that passes the
         literal 0; any other base the one that passes wrapper.base.  The
         returned T is converted back by NumericalBase(T val). *)
      match parse_integer k elements (if b =? 0 then 0 else nb_base wrapper) with
      | inr v => inr (mkNumericalBase v b)
      | inl e => inl e
      end
  end.

(** The overloads of [Parser::stringify]. *)
Fixpoint stringify (t : ty) : tyDenote t -> string :=
  match t return tyDenote t -> string with
  | TInteger _ => fun value => to_string value
  | TBool => fun value => to_string (if value then 1 else 0)
  | TString => fun str => str
  | TVector t' => fun values =>
      "[ " +:+ fold_right (fun value ss => stringify t' value +:+ " " +:+ ss) "]" values
  | TNumericalBase _ _ => fun wrapper => to_string (nb_value wrapper)
  end.

End Conv.

(** ** Parameter descriptors *)

(** The members of [class CmdBase]. *)
Record CmdBase : Type := mkCmdBase {
  name : string;
  command : string;
  alternative : string;
  description : string;
  required : bool;
  handled : bool;
  dominant : bool;
  variadic : bool;
  arguments : list string
}.

(** The constructor of [CmdBase]. *)
Definition CmdBase_new (name alternative description : string)
    (required dominant variadic : bool) : CmdBase :=
  {| name := name;
     command := if (0 <? String.length name)%nat then "-" +:+ name else "";
     alternative := if (0 <? String.length alternative)%nat then "--" +:+ alternative else "";
     description := description;
     required := required;
     handled := false;
     dominant := dominant;
     variadic := variadic;
     arguments := [] |}.

(** [CmdBase::is]. *)
Definition CmdBase_is (c : CmdBase) (given : string) : bool :=
  String.eqb given (command c) || String.eqb given (alternative c).

(** What a user-supplied function object does when called: the value it
    returns (or the [std::exception] it throws) and the text it writes to
    the two streams it is handed. *)
Record Effect (A : Type) : Type := mkEffect {
  result : CLib.exn + A;
  to_output : string;
  to_error : string
}.
Arguments mkEffect {A} _ _ _.
Arguments result {A} _.
Arguments to_output {A} _.
Arguments to_error {A} _.

(** [ValidationFunction<T>]; validators are taken to return. *)
Definition ValidationFunction (T : ty) : Type := tyDenote T -> bool * string * string.

(** [std::function<T(CallbackArgs&)>].  A closure created inside the class
    may read the parser it captured; the only such closure in the header
    is the one of [enable_help], which reads [this->usage()].  The first
    argument is that text as rendered when the closure is called; the
    second is [CallbackArgs::arguments]. *)
Definition Callback (T : ty) : Type := string -> list string -> Effect (tyDenote T).

(** The two subclasses of [CmdBase]. *)
Inductive Cmd : Type :=
| CmdArgument (base : CmdBase) (T : ty) (value : tyDenote T)
    (valFun : option (ValidationFunction T))
| CmdFunction (base : CmdBase) (T : ty) (callback : Callback T) (value : tyDenote T).

Definition base_of (c : Cmd) : CmdBase :=
  match c with
  | CmdArgument b _ _ _ => b
  | CmdFunction b _ _ _ => b
  end.

Definition map_base (f : CmdBase -> CmdBase) (c : Cmd) : Cmd :=
  match c with
  | CmdArgument b T v vf => CmdArgument (f b) T v vf
  | CmdFunction b T cb v => CmdFunction (f b) T cb v
  end.

Definition set_handled (b : CmdBase) : CmdBase :=
  {| name := name b; command := command b; alternative := alternative b;
     description := description b; required := required b; handled := true;
     dominant := dominant b; variadic := variadic b; arguments := arguments b |}.

Definition push_back (currArg : string) (b : CmdBase) : CmdBase :=
  {| name := name b; command := command b; alternative := alternative b;
     description := description b; required := required b; handled := handled b;
     dominant := dominant b; variadic := variadic b;
     arguments := arguments b ++ [currArg] |}.

(** [print_value], virtual. *)
Definition print_value (c : Cmd) : string :=
  match c with
  | CmdArgument _ T value _ => Conv.stringify T value
  | CmdFunction _ _ _ _ => ""
  end.

(** [CmdBase::usage]. *)
Definition Cmd_usage (c : Cmd) : string :=
  let b := base_of c in
  (if String.eqb (command b) "" && String.eqb (alternative b) ""
   then Text.tab +:+ "DEFAULT" +:+ Text.endl
   else Text.tab +:+ command b +:+ "," +:+ Text.tab +:+ alternative b +:+ Text.endl)
  +:+ (if required b
       then Text.tab +:+ Text.tab +:+ "(required)"
       else Text.tab +:+ Text.tab +:+ "Default:" +:+ Text.tab +:+ "'" +:+ print_value c
            +:+ "'" +:+ Text.endl +:+ Text.tab +:+ Text.tab +:+ "[optional] ")
  +:+ description b +:+ Text.endl +:+ Text.endl.

(** ** The parser *)

Record Parser : Type := mkParser {
  _appname : string;
  _general_help_text : string;
  _arguments : list string;
  _commands : list Cmd
}.

Definition with_commands (p : Parser) (cs : list Cmd) : Parser :=
  {| _appname := _appname p; _general_help_text := _general_help_text p;
     _arguments := _arguments p; _commands := cs |}.

Definition add_command (c : Cmd) (p : Parser) : Parser :=
  with_commands p (_commands p ++ [c]).

(** [Parser::usage]. *)
Definition usage (p : Parser) : string :=
  _general_help_text p +:+ Text.endl +:+ Text.endl
  +:+ "Available parameters:" +:+ Text.endl +:+ Text.endl
  +:+ fold_right (fun c ss => Cmd_usage c +:+ ss) "" (_commands p).

(** Registration. *)
Definition set_default (T : ty) (is_required : bool) (description : string)
    (defaultValue : tyDenote T) (vf : option (ValidationFunction T)) (p : Parser) : Parser :=
  add_command (CmdArgument (CmdBase_new "" "" description is_required false (Variadic T))
                 T defaultValue vf) p.

(** [set_required] leaves [value] as the member initialisation made it. *)
Definition set_required (T : ty) (name alternative description : string)
    (vf : option (ValidationFunction T)) (dominant : bool) (indet : tyDenote T)
    (p : Parser) : Parser :=
  add_command (CmdArgument (CmdBase_new name alternative description true dominant (Variadic T))
                 T (default_init T indet) vf) p.

Definition set_optional (T : ty) (name alternative : string) (defaultValue : tyDenote T)
    (description : string) (vf : option (ValidationFunction T)) (dominant : bool)
    (p : Parser) : Parser :=
  add_command (CmdArgument (CmdBase_new name alternative description false dominant (Variadic T))
                 T defaultValue vf) p.

Definition set_callback (T : ty) (name alternative : string) (callback : Callback T)
    (description : string) (dominant : bool) (indet : tyDenote T) (p : Parser) : Parser :=
  add_command (CmdFunction (CmdBase_new name alternative description false dominant (Variadic T))
                 T callback (default_init T indet)) p.

(** The closure of [enable_help]: writes the usage text to the output
    stream and returns [false]. *)
Definition help_callback : Callback TBool :=
  fun usage_text _ => mkEffect (inr false) usage_text "".

Definition enable_help (indet : bool) (p : Parser) : Parser :=
  set_callback TBool "h" "help" help_callback "" true indet p.

(** The default constructor, and [init] for the ones taking [argv]:
    [argv] is the vector with the program name first. *)
Definition Parser_new : Parser :=
  {| _appname := ""; _general_help_text := ""; _arguments := []; _commands := [] |}.

Definition init (argv0 : string) (args : list string) (indet : bool) (p : Parser) : Parser :=
  enable_help indet
    {| _appname := argv0; _general_help_text := _general_help_text p;
       _arguments := _arguments p ++ args; _commands := _commands p |}.

(** [has_help], [print_help], [invalid_parameter]. *)
Definition has_help (p : Parser) : bool :=
  existsb (fun c => String.eqb (name (base_of c)) "h"
                    && String.eqb (alternative (base_of c)) "--help") (_commands p).

Definition print_help (p : Parser) : string :=
  if has_help p then "For more help use --help or -h." +:+ Text.endl else "".

Definition invalid_parameter (p : Parser) (param : string) : string :=
  "ERROR: Invalid parameter '" +:+ param +:+ "'" +:+ Text.endl +:+ print_help p.

(** [find] and [find_default]: the first descriptor in registration order,
    as its index, or [None] for [nullptr]. *)
Definition find (p : Parser) (name : string) : option nat :=
  fst <$> list_find (fun c => CmdBase_is (base_of c) name = true) (_commands p).

Definition find_default (p : Parser) : option nat :=
  fst <$> list_find (fun c => String.eqb (name (base_of c)) "" = true) (_commands p).

(** ** Running the parser

    [run(output, error)] is a function of the parser and the two streams.
    Besides the text of the streams the machine keeps a trace of the calls
    and reports made, in order, so that statements about the order of
    events can be made without reading them back out of the message text. *)

Inductive Event : Type :=
| CallParse (i : nat)            (* command->parse entered *)
| CallConversion (i : nat)       (* Parser::parse(arguments, value) called *)
| CallCallback (i : nat)         (* callback(args) called *)
| CallValidate (i : nat)         (* command->validate entered *)
| ReportInvalidParameter (currArg : string)
| ReportOnlyOneParameter (i : nat) (currArg : string)
| ReportInvalidArguments (i : nat)
| ReportRequired (i : nat).

Record Machine : Type := mkMachine {
  parser : Parser;
  output : string;
  error : string;
  trace : list Event
}.

Definition start (p : Parser) : Machine :=
  {| parser := p; output := ""; error := ""; trace := [] |}.

Definition to_err (text : string) (m : Machine) : Machine :=
  {| parser := parser m; output := output m; error := error m +:+ text; trace := trace m |}.

Definition to_out (text : string) (m : Machine) : Machine :=
  {| parser := parser m; output := output m +:+ text; error := error m; trace := trace m |}.

Definition emit (e : Event) (m : Machine) : Machine :=
  {| parser := parser m; output := output m; error := error m; trace := trace m ++ [e] |}.

(** Assignment through a [CmdBase*]. *)
Definition update (i : nat) (f : Cmd -> Cmd) (m : Machine) : Machine :=
  {| parser := with_commands (parser m) (alter f i (_commands (parser m)));
     output := output m; error := error m; trace := trace m |}.

Definition commands_of (m : Machine) : list Cmd := _commands (parser m).

(** How [run] ends: it returns, or it writes through a null [current]. *)
Inductive Outcome : Type :=
| Returned (b : bool)
| NullDereference.

(** [[a, ", ", endl] for each argument], the loop of both catch blocks. *)
Definition list_arguments (args : list string) : string :=
  fold_right (fun a ss => a +:+ ", " +:+ Text.endl +:+ ss) "" args.

(** [CmdArgument<T>::parse] and [CmdFunction<T>::parse], on descriptor [i]. *)
Definition Cmd_parse (i : nat) (m : Machine) : bool * Machine :=
  let m := emit (CallParse i) m in
  match commands_of m !! i with
  | Some (CmdArgument b T value vf) =>
      if negb (required b) && (length (arguments b) =? 0)%nat then (true, m)
      else
        match Conv.parse T (arguments b) value with
        | inr v =>
            (true, update i (fun _ => CmdArgument b T v vf) (emit (CallConversion i) m))
        | inl e =>
            (false,
             to_err ((if (String.length (name b) =? 0)%nat
                      then "ERROR: Parsing 'default' command arguments: "
                      else "ERROR: Parsing '" +:+ name b +:+ "' command arguments: ")
                     +:+ (if (length (arguments b) =? 0)%nat
                          then "no arguments provided"
                          else list_arguments (arguments b))
                     +:+ CLib.what e +:+ Text.endl)
               (emit (CallConversion i) m))
        end
  | Some (CmdFunction b T callback value) =>
      let r := callback (usage (parser m)) (arguments b) in
      let m := to_err (to_error r) (to_out (to_output r) (emit (CallCallback i) m)) in
      match result r with
      | inr v => (true, update i (fun _ => CmdFunction b T callback v) m)
      | inl e =>
          (false,
           to_err ("ERROR: Failed parsing function's arguments: " +:+ Text.endl
                   +:+ list_arguments (arguments b) +:+ CLib.what e +:+ Text.endl) m)
      end
  | None => (false, m)
  end.

(** [validate], virtual. *)
Definition Cmd_validate (i : nat) (m : Machine) : bool * Machine :=
  let m := emit (CallValidate i) m in
  match commands_of m !! i with
  | Some (CmdArgument b T value (Some valFun)) =>
      let '(ok, out, err) := valFun value in
      (ok, to_err err (to_out out m))
  | _ => (true, m)
  end.

Definition is_default (c : Cmd) : bool :=
  String.eqb (command (base_of c)) "" && String.eqb (alternative (base_of c)) "".

(** *** Tokenisation: one iteration of the loop over [_arguments] *)

Inductive Step : Type :=
| Continue (m : Machine) (current : option nat)
| Exit (o : Outcome) (m : Machine).

Definition isarg (currArg : string) : bool :=
  match currArg with
  | String "-" _ => true
  | _ => false
  end.

Definition token_step (m : Machine) (current : option nat) (currArg : string) : Step :=
  let associated := if isarg currArg then find (parser m) currArg else None in
  match associated, current with
  | Some a, _ => Continue (update a (map_base set_handled) m) (Some a)
  | None, None =>
      Exit (Returned false)
        (to_err (invalid_parameter (parser m) currArg) (emit (ReportInvalidParameter currArg) m))
  | None, Some cur =>
      match commands_of m !! cur with
      | None => Exit NullDereference m
      | Some c =>
          if negb (variadic (base_of c)) then
            if (length (arguments (base_of c)) =? 0)%nat then
              let m := update cur (map_base (push_back currArg)) m in
              (* current = find_default(); current->handled = true; *)
              match find_default (parser m) with
              | Some d => Continue (update d (map_base set_handled) m) (Some d)
              | None => Exit NullDereference m
              end
            else if isarg currArg then
              Exit (Returned false)
                (to_err (invalid_parameter (parser m) currArg)
                   (emit (ReportInvalidParameter currArg) m))
            else
              Exit (Returned false)
                (to_out (print_help (parser m))
                   (to_err ((if is_default c
                             then "'Default' command can have only one parameter." +:+ Text.endl
                             else "Command '" +:+ name (base_of c) +:+ "["
                                  +:+ alternative (base_of c) +:+ "]'"
                                  +:+ " can have only one parameter." +:+ Text.endl)
                            +:+ "Given parameter '" +:+ currArg
                            +:+ "' is invalid in this context!" +:+ Text.endl)
                      (emit (ReportOnlyOneParameter cur currArg) m)))
          else
            Continue (update cur (map_base set_handled)
                        (update cur (map_base (push_back currArg)) m)) (Some cur)
      end
  end.

Fixpoint token_loop (args : list string) (m : Machine) (current : option nat) : Step :=
  match args with
  | [] => Continue m current
  | currArg :: rest =>
      match token_step m current currArg with
      | Continue m' current' => token_loop rest m' current'
      | Exit o m' => Exit o m'
      end
  end.

Definition tokenize (m : Machine) : Step :=
  token_loop (_arguments (parser m)) m (find_default (parser m)).

(** *** Resolution *)

Definition invalid_arguments_report (i : nat) (m : Machine) : Machine :=
  match commands_of m !! i with
  | Some c =>
      to_err ("ERROR: The parameter '" +:+ name (base_of c)
              +:+ "' has invalid arguments. Usage:" +:+ Text.endl +:+ Cmd_usage c)
        (emit (ReportInvalidArguments i) m)
  | None => m
  end.

(** The first and the third loop of [run]; [dom] tells which.  The result
    is [false] when the loop left [run] with [return false]. *)
Fixpoint parse_pass (dom : bool) (indices : list nat) (m : Machine) : bool * Machine :=
  match indices with
  | [] => (true, m)
  | i :: rest =>
      match commands_of m !! i with
      | Some c =>
          if handled (base_of c) && Bool.eqb (dominant (base_of c)) dom then
            let '(parsed, m1) := Cmd_parse i m in
            let '(ok, m2) := if parsed then Cmd_validate i m1 else (false, m1) in
            if ok then parse_pass dom rest m2
            else (false, invalid_arguments_report i m2)
          else parse_pass dom rest m
      | None => parse_pass dom rest m
      end
  end.

(** The second loop of [run]. *)
Definition missing (c : Cmd) : bool :=
  required (base_of c) && negb (handled (base_of c)).

Definition required_pass (m : Machine) : bool * Machine :=
  match list_find (fun c => missing c = true) (commands_of m) with
  | Some (i, c) =>
      (false,
       to_err ("ERROR: The parameter '" +:+ name (base_of c)
               +:+ "' is required. Usage:" +:+ Text.endl +:+ Cmd_usage c)
         (emit (ReportRequired i) m))
  | None => (true, m)
  end.

Definition indices (m : Machine) : list nat := seq 0 (length (commands_of m)).

Definition resolve (m : Machine) : Outcome * Machine :=
  let '(ok, m1) := parse_pass true (indices m) m in
  if negb ok then (Returned false, m1)
  else
    let '(ok, m2) := required_pass m1 in
    if negb ok then (Returned false, m2)
    else
      let '(ok, m3) := parse_pass false (indices m2) m2 in
      (Returned ok, m3).

(** [Parser::run(output, error)]. *)
Definition run_from (m : Machine) : Outcome * Machine :=
  match tokenize m with
  | Exit o m' => (o, m')
  | Continue m' _ => resolve m'
  end.

Definition run (p : Parser) : Outcome * Machine := run_from (start p).

(** [Parser::get<T>(name)]: the two [throw]s are the left results. *)
Definition get (T : ty) (nm : string) (p : Parser) : CLib.exn + tyDenote T :=
  match list_find (fun c => String.eqb (name (base_of c)) nm = true) (_commands p) with
  | Some (_, CmdArgument _ T' value _) =>
      match decide (T' = T) with
      | left e => inr (eq_rect T' tyDenote value T e)
      | right _ =>
          inl (CLib.runtime_error ("Invalid usage of the parameter " +:+ nm +:+ " detected."))
      end
  | Some (_, CmdFunction _ _ _ _) =>
      inl (CLib.runtime_error ("Invalid usage of the parameter " +:+ nm +:+ " detected."))
  | None => inl (CLib.runtime_error ("The parameter " +:+ nm +:+ " could not be found."))
  end.

Definition get_default (T : ty) (p : Parser) : CLib.exn + tyDenote T := get T "" p.

(** ** Registries used in the examples below *)

Module Samples.

(** [Parser(argc, argv)] on a vector whose tail is [args]. *)
Definition fresh (args : list string) : Parser := init "prog" args false Parser_new.

(** help, an optional string default, an optional [int] [-n]. *)
Definition with_default (args : list string) : Parser :=
  set_optional (TInteger I_int) "n" "num" 7 "" None false
    (set_default TString false "" "none" None (fresh args)).

(** help and an optional [bool] [-f] whose default is [false]. *)
Definition with_flag (args : list string) : Parser :=
  set_optional TBool "f" "flag" false "" None false (fresh args).

(** help, an optional string default, [-x] read in base 16. *)
Definition with_hex (args : list string) : Parser :=
  set_optional (TNumericalBase I_int 16) "x" "hex" (mkNumericalBase 0 16) "" None false
    (set_default TString false "" "none" None (fresh args)).

(** A callback that throws. *)
Definition failing : Callback TBool :=
  fun _ _ => mkEffect (inl (CLib.runtime_error "no")) "" "".

(** help, a dominant callback [-d] that throws, a required [int] [-r]. *)
Definition with_dominant (args : list string) : Parser :=
  set_required (TInteger I_int) "r" "req" "" None false 0
    (set_callback TBool "d" "dom" failing "" true false (fresh args)).

End Samples.

(** ** Statements the code is compared with *)

(** C4 as stated, for a [bool]-valued callback held by descriptor [i]:
    [parse] returns what the callback returned. *)
Definition parse_propagates_signal (m : Machine) (i : nat) : Prop :=
  forall b callback v r,
    commands_of m !! i = Some (CmdFunction b TBool callback v) ->
    result (callback (usage (parser m)) (arguments b)) = inr r ->
    fst (Cmd_parse i m) = r.

(** The base that base 0 stands for on a given literal. *)
Definition auto_base (s : string) : Z :=
  fst (CLib.detect_base 0 (snd (CLib.take_sign (CLib.skip_space s)))).

(** The token does not resolve to a descriptor: [associated == nullptr]. *)
Definition no_descriptor (p : Parser) (currArg : string) : Prop :=
  (if isarg currArg then find p currArg else None) = None.

(** C2 as stated: on [[-n, v, p1, p2]] tokenisation completes with [v] in
    the bucket of [-n] and [p1], [p2] in the bucket of the default
    descriptor. *)
Definition routes_value_then_positionals (p : Parser) (v p1 p2 : string) : Prop :=
  exists m cur d n cd cn,
    tokenize (start p) = Continue m cur
    /\ find_default p = Some d /\ find p "-n" = Some n
    /\ commands_of m !! n = Some cn /\ arguments (base_of cn) = [v]
    /\ commands_of m !! d = Some cd /\ arguments (base_of cd) = [p1; p2].

(** The situation of C6: after the tokens [pre], the cursor is the
    non-variadic descriptor [cur] and the next token is flag-shaped but
    matches no descriptor. *)
Definition unmatched_flag_arrives (p : Parser) (pre : list string) (currArg : string)
    (post : list string) (m : Machine) (cur : nat) (c : Cmd) : Prop :=
  _arguments p = pre ++ currArg :: post
  /\ token_loop pre (start p) (find_default p) = Continue m (Some cur)
  /\ commands_of m !! cur = Some c
  /\ variadic (base_of c) = false
  /\ isarg currArg = true
  /\ find (parser m) currArg = None.

(** C6 as stated: [run] fails reporting the token as an invalid parameter. *)
Definition rejected_as_invalid_parameter (p : Parser) (currArg : string) : Prop :=
  exists m, run p = (Returned false, m) /\ ReportInvalidParameter currArg ∈ trace m.

Definition machine_of (s : Step) : Machine :=
  match s with
  | Continue m _ => m
  | Exit _ m => m
  end.

(** The typed value a descriptor holds, with its type. *)
Definition payload (c : Cmd) : { T : ty & tyDenote T } :=
  match c with
  | CmdArgument _ T value _ => existT T value
  | CmdFunction _ T _ value => existT T value
  end.

Definition is_argument (c : Cmd) : bool :=
  match c with
  | CmdArgument _ _ _ _ => true
  | CmdFunction _ _ _ _ => false
  end.

(** What [parse] and [validate] never write: the [CmdBase] members and
    the class of the descriptor. *)
Definition shape (c : Cmd) : CmdBase * bool := (base_of c, is_argument c).

(** *** The shape of the trace of the resolution stage *)

Definition bases_of (m : Machine) : list CmdBase := base_of <$> commands_of m.

(** Descriptor [i] is one a parse pass works on: handled, and dominant or
    not as the pass requires. *)
Definition selected (bases : list CmdBase) (dom : bool) (i : nat) : Prop :=
  exists b, bases !! i = Some b /\ handled b = true /\ dominant b = dom.

(** What [parse] of descriptor [i] adds after [CallParse i]: nothing (the
    early return), the conversion, or the callback. *)
Definition inner_call (i : nat) (inner : list Event) : Prop :=
  inner = [] \/ inner = [CallConversion i] \/ inner = [CallCallback i].

(** The events of one iteration on a selected descriptor: [parse], then
    [validate] if [parse] succeeded, then the report if either failed. *)
Inductive block (i : nat) : bool -> list Event -> Prop :=
| block_succeeds inner :
    inner_call i inner ->
    block i true (CallParse i :: inner ++ [CallValidate i])
| block_parse_fails inner :
    inner_call i inner ->
    block i false (CallParse i :: inner ++ [ReportInvalidArguments i])
| block_validate_fails inner :
    inner_call i inner ->
    block i false (CallParse i :: inner ++ [CallValidate i; ReportInvalidArguments i]).

(** The events of a parse pass over the descriptors [indices]; the boolean
    tells whether the pass ran to its end. *)
Inductive pass_trace (bases : list CmdBase) (dom : bool) :
    list nat -> bool -> list Event -> Prop :=
| pass_done : pass_trace bases dom [] true []
| pass_skip i rest ok t :
    ~ selected bases dom i ->
    pass_trace bases dom rest ok t ->
    pass_trace bases dom (i :: rest) ok t
| pass_next i rest ok t blk :
    selected bases dom i -> block i true blk ->
    pass_trace bases dom rest ok t ->
    pass_trace bases dom (i :: rest) ok (blk ++ t)
| pass_abort i rest blk :
    selected bases dom i -> block i false blk ->
    pass_trace bases dom (i :: rest) false blk.

Definition missing_base (b : CmdBase) : bool := required b && negb (handled b).

(** The events of the required-check: none when nothing is missing, else
    the report for the first missing descriptor. *)
Definition required_trace (bases : list CmdBase) (ok : bool) (t : list Event) : Prop :=
  (ok = true /\ t = []
   /\ forall j b, bases !! j = Some b -> missing_base b = false)
  \/ (ok = false
      /\ exists j b, t = [ReportRequired j] /\ bases !! j = Some b /\ missing_base b = true
                     /\ forall k b', (k < j)%nat -> bases !! k = Some b' ->
                                     missing_base b' = false).



(** *** Canonical integer literals

    The canonical literal of an integer is its decimal numeral: digits
    only, no leading zero unless the numeral is ["0"], a leading minus for
    a negative value (and none for zero), the value within the range of
    the integer type. *)

Definition is_dec_digit (c : ascii) : bool :=
  (48 <=? Text.code c) && (Text.code c <=? 57).

Fixpoint all_dec_digits (s : string) : bool :=
  match s with
  | EmptyString => true
  | String c r => is_dec_digit c && all_dec_digits r
  end.

Definition canonical_numeral (s : string) : bool :=
  match s with
  | EmptyString => false
  | String c r => all_dec_digits s && (negb (Ascii.eqb c "0") || String.eqb r "")
  end.

Fixpoint dec_value (s : string) (acc : Z) : Z :=
  match s with
  | EmptyString => acc
  | String c r => dec_value r (acc * 10 + (Text.code c - 48))
  end.

Definition literal_shape (s : string) : bool :=
  match s with
  | String "-" r => canonical_numeral r && negb (String.eqb r "0")
  | _ => canonical_numeral s
  end.

Definition literal_value (s : string) : Z :=
  match s with
  | String "-" r => - dec_value r 0
  | _ => dec_value s 0
  end.

Definition ity_min (k : ity) : Z :=
  match k with
  | I_int => - 2 ^ 31
  | I_llong | I_long => - 2 ^ 63
  | I_uint | I_ulong | I_ullong => 0
  end.

Definition ity_max (k : ity) : Z :=
  match k with
  | I_int => 2 ^ 31 - 1
  | I_llong | I_long => 2 ^ 63 - 1
  | I_uint => 2 ^ 32 - 1
  | I_ulong | I_ullong => 2 ^ 64 - 1
  end.

Definition canonical_literal (k : ity) (s : string) : bool :=
  literal_shape s && (ity_min k <=? literal_value s) && (literal_value s <=? ity_max k).

(** *** Auxiliary notions used in the proofs *)

(** An assignment to [CmdBase] members that leaves the name and the flags. *)
Definition keeps_flags (g : CmdBase -> CmdBase) : Prop :=
  forall b, name (g b) = name b /\ command (g b) = command b
            /\ alternative (g b) = alternative b.

(** A descriptor that is not handled, or that takes the early return of
    [parse], is the same object after a parse pass. *)
Definition left_alone (c : Cmd) : Prop :=
  handled (base_of c) = false
  \/ (is_argument c = true /\ required (base_of c) = false /\ arguments (base_of c) = []).

(** What tokenisation never writes: the typed values and the classes. *)
Definition contents (m : Machine) : list ({ T : ty & tyDenote T } * bool) :=
  (fun c => (payload c, is_argument c)) <$> commands_of m.

(** ** The remaining members of [Parser] *)

(** [requirements] and [commands]. *)
Definition requirements (p : Parser) : nat :=
  length (filter (fun c => required (base_of c) = true) (_commands p)).

Definition commands (p : Parser) : nat := length (_commands p).

(** [doesArgumentExist] and [doesHelpExist]. *)
Definition doesArgumentExist (p : Parser) (name altName : string) : bool :=
  existsb (fun argument => String.eqb argument ("-" +:+ name) || String.eqb argument altName)
    (_arguments p).

Definition doesHelpExist (p : Parser) : bool := doesArgumentExist p "h" "--help".

(** [get_if]: the callback applied to what [get] returns. *)
Definition get_if (T : ty) (nm : string) (callback : tyDenote T -> tyDenote T) (p : Parser)
  : CLib.exn + tyDenote T :=
  match get T nm p with
  | inr value => inr (callback value)
  | inl e => inl e
  end.

(** *** Notions used to state further properties *)

(** The library function each integer overload calls; it is the text of
    the exceptions that function throws. *)
Definition conversion_name (k : ity) : string :=
  match k with
  | I_int => "stoi"
  | I_uint | I_ulong => "stoul"
  | I_ullong => "stoull"
  | I_llong => "stoll"
  | I_long => "stol"
  end.

Definition is_signed (k : ity) : bool :=
  match k with
  | I_int | I_llong | I_long => true
  | I_uint | I_ulong | I_ullong => false
  end.

(** The members of a descriptor that are fixed at registration. *)
Definition static_part (c : Cmd) : string * string * string * string * bool * bool * bool * bool :=
  let b := base_of c in
  (name b, command b, alternative b, description b, required b, dominant b, variadic b,
   is_argument c).

(** The number of tokens held in all the buckets. *)
Definition bucket_total (l : list Cmd) : nat :=
  sum_list ((fun c => length (arguments (base_of c))) <$> l).

(** The number of raw arguments that do not resolve to a descriptor. *)
Definition is_value_token (p : Parser) (currArg : string) : bool :=
  match (if isarg currArg then find p currArg else None) with
  | Some _ => false
  | None => true
  end.

(** The two assignments tokenisation makes to a descriptor: marking it
    handled, and appending a token to its bucket, which for a
    non-variadic descriptor happens only while the bucket is empty. *)
Inductive write : list Cmd -> list Cmd -> Prop :=
| write_handled i l : write l (alter (map_base set_handled) i l)
| write_push i c currArg l :
    l !! i = Some c ->
    (variadic (base_of c) = false -> arguments (base_of c) = []) ->
    write l (alter (map_base (push_back currArg)) i l).

(** The bucket of [c'] extends that of [c], and [handled] is not reset. *)
Definition grows (c c' : Cmd) : Prop :=
  arguments (base_of c) `prefix_of` arguments (base_of c')
  /\ (handled (base_of c) = true -> handled (base_of c') = true).

(** A non-variadic descriptor holds at most one token. *)
Definition bucket_bounded (c : Cmd) : Prop :=
  variadic (base_of c) = false -> (length (arguments (base_of c)) <= 1)%nat.

(** The members of the parser other than the registry. *)
Definition parser_fields (p : Parser) : string * string * list string :=
  (_appname p, _general_help_text p, _arguments p).

(** The descriptor [enable_help] registers, as the constructor leaves it;
    [indet] is the content of its uninitialised [value]. *)
Definition help_command (indet : bool) : Cmd :=
  CmdFunction (CmdBase_new "h" "help" "" false true false) TBool help_callback indet.

Definition is_help (c : Cmd) : bool :=
  String.eqb (name (base_of c)) "h" && String.eqb (alternative (base_of c)) "--help".

(** The test of the loop of [get]. *)
Abbreviation named nm := (fun c : Cmd => String.eqb (name (base_of c)) nm = true) (only parsing).

(** *** Notions used to state what a pass does with the result of a call *)

(** The event [e] is one of those an iteration on descriptor [i] makes. *)
Definition about (i : nat) (e : Event) : Prop :=
  e = CallParse i \/ e = CallConversion i \/ e = CallCallback i
  \/ e = CallValidate i \/ e = ReportInvalidArguments i.

Definition dominant_event (bases : list CmdBase) (e : Event) : Prop :=
  exists i, selected bases true i /\ about i e.

(** What the iteration of a parse pass on descriptor [i], entered in the
    machine [mi], does with the results of [parse] and [validate]: a
    false result of [parse] leaves the pass at once with the report (and
    [validate] is not called), a false result of [validate] leaves it
    with the report, and two true results let the pass go on to the next
    descriptor.  [aborted mf] says how leaving in the machine [mf] shows
    in the enclosing computation; [m_in] is the machine in which the pass
    was entered. *)
Definition aborts_or_continues (dom : bool) (m_in : Machine) (i : nat) (mi : Machine)
    (aborted : Machine -> Prop) : Prop :=
  (fst (Cmd_parse i mi) = false ->
     aborted (invalid_arguments_report i (snd (Cmd_parse i mi))))
  /\ (fst (Cmd_parse i mi) = true ->
      fst (Cmd_validate i (snd (Cmd_parse i mi))) = false ->
      aborted (invalid_arguments_report i (snd (Cmd_validate i (snd (Cmd_parse i mi))))))
  /\ (fst (Cmd_parse i mi) = true ->
      fst (Cmd_validate i (snd (Cmd_parse i mi))) = true ->
      parse_pass dom (seq 0 (S i)) m_in
      = (true, snd (Cmd_validate i (snd (Cmd_parse i mi))))).

(** All the tokens held in the buckets, descriptor after descriptor. *)
Definition all_tokens (l : list Cmd) : list string :=
  concat ((fun c => arguments (base_of c)) <$> l).

(** * Properties *)

(** ** The C library model on examples *)

Example stoi_hex : CLib.stoi "1A" 16 = inr 26.
Proof. reflexivity. Qed.

Example stoi_auto :
  CLib.stoi "0x1A" 0 = inr 26 /\ CLib.stoi "012" 0 = inr 10
  /\ CLib.stoi "  -42abc" 0 = inr (-42)
  /\ CLib.stoi "abc" 0 = inl (CLib.invalid_argument "stoi")
  /\ CLib.stoi "2147483648" 10 = inl (CLib.out_of_range "stoi")
  /\ CLib.stoi "0x" 0 = inr 0.
Proof. vm_compute. repeat split. Qed.

Example to_string_ex :
  CLib.to_string (-2147483648) = "-2147483648"
  /\ CLib.to_string 0 = "0" /\ CLib.to_string 1024 = "1024".
Proof. vm_compute. repeat split. Qed.

(** ** Assignments through a descriptor pointer *)

Section Updates.

Implicit Types (m : Machine) (i j : nat) (f : Cmd -> Cmd) (c : Cmd).

Lemma commands_update m i f :
  commands_of (update i f m) = alter f i (commands_of m).
Proof. reflexivity. Qed.

Lemma lookup_update_eq m i f c :
  commands_of m !! i = Some c -> commands_of (update i f m) !! i = Some (f c).
Proof.
  intros H. rewrite commands_update, list_lookup_alter_eq, H. reflexivity.
Qed.

Lemma lookup_update_ne m i j f :
  i <> j -> commands_of (update i f m) !! j = commands_of m !! j.
Proof. intros H. rewrite commands_update. by apply list_lookup_alter_ne. Qed.

Lemma lookup_update m i j f :
  commands_of (update i f m) !! j
  = if decide (i = j) then f <$> commands_of m !! j else commands_of m !! j.
Proof.
  case_decide as E.
  - subst. rewrite commands_update. apply list_lookup_alter_eq.
  - by apply lookup_update_ne.
Qed.

(** Searching by a property that the assignment does not disturb. *)
Lemma list_find_alter_index {A} (P : A -> Prop) `{!forall x, Decision (P x)}
    (g : A -> A) (l : list A) (i : nat) :
  (forall x, P (g x) <-> P x) ->
  fst <$> list_find P (alter g i l) = fst <$> list_find P l.
Proof.
  intros HP. revert i. induction l as [|x l IH]; intros i; [reflexivity|].
  destruct i as [|i]; simpl.
  - pose proof (HP x) as Hx.
    destruct (decide (P (g x))), (decide (P x)); try reflexivity; tauto.
  - destruct (decide (P x)); [reflexivity|].
    specialize (IH i). change (list_alter g i l) with (alter g i l).
    destruct (list_find P (alter g i l)) as [[]|], (list_find P l) as [[]|];
      cbn in *; congruence.
Qed.

Lemma set_handled_keeps : keeps_flags set_handled.
Proof. intros b. repeat split. Qed.

Lemma push_back_keeps a : keeps_flags (push_back a).
Proof. intros b. repeat split. Qed.

Lemma find_update m i g nm :
  keeps_flags g -> find (parser (update i (map_base g) m)) nm = find (parser m) nm.
Proof.
  intros Hg. unfold find. simpl. apply list_find_alter_index.
  intros [b T v vf|b T cb v]; simpl; unfold CmdBase_is;
    destruct (Hg b) as (_ & -> & ->); tauto.
Qed.

Lemma find_default_update m i g :
  keeps_flags g -> find_default (parser (update i (map_base g) m)) = find_default (parser m).
Proof.
  intros Hg. unfold find_default. simpl. apply list_find_alter_index.
  intros [b T v vf|b T cb v]; simpl; destruct (Hg b) as (-> & _); tauto.
Qed.

End Updates.

(** ** C3: a boolean flag *)

(** C3 (the code departs from the claim).  With an optional [bool]
    parameter [-f] registered with default [false], running [[-f]]
    succeeds, the descriptor is handled with an empty bucket, [parse] is
    entered but the conversion (which would negate the default) is not
    called, and [get<bool>("f")] is still [false]. *)
Theorem C3_flag_present_not_toggled :
  let r := run (Samples.with_flag ["-f"]) in
  fst r = Returned true
  /\ trace (snd r) = [CallParse 1; CallValidate 1]
  /\ get TBool "f" (parser (snd r)) = inr false
  /\ Conv.parse TBool [] false = inr true.
Proof. vm_compute. repeat split. Qed.

(** The other half of C3 holds: without the flag the value stays [false]. *)
Example flag_absent :
  get TBool "f" (parser (snd (run (Samples.with_flag [])))) = inr false.
Proof. reflexivity. Qed.

(** ** C5: which descriptors tokenisation marks as handled *)

(** C5 (the code departs from the claim).  On [[-n, 5]] the token [5] goes
    to the bucket of [-n]; the cursor is then reset to the default
    descriptor and it is the default descriptor that is marked handled,
    although it has no flag and its bucket is empty. *)
Theorem C5_default_marked_without_token :
  exists m cur d,
    tokenize (start (Samples.with_default ["-n"; "5"])) = Continue m cur
    /\ commands_of m !! 1%nat = Some d
    /\ command (base_of d) = "" /\ alternative (base_of d) = ""
    /\ arguments (base_of d) = []
    /\ handled (base_of d) = true.
Proof. vm_compute. do 3 eexists. repeat split. Qed.

(** Same defect, no default registered: the write goes through a null
    pointer. *)
Example no_default_null_dereference :
  fst (run (set_optional (TInteger I_int) "n" "num" 7 "" None false
              (Samples.fresh ["-n"; "5"]))) = NullDereference.
Proof. reflexivity. Qed.

(** ** C4: what [parse] of a callback parameter returns *)

(** The callback registered by [enable_help] returns [false]; [parse] of
    its descriptor returns [true]. *)
Lemma C4_counterexample :
  ~ parse_propagates_signal (start (Samples.fresh [])) 0.
Proof.
  intros H.
  specialize (H _ _ _ false eq_refl eq_refl). vm_compute in H. discriminate.
Qed.

(** C4 (amended).  For every callback parameter, [parse] succeeds exactly
    when the callback runs to completion, whatever value it returns; the
    returned value is stored in the descriptor.  [parse] fails exactly
    when the callback throws. *)
Theorem C4_parse_reports_completion (m : Machine) (i : nat) (b : CmdBase) (T : ty)
    (callback : Callback T) (v : tyDenote T) :
  commands_of m !! i = Some (CmdFunction b T callback v) ->
  match result (callback (usage (parser m)) (arguments b)) with
  | inr v' =>
      fst (Cmd_parse i m) = true
      /\ commands_of (snd (Cmd_parse i m)) !! i = Some (CmdFunction b T callback v')
  | inl _ => fst (Cmd_parse i m) = false
  end.
Proof.
  intros H. unfold Cmd_parse.
  change (commands_of (emit (CallParse i) m)) with (commands_of m).
  rewrite H. cbn [parser emit].
  destruct (result (callback (usage (parser m)) (arguments b))) as [e|v']; [reflexivity|].
  split; [reflexivity|]. cbn [fst snd].
  erewrite lookup_update_eq; [reflexivity|exact H].
Qed.

Lemma C4_parse_reports_completion_witness :
  fst (Cmd_parse 0 (start (Samples.fresh []))) = true
  /\ commands_of (snd (Cmd_parse 0 (start (Samples.fresh [])))) !! 0%nat
     = Some (CmdFunction (CmdBase_new "h" "help" "" false true false) TBool
               help_callback false).
Proof.
  exact (C4_parse_reports_completion (start (Samples.fresh [])) 0
           (CmdBase_new "h" "help" "" false true false) TBool help_callback false eq_refl).
Defined.

(** ** C9: numeric base *)

Lemma detect_base_auto (s : string) :
  CLib.detect_base (fst (CLib.detect_base 0 s)) s = CLib.detect_base 0 s.
Proof.
  unfold CLib.detect_base. cbn [Z.eqb orb].
  destruct (CLib.hex_prefix s) as [rest|] eqn:E; cbn [fst Z.eqb orb].
  - reflexivity.
  - destruct (CLib.leading_zero s); cbn [fst]; reflexivity.
Qed.

Lemma auto_base_cases (s : string) :
  auto_base s = 16 \/ auto_base s = 8 \/ auto_base s = 10.
Proof.
  unfold auto_base, CLib.detect_base. cbn [Z.eqb orb].
  destruct (CLib.hex_prefix _); [tauto|].
  destruct (CLib.leading_zero _); cbn [fst]; tauto.
Qed.

(** Base 0 reads a literal as the base its prefix announces. *)
Lemma scan_auto_base (s : string) : CLib.scan s 0 = CLib.scan s (auto_base s).
Proof.
  pose proof (auto_base_cases s) as Hc.
  unfold CLib.scan, auto_base in *.
  destruct (CLib.take_sign (CLib.skip_space s)) as [neg s1]. cbn [snd] in *.
  rewrite detect_base_auto.
  destruct Hc as [-> | [-> | ->]]; reflexivity.
Qed.

Lemma parse_integer_auto_base (k : ity) (s : string) :
  Conv.parse_integer k [s] 0 = Conv.parse_integer k [s] (auto_base s).
Proof.
  unfold Conv.parse_integer, CLib.stoi, CLib.stoul, CLib.stoull, CLib.stoll, CLib.stol,
    CLib.sto_signed, CLib.sto_unsigned.
  rewrite <- scan_auto_base. reflexivity.
Qed.

(** The parameter is declared at the wrapper type, so [get<int>] does not
    find a [CmdArgument<int>] and throws. *)
Lemma C9_counterexample :
  let r := run (Samples.with_hex ["-x"; "1A"]) in
  fst r = Returned true /\ get (TInteger I_int) "x" (parser (snd r)) <> inr 26.
Proof. vm_compute. split; [reflexivity|discriminate]. Qed.

(** C9 (amended).  With [-x] registered as [NumericalBase<int, 16>] next to
    a default parameter, running [[-x, "1A"]] succeeds and
    [get<NumericalBase<int, 16>>("x")] returns the wrapper holding 26,
    while [get<int>("x")] throws the invalid-usage error.  In general the
    conversion of a wrapper type is the integer conversion called with the
    base stored in the wrapper (the literal 0 for the base-0 wrapper), and
    base 0 is the base announced by the literal's prefix: 16, 8 or 10. *)
Theorem C9_numeric_base :
  (let r := run (Samples.with_hex ["-x"; "1A"]) in
   fst r = Returned true
   /\ get (TNumericalBase I_int 16) "x" (parser (snd r)) = inr (mkNumericalBase 26 16)
   /\ get (TInteger I_int) "x" (parser (snd r))
      = inl (CLib.runtime_error "Invalid usage of the parameter x detected."))
  /\ (forall k base elements wrapper,
        Conv.parse (TNumericalBase k base) elements wrapper
        = match Conv.parse_integer k elements (if base =? 0 then 0 else nb_base wrapper) with
          | inr v => inr (mkNumericalBase v base)
          | inl e => inl e
          end)
  /\ (forall k s,
        Conv.parse_integer k [s] 0 = Conv.parse_integer k [s] (auto_base s)
        /\ (auto_base s = 16 \/ auto_base s = 8 \/ auto_base s = 10)).
Proof.
  split; [|split].
  - vm_compute. repeat split.
  - reflexivity.
  - intros k s. split; [apply parse_integer_auto_base|apply auto_base_cases].
Qed.

Example auto_base_ex :
  auto_base "0x1A" = 16 /\ auto_base "-017" = 8 /\ auto_base " 42" = 10.
Proof. repeat split. Qed.

(** ** Tokenisation, case by case *)

Section TokenStep.

Implicit Types (m : Machine) (cur a d : nat) (c : Cmd) (currArg : string).

Lemma token_step_flag m current currArg a :
  isarg currArg = true -> find (parser m) currArg = Some a ->
  token_step m current currArg = Continue (update a (map_base set_handled) m) (Some a).
Proof. intros Hi Hf. unfold token_step. rewrite Hi, Hf. reflexivity. Qed.

Lemma token_step_first_value m cur currArg c d :
  no_descriptor (parser m) currArg ->
  commands_of m !! cur = Some c ->
  variadic (base_of c) = false -> arguments (base_of c) = [] ->
  find_default (parser m) = Some d ->
  token_step m (Some cur) currArg
  = Continue (update d (map_base set_handled)
                (update cur (map_base (push_back currArg)) m)) (Some d).
Proof.
  intros Hn Hc Hv Ha Hd. unfold token_step, no_descriptor in *.
  rewrite Hn, Hc, Hv, Ha. cbn [negb length Nat.eqb].
  rewrite find_default_update by apply push_back_keeps. rewrite Hd. reflexivity.
Qed.

Lemma token_step_variadic m cur currArg c :
  no_descriptor (parser m) currArg ->
  commands_of m !! cur = Some c -> variadic (base_of c) = true ->
  token_step m (Some cur) currArg
  = Continue (update cur (map_base set_handled)
                (update cur (map_base (push_back currArg)) m)) (Some cur).
Proof.
  intros Hn Hc Hv. unfold token_step, no_descriptor in *.
  rewrite Hn, Hc, Hv. reflexivity.
Qed.

Lemma token_step_flag_shaped_second m cur currArg c :
  find (parser m) currArg = None -> isarg currArg = true ->
  commands_of m !! cur = Some c ->
  variadic (base_of c) = false -> arguments (base_of c) <> [] ->
  token_step m (Some cur) currArg
  = Exit (Returned false)
      (to_err (invalid_parameter (parser m) currArg)
         (emit (ReportInvalidParameter currArg) m)).
Proof.
  intros Hf Hi Hc Hv Ha. unfold token_step.
  rewrite Hi, Hf, Hc, Hv. cbn [negb].
  destruct (arguments (base_of c)); [done|]. reflexivity.
Qed.

Lemma token_loop_app pre post m current :
  token_loop (pre ++ post) m current
  = match token_loop pre m current with
    | Continue m' current' => token_loop post m' current'
    | Exit o m' => Exit o m'
    end.
Proof.
  revert m current. induction pre as [|t pre IH]; intros m current; [reflexivity|].
  cbn [app token_loop]. destruct (token_step m current t); [apply IH|reflexivity].
Qed.

Lemma no_descriptor_update m i g currArg :
  keeps_flags g ->
  no_descriptor (parser m) currArg ->
  no_descriptor (parser (update i (map_base g) m)) currArg.
Proof.
  intros Hg H. unfold no_descriptor in *.
  destruct (isarg currArg); [|reflexivity]. by rewrite find_update.
Qed.

End TokenStep.

(** ** C6: a flag-shaped token that matches no descriptor *)

(** On [[-n, -5]] the token [-5] is flag-shaped, matches no descriptor and
    arrives while the cursor is the non-variadic [-n]; it is stored as the
    value of [-n] and [run] succeeds. *)
Lemma C6_counterexample :
  exists m c,
    unmatched_flag_arrives (Samples.with_default ["-n"; "-5"]) ["-n"] "-5" [] m 2 c
    /\ ~ rejected_as_invalid_parameter (Samples.with_default ["-n"; "-5"]) "-5"
    /\ get (TInteger I_int) "n" (parser (snd (run (Samples.with_default ["-n"; "-5"]))))
       = inr (-5).
Proof.
  do 2 eexists. split; [|split].
  - unfold unmatched_flag_arrives. vm_compute. repeat split.
  - intros (m & H & _). vm_compute in H. discriminate.
  - reflexivity.
Qed.

(** C6 (amended).  A flag-shaped token that matches no descriptor and
    arrives while the cursor is a non-variadic descriptor makes [run] fail
    with the invalid-parameter report for that token when the descriptor's
    bucket already holds a value; when the bucket is empty the token is
    stored in it as the value, with no report. *)
Theorem C6_flag_shaped_token (p : Parser) (pre : list string) (currArg : string)
    (post : list string) (m : Machine) (cur : nat) (c : Cmd) :
  unmatched_flag_arrives p pre currArg post m cur c ->
  (arguments (base_of c) <> [] ->
     run p = (Returned false,
              to_err (invalid_parameter (parser m) currArg)
                (emit (ReportInvalidParameter currArg) m))
     /\ rejected_as_invalid_parameter p currArg)
  /\ (arguments (base_of c) = [] ->
        exists c',
          commands_of (machine_of (token_step m (Some cur) currArg)) !! cur = Some c'
          /\ arguments (base_of c') = [currArg]
          /\ trace (machine_of (token_step m (Some cur) currArg)) = trace m).
Proof.
  intros (Hargs & Hpre & Hc & Hv & Hi & Hf). split.
  - intros Ha.
    assert (run p = (Returned false,
                     to_err (invalid_parameter (parser m) currArg)
                       (emit (ReportInvalidParameter currArg) m))) as Hrun.
    { unfold run, run_from, tokenize. cbn [start parser]. rewrite Hargs.
      rewrite token_loop_app. fold (start p). rewrite Hpre. cbn [token_loop].
      by rewrite (token_step_flag_shaped_second m cur currArg c). }
    split; [exact Hrun|]. eexists. split; [exact Hrun|].
    cbn. apply list_elem_of_In, in_or_app. right. left. reflexivity.
  - intros Ha. unfold token_step. rewrite Hi, Hf, Hc, Hv, Ha.
    cbn [negb length Nat.eqb]. cbv zeta.
    pose proof (lookup_update_eq m cur (map_base (push_back currArg)) c Hc) as Hl.
    destruct (find_default (parser (update cur (map_base (push_back currArg)) m)))
      as [d|]; cbn [machine_of].
    + rewrite lookup_update, Hl. case_decide; cbn.
      * eexists. split; [reflexivity|]. destruct c; cbn in *; rewrite Ha; done.
      * eexists. split; [reflexivity|]. destruct c; cbn in *; rewrite Ha; done.
    + rewrite Hl. eexists. split; [reflexivity|]. destruct c; cbn in *; rewrite Ha; done.
Qed.

(** [[-n, 1, -n, -2]]: the second value offered to [-n] is flag-shaped. *)
Lemma C6_flag_shaped_token_witness :
  rejected_as_invalid_parameter (Samples.with_default ["-n"; "1"; "-n"; "-2"]) "-2".
Proof.
  refine (proj2 (proj1 (C6_flag_shaped_token (Samples.with_default ["-n"; "1"; "-n"; "-2"])
                          ["-n"; "1"; "-n"] "-2" [] _ 2 _ _) _)).
  - unfold unmatched_flag_arrives. vm_compute. repeat split.
  - vm_compute. discriminate.
Defined.

(** ** C2: one value for a non-variadic flag, then back to the default *)

(** With a non-variadic default descriptor the second positional token is
    refused: the default "can have only one parameter". *)
Lemma C2_counterexample :
  let p := Samples.with_default ["-n"; "5"; "a"; "b"] in
  find_default p = Some 1%nat /\ find p "-n" = Some 2%nat
  /\ variadic <$> (base_of <$> _commands p !! 2%nat) = Some false
  /\ ~ routes_value_then_positionals p "5" "a" "b"
  /\ fst (run p) = Returned false
  /\ trace (snd (run p)) = [ReportOnlyOneParameter 1 "b"].
Proof.
  repeat split; try reflexivity.
  intros (m & cur & d & n & cd & cn & H & _). vm_compute in H. discriminate.
Qed.

(** C2 (amended).  For every registry containing a variadic default
    descriptor and a non-variadic flag [-n], both with empty buckets,
    running [[-n, v, p1, p2]], where none of [v], [p1], [p2] resolves to a
    registered flag, routes [v] to the bucket of [-n] and [p1], [p2] to the
    bucket of the default descriptor. *)
Theorem C2_one_value_then_default (p : Parser) (v p1 p2 : string) (d n : nat) (cd cn : Cmd) :
  _arguments p = ["-n"; v; p1; p2] ->
  find_default p = Some d -> _commands p !! d = Some cd ->
  variadic (base_of cd) = true -> arguments (base_of cd) = [] ->
  find p "-n" = Some n -> _commands p !! n = Some cn ->
  name (base_of cn) = "n" ->
  variadic (base_of cn) = false -> arguments (base_of cn) = [] ->
  no_descriptor p v -> no_descriptor p p1 -> no_descriptor p p2 ->
  routes_value_then_positionals p v p1 p2.
Proof.
  intros Hargs Hd Hcd Hvd Had Hn Hcn Hname Hvn Han Hv Hp1 Hp2.
  assert (d <> n) as Hdn.
  { intros ->. unfold find_default in Hd.
    destruct (list_find _ _) as [[i c]|] eqn:E; [|discriminate].
    cbn in Hd. injection Hd as ->.
    apply list_find_Some in E as (Hl & Hc & _).
    rewrite Hcn in Hl. injection Hl as <-. rewrite Hname in Hc. discriminate. }
  set (m1 := update n (map_base set_handled) (start p)).
  set (m2 := update d (map_base set_handled) (update n (map_base (push_back v)) m1)).
  set (m3 := update d (map_base set_handled) (update d (map_base (push_back p1)) m2)).
  set (m4 := update d (map_base set_handled) (update d (map_base (push_back p2)) m3)).
  assert (commands_of m1 !! n = Some (map_base set_handled cn)) as L1n
    by (apply lookup_update_eq; exact Hcn).
  assert (commands_of m1 !! d = Some cd) as L1d
    by (unfold m1; rewrite lookup_update_ne by done; exact Hcd).
  assert (commands_of m2 !! n = Some (map_base (push_back v) (map_base set_handled cn))) as L2n.
  { unfold m2. rewrite lookup_update_ne by done. by apply lookup_update_eq. }
  assert (commands_of m2 !! d = Some (map_base set_handled cd)) as L2d.
  { unfold m2. apply lookup_update_eq. rewrite lookup_update_ne by done. exact L1d. }
  assert (commands_of m3 !! d
          = Some (map_base set_handled (map_base (push_back p1) (map_base set_handled cd))))
    as L3d by (unfold m3; by do 2 apply lookup_update_eq).
  assert (commands_of m3 !! n = commands_of m2 !! n) as L3n
    by (unfold m3; by rewrite !lookup_update_ne).
  assert (commands_of m4 !! n = commands_of m3 !! n) as L4n
    by (unfold m4; by rewrite !lookup_update_ne).
  assert (tokenize (start p) = Continue m4 (Some d)) as Htok.
  { unfold tokenize. cbn [start parser]. fold (start p). rewrite Hargs, Hd.
    cbn [token_loop].
    rewrite (token_step_flag (start p) (Some d) "-n" n eq_refl Hn). fold m1.
    rewrite (token_step_first_value m1 n v (map_base set_handled cn) d).
    2:{ apply no_descriptor_update; [apply set_handled_keeps|exact Hv]. }
    2:{ exact L1n. }
    2:{ destruct cn; exact Hvn. }
    2:{ destruct cn; exact Han. }
    2:{ unfold m1. rewrite find_default_update by apply set_handled_keeps. exact Hd. }
    fold m2.
    rewrite (token_step_variadic m2 d p1 (map_base set_handled cd)).
    2:{ unfold m2, m1. repeat (apply no_descriptor_update;
          [first [apply set_handled_keeps|apply push_back_keeps]|]). exact Hp1. }
    2:{ exact L2d. }
    2:{ destruct cd; exact Hvd. }
    fold m3.
    rewrite (token_step_variadic m3 d p2
               (map_base set_handled (map_base (push_back p1) (map_base set_handled cd)))).
    2:{ unfold m3, m2, m1. repeat (apply no_descriptor_update;
          [first [apply set_handled_keeps|apply push_back_keeps]|]). exact Hp2. }
    2:{ exact L3d. }
    2:{ destruct cd; exact Hvd. }
    reflexivity. }
  exists m4, (Some d), d, n. eexists. eexists.
  split; [exact Htok|]. split; [exact Hd|]. split; [exact Hn|].
  split; [rewrite L4n, L3n; exact L2n|].
  split; [destruct cn; cbn in *; rewrite Han; reflexivity|].
  split; [unfold m4; do 2 apply lookup_update_eq; exact L3d|].
  destruct cd; cbn in *; rewrite Had; reflexivity.
Qed.

Lemma C2_one_value_then_default_witness :
  routes_value_then_positionals
    (set_optional (TInteger I_int) "n" "num" 7 "" None false
       (set_default (TVector TString) false "" [] None
          (Samples.fresh ["-n"; "5"; "a"; "b"])))
    "5" "a" "b".
Proof.
  eapply (C2_one_value_then_default _ "5" "a" "b" 1 2); reflexivity.
Defined.

(** ** What resolution leaves alone *)

Section Frame.

Implicit Types (m : Machine) (i j : nat) (c : Cmd).

Lemma fmap_alter_same {A B} (h : A -> B) (g : A -> A) (l : list A) (i : nat) :
  (forall x, l !! i = Some x -> h (g x) = h x) ->
  h <$> alter g i l = h <$> l.
Proof.
  intros H. apply list_eq. intros j. rewrite !list_lookup_fmap.
  destruct (decide (i = j)) as [<-|Hne].
  - rewrite list_lookup_alter_eq. destruct (l !! i) as [x|] eqn:E; [|reflexivity].
    cbn. f_equal. by apply H.
  - by rewrite list_lookup_alter_ne.
Qed.

(** [parse] assigns [value] only: names, flags and buckets stay. *)
Lemma Cmd_parse_shape i m :
  shape <$> commands_of (snd (Cmd_parse i m)) = shape <$> commands_of m.
Proof.
  unfold Cmd_parse. change (commands_of (emit (CallParse i) m)) with (commands_of m).
  destruct (commands_of m !! i) as [[b T v vf|b T cb v]|] eqn:E; [| |reflexivity].
  - destruct (negb (required b) && (length (arguments b) =? 0)%nat); [reflexivity|].
    destruct (Conv.parse T (arguments b) v); [reflexivity|].
    cbn [snd]. rewrite commands_update. apply fmap_alter_same.
    intros x Hx. change (commands_of m !! i = Some x) in Hx. rewrite E in Hx.
    by injection Hx as <-.
  - destruct (result _); [reflexivity|].
    cbn [snd]. rewrite commands_update. apply fmap_alter_same.
    intros x Hx. change (commands_of m !! i = Some x) in Hx. rewrite E in Hx.
    by injection Hx as <-.
Qed.

Lemma Cmd_parse_other i j m :
  i <> j -> commands_of (snd (Cmd_parse i m)) !! j = commands_of m !! j.
Proof.
  intros Hne. unfold Cmd_parse.
  change (commands_of (emit (CallParse i) m)) with (commands_of m).
  destruct (commands_of m !! i) as [[b T v vf|b T cb v]|]; [| |reflexivity].
  - destruct (negb (required b) && (length (arguments b) =? 0)%nat); [reflexivity|].
    destruct (Conv.parse T (arguments b) v); [reflexivity|].
    cbn [snd]. by rewrite lookup_update_ne.
  - destruct (result _); [reflexivity|]. cbn [snd]. by rewrite lookup_update_ne.
Qed.

(** The early return of [CmdArgument<T>::parse]. *)
Lemma Cmd_parse_use_default i m b T value vf :
  commands_of m !! i = Some (CmdArgument b T value vf) ->
  required b = false -> arguments b = [] ->
  Cmd_parse i m = (true, emit (CallParse i) m).
Proof.
  intros E Hr Ha. unfold Cmd_parse.
  change (commands_of (emit (CallParse i) m)) with (commands_of m).
  rewrite E, Hr, Ha. reflexivity.
Qed.

Lemma Cmd_validate_commands i m :
  commands_of (snd (Cmd_validate i m)) = commands_of m.
Proof.
  unfold Cmd_validate. change (commands_of (emit (CallValidate i) m)) with (commands_of m).
  destruct (commands_of m !! i) as [[b T v [vf|]|b T cb v]|]; try reflexivity.
  destruct (vf v) as [[ok out] err]. reflexivity.
Qed.

Lemma invalid_arguments_report_commands i m :
  commands_of (invalid_arguments_report i m) = commands_of m.
Proof.
  unfold invalid_arguments_report. destruct (commands_of m !! i); reflexivity.
Qed.

Lemma parse_pass_frame dom indices m :
  shape <$> commands_of (snd (parse_pass dom indices m)) = shape <$> commands_of m
  /\ forall j c, commands_of m !! j = Some c -> left_alone c ->
                 commands_of (snd (parse_pass dom indices m)) !! j = Some c.
Proof.
  revert m. induction indices as [|i rest IH]; intros m; [by split|].
  cbn [parse_pass].
  destruct (commands_of m !! i) as [c|] eqn:E; [|apply IH].
  destruct (handled (base_of c) && Bool.eqb (dominant (base_of c)) dom) eqn:Hh; [|apply IH].
  destruct (Cmd_parse i m) as [parsed m1] eqn:Hp.
  assert (shape <$> commands_of m1 = shape <$> commands_of m) as Hb1.
  { pose proof (Cmd_parse_shape i m) as H. by rewrite Hp in H. }
  assert (forall j c', commands_of m !! j = Some c' -> left_alone c' ->
                       commands_of m1 !! j = Some c') as Hf1.
  { intros j c' Hj Hl. destruct (decide (i = j)) as [<-|Hne].
    - rewrite E in Hj. injection Hj as <-.
      destruct Hl as [Hl|(Hl1 & Hl2 & Hl3)].
      + rewrite Hl in Hh. discriminate.
      + destruct c as [b T v vf|]; [|discriminate].
        rewrite (Cmd_parse_use_default i m b T v vf E Hl2 Hl3) in Hp.
        injection Hp as _ <-. exact E.
    - pose proof (Cmd_parse_other i j m Hne) as H. rewrite Hp in H. cbn in H.
      by rewrite H. }
  destruct (if parsed then Cmd_validate i m1 else (false, m1)) as [ok m2] eqn:Hv.
  assert (commands_of m2 = commands_of m1) as Hc2.
  { destruct parsed.
    - pose proof (Cmd_validate_commands i m1) as H. by rewrite Hv in H.
    - by injection Hv as _ <-. }
  destruct ok.
  - destruct (IH m2) as [IHb IHf]. split.
    + by rewrite IHb, Hc2.
    + intros j c' Hj Hl. apply IHf; [|exact Hl]. rewrite Hc2. by apply Hf1.
  - cbn [snd]. rewrite invalid_arguments_report_commands, Hc2. split; [exact Hb1|exact Hf1].
Qed.

Lemma required_pass_commands m :
  commands_of (snd (required_pass m)) = commands_of m.
Proof. unfold required_pass. destruct (list_find _ _) as [[i c]|]; reflexivity. Qed.

Lemma shape_lookup (l l' : list Cmd) j c :
  shape <$> l' = shape <$> l -> l !! j = Some c ->
  exists c', l' !! j = Some c' /\ shape c' = shape c.
Proof.
  intros Hb Hj.
  assert ((shape <$> l') !! j = (shape <$> l) !! j) as H by by rewrite Hb.
  rewrite !list_lookup_fmap, Hj in H.
  destruct (l' !! j) as [c'|]; [|discriminate]. exists c'. split; [done|].
  cbn in H. congruence.
Qed.

Lemma resolve_frame m :
  shape <$> commands_of (snd (resolve m)) = shape <$> commands_of m
  /\ forall j c, commands_of m !! j = Some c -> left_alone c ->
                 commands_of (snd (resolve m)) !! j = Some c.
Proof.
  unfold resolve.
  pose proof (parse_pass_frame true (indices m) m) as [Hb1 Hf1].
  destruct (parse_pass true (indices m) m) as [ok1 m1]. cbn [snd] in *.
  destruct ok1; cbn [negb snd]; [|by split].
  pose proof (required_pass_commands m1) as Hc2.
  destruct (required_pass m1) as [ok2 m2]. cbn [snd] in *.
  destruct ok2; cbn [negb snd]; [|rewrite Hc2; by split].
  pose proof (parse_pass_frame false (indices m2) m2) as [Hb3 Hf3].
  destruct (parse_pass false (indices m2) m2) as [ok3 m3]. cbn [snd] in *.
  split; [by rewrite Hb3, Hc2|].
  intros j c Hj Hl. apply Hf3; [|exact Hl]. rewrite Hc2. by apply Hf1.
Qed.

(** Tokenisation writes [handled] and [arguments] only. *)
Lemma payload_map_base g c : payload (map_base g c) = payload c.
Proof. by destruct c. Qed.

Lemma is_argument_map_base g c : is_argument (map_base g c) = is_argument c.
Proof. by destruct c. Qed.

Lemma contents_update m i g : contents (update i (map_base g) m) = contents m.
Proof.
  unfold contents. rewrite commands_update. apply fmap_alter_same.
  intros x _. by rewrite payload_map_base, is_argument_map_base.
Qed.

Lemma token_step_contents m current currArg :
  contents (machine_of (token_step m current currArg)) = contents m.
Proof.
  unfold token_step.
  destruct (if isarg currArg then find (parser m) currArg else None) as [a|].
  { cbn [machine_of]. apply contents_update. }
  destruct current as [cur|]; [|reflexivity].
  destruct (commands_of m !! cur) as [c|]; [|reflexivity].
  destruct (negb (variadic (base_of c))).
  - destruct (length (arguments (base_of c)) =? 0)%nat.
    + cbv zeta. destruct (find_default _) as [d|]; cbn [machine_of];
        by rewrite ?contents_update.
    + destruct (isarg currArg); reflexivity.
  - cbn [machine_of]. by rewrite !contents_update.
Qed.

Lemma token_loop_contents args m current :
  contents (machine_of (token_loop args m current)) = contents m.
Proof.
  revert m current. induction args as [|t args IH]; intros m current; [reflexivity|].
  cbn [token_loop].
  pose proof (token_step_contents m current t) as H.
  destruct (token_step m current t) as [m' current'|o m']; cbn [machine_of] in *.
  - by rewrite IH.
  - exact H.
Qed.

Lemma contents_lookup m m' j c :
  contents m' = contents m -> commands_of m !! j = Some c ->
  exists c', commands_of m' !! j = Some c'
             /\ payload c' = payload c /\ is_argument c' = is_argument c.
Proof.
  intros H Hj.
  assert (contents m' !! j = contents m !! j) as E by by rewrite H.
  unfold contents in E. rewrite !list_lookup_fmap, Hj in E. cbn in E.
  destruct (commands_of m' !! j) as [c'|]; [|discriminate].
  exists c'. cbn in E. injection E as E1 E2. by rewrite E1, E2.
Qed.

End Frame.

(** ** C8: defaults are kept *)

(** C8.  For every non-required value parameter whose bucket is empty when
    [parse] is called, [parse] succeeds having done nothing but enter (no
    conversion is called, nothing is written, the value is the same); the
    buckets do not change during resolution, so when such a descriptor's
    bucket is empty at the end of [run] its typed value is the registered
    one.  Likewise every descriptor that is neither handled nor required
    holds its registered value after [run]. *)
Theorem C8_defaults_kept :
  (forall m i b T value vf,
      commands_of m !! i = Some (CmdArgument b T value vf) ->
      required b = false -> arguments b = [] ->
      Cmd_parse i m = (true, emit (CallParse i) m))
  /\ (forall p i c,
        _commands p !! i = Some c ->
        exists c',
          commands_of (snd (run p)) !! i = Some c'
          /\ (is_argument c' = true -> required (base_of c') = false ->
              arguments (base_of c') = [] -> payload c' = payload c)
          /\ (handled (base_of c') = false -> required (base_of c') = false ->
              payload c' = payload c)).
Proof.
  split; [intros m i; apply Cmd_parse_use_default|].
  intros p i c Hc. unfold run, run_from, tokenize.
  pose proof (token_loop_contents (_arguments (parser (start p))) (start p)
                (find_default (parser (start p)))) as Ht.
  destruct (token_loop _ _ _) as [m0 cur|o m0]; cbn [machine_of snd] in *.
  - destruct (contents_lookup (start p) m0 i c Ht Hc) as (c0 & H0 & Hp0 & _).
    destruct (resolve_frame m0) as [Hb Hf].
    destruct (shape_lookup _ _ i c0 Hb H0) as (c' & Hc' & Hs).
    assert (left_alone c0 -> payload c' = payload c) as Hsame.
    { intros Hl. specialize (Hf i c0 H0 Hl). rewrite Hc' in Hf.
      injection Hf as ->. exact Hp0. }
    unfold shape in Hs. injection Hs as Hs1 Hs2.
    exists c'. split; [exact Hc'|]. rewrite Hs1, Hs2. split.
    + intros H1 H2 H3. apply Hsame. right. done.
    + intros H1 _. apply Hsame. left. done.
  - destruct (contents_lookup (start p) m0 i c Ht Hc) as (c0 & H0 & Hp0 & _).
    exists c0. split; [exact H0|]. split; intros; exact Hp0.
Qed.

Lemma C8_defaults_kept_witness :
  Cmd_parse 2 (start (Samples.with_default []))
  = (true, emit (CallParse 2) (start (Samples.with_default [])))
  /\ exists c',
       commands_of (snd (run (Samples.with_default ["a"]))) !! 2%nat = Some c'
       /\ (is_argument c' = true -> required (base_of c') = false ->
           arguments (base_of c') = [] ->
           payload c' = existT (TInteger I_int) (7 : tyDenote (TInteger I_int)))
       /\ (handled (base_of c') = false -> required (base_of c') = false ->
           payload c' = existT (TInteger I_int) (7 : tyDenote (TInteger I_int))).
Proof.
  split.
  - exact (proj1 C8_defaults_kept (start (Samples.with_default [])) 2%nat
             (CmdBase_new "n" "num" "" false false false) (TInteger I_int) 7 None
             eq_refl eq_refl eq_refl).
  - exact (proj2 C8_defaults_kept (Samples.with_default ["a"]) 2%nat
             (CmdArgument (CmdBase_new "n" "num" "" false false false)
                (TInteger I_int) 7 None) eq_refl).
Defined.

(** [-n] is neither handled nor required on [[a]] and keeps its 7. *)
Example default_kept :
  get (TInteger I_int) "n" (parser (snd (run (Samples.with_default ["a"])))) = inr 7
  /\ get_default TString (parser (snd (run (Samples.with_default ["a"])))) = inr "a".
Proof. split; reflexivity. Qed.

(** ** The trace of the resolution stage *)

Section Traces.

Implicit Types (m : Machine) (i j k : nat) (c : Cmd) (t : list Event).

Lemma shape_bases (l l' : list Cmd) :
  shape <$> l' = shape <$> l -> base_of <$> l' = base_of <$> l.
Proof.
  intros H.
  assert (forall x : list Cmd, base_of <$> x = fst <$> (shape <$> x)) as E.
  { intros x. rewrite <- list_fmap_compose. reflexivity. }
  by rewrite !E, H.
Qed.

Ltac trace_eq :=
  cbn [app fst snd trace emit to_err to_out update];
  repeat (rewrite <- app_assoc; cbn [app]); reflexivity.

Lemma Cmd_parse_trace i m :
  exists inner, inner_call i inner
                /\ trace (snd (Cmd_parse i m)) = trace m ++ CallParse i :: inner.
Proof.
  unfold Cmd_parse, inner_call.
  change (commands_of (emit (CallParse i) m)) with (commands_of m).
  destruct (commands_of m !! i) as [[b T v vf|b T cb v]|].
  - destruct (negb (required b) && (length (arguments b) =? 0)%nat).
    { exists []. split; [tauto|reflexivity]. }
    exists [CallConversion i]. split; [tauto|].
    destruct (Conv.parse T (arguments b) v); cbn; by rewrite <- app_assoc.
  - exists [CallCallback i]. split; [tauto|].
    destruct (result _); cbn; by rewrite <- app_assoc.
  - exists []. split; [tauto|reflexivity].
Qed.

Lemma Cmd_validate_trace i m :
  trace (snd (Cmd_validate i m)) = trace m ++ [CallValidate i].
Proof.
  unfold Cmd_validate.
  change (commands_of (emit (CallValidate i) m)) with (commands_of m).
  destruct (commands_of m !! i) as [[b T v [vf|]|b T cb v]|]; try reflexivity.
  destruct (vf v) as [[ok out] err]. reflexivity.
Qed.

Lemma selected_iff m dom i :
  selected (bases_of m) dom i
  <-> exists c, commands_of m !! i = Some c
                /\ handled (base_of c) && Bool.eqb (dominant (base_of c)) dom = true.
Proof.
  unfold selected, bases_of. rewrite list_lookup_fmap. split.
  - intros (b & Hb & Hh & Hd). destruct (commands_of m !! i) as [c|]; [|discriminate].
    exists c. split; [done|]. cbn in Hb. injection Hb as <-.
    rewrite Hh, Hd. by destruct dom.
  - intros (c & -> & H). exists (base_of c). split; [done|].
    apply andb_true_iff in H as [-> H]. split; [done|].
    by apply Bool.eqb_prop in H.
Qed.

Lemma parse_pass_trace dom indices m :
  exists t, trace (snd (parse_pass dom indices m)) = trace m ++ t
            /\ pass_trace (bases_of m) dom indices (fst (parse_pass dom indices m)) t.
Proof.
  revert m. induction indices as [|i rest IH]; intros m.
  { exists []. split; [by rewrite app_nil_r|constructor]. }
  cbn [parse_pass].
  destruct (commands_of m !! i) as [c|] eqn:E.
  2:{ destruct (IH m) as (t & Ht & Hp). exists t. split; [done|].
      apply pass_skip; [|done]. rewrite selected_iff. intros (c & Hc & _). congruence. }
  destruct (handled (base_of c) && Bool.eqb (dominant (base_of c)) dom) eqn:Hsel.
  2:{ destruct (IH m) as (t & Ht & Hp). exists t. split; [done|].
      apply pass_skip; [|done]. rewrite selected_iff. intros (c' & Hc & H).
      rewrite E in Hc. injection Hc as <-. congruence. }
  assert (selected (bases_of m) dom i) as Hs by (rewrite selected_iff; eauto).
  destruct (Cmd_parse_trace i m) as (inner & Hin & Htr).
  pose proof (Cmd_parse_shape i m) as Hsh. apply shape_bases in Hsh.
  destruct (Cmd_parse i m) as [parsed m1]. cbn [snd] in *.
  destruct parsed.
  - pose proof (Cmd_validate_trace i m1) as Hv.
    pose proof (Cmd_validate_commands i m1) as Hvc.
    destruct (Cmd_validate i m1) as [ok m2]. cbn [snd] in *.
    assert (bases_of m2 = bases_of m) as Hb2 by (unfold bases_of; by rewrite Hvc).
    destruct ok.
    + destruct (IH m2) as (t & Ht & Hp). rewrite Hb2 in Hp.
      exists ((CallParse i :: inner ++ [CallValidate i]) ++ t). split.
      * rewrite Ht, Hv, Htr. trace_eq.
      * apply pass_next; [done| |done]. by constructor.
    + exists (CallParse i :: inner ++ [CallValidate i; ReportInvalidArguments i]).
      cbn [fst snd]. split.
      * unfold invalid_arguments_report.
        assert (exists c2, commands_of m2 !! i = Some c2) as [c2 ->].
        { rewrite Hvc.
          assert ((base_of <$> commands_of m1) !! i = (base_of <$> commands_of m) !! i)
            as H by by rewrite Hsh.
          rewrite !list_lookup_fmap, E in H.
          destruct (commands_of m1 !! i); [eauto|discriminate]. }
        cbn [trace to_err emit]. rewrite Hv, Htr. trace_eq.
      * apply pass_abort; [done|]. by constructor.
  - exists (CallParse i :: inner ++ [ReportInvalidArguments i]).
    cbn [fst snd]. split.
    + unfold invalid_arguments_report.
      assert (exists c1, commands_of m1 !! i = Some c1) as [c1 ->].
      { assert ((base_of <$> commands_of m1) !! i = (base_of <$> commands_of m) !! i)
          as H by by rewrite Hsh.
        rewrite !list_lookup_fmap, E in H.
        destruct (commands_of m1 !! i); [eauto|discriminate]. }
      cbn [trace to_err emit]. rewrite Htr. trace_eq.
    + apply pass_abort; [done|]. by constructor.
Qed.

Lemma parse_pass_bases dom indices m :
  bases_of (snd (parse_pass dom indices m)) = bases_of m.
Proof. apply shape_bases, parse_pass_frame. Qed.

Lemma block_head i ok blk : block i ok blk -> CallParse i ∈ blk.
Proof. intros []; apply list_elem_of_here. Qed.

Lemma block_report i blk : block i false blk -> ReportInvalidArguments i ∈ blk.
Proof.
  intros H. inversion H; subst; apply list_elem_of_further, elem_of_app; right.
  - apply list_elem_of_here.
  - apply list_elem_of_further, list_elem_of_here.
Qed.

(** Every selected descriptor is parsed, unless the pass left [run] at an
    earlier one. *)
Lemma pass_trace_reaches bases dom n k ok t :
  pass_trace bases dom (seq k n) ok t ->
  forall i, (k <= i < k + n)%nat -> selected bases dom i ->
            CallParse i ∈ t
            \/ exists j, (k <= j < i)%nat /\ ReportInvalidArguments j ∈ t.
Proof.
  revert k ok t. induction n as [|n IH]; intros k ok t Hp i Hi Hs; [lia|].
  cbn [seq] in Hp. inversion Hp as [|? ? ? ? Hns Hrest|? ? ? t' blk _ Hblk Hrest|? ? ? _ Hblk]; subst.
  - destruct (decide (i = k)) as [->|Hne]; [contradiction|].
    destruct (IH (S k) ok t Hrest i ltac:(lia) Hs) as [H|(j & Hj & H)]; [by left|].
    right. exists j. split; [lia|done].
  - destruct (decide (i = k)) as [->|Hne].
    { left. apply elem_of_app. left. by eapply block_head. }
    destruct (IH (S k) ok t' Hrest i ltac:(lia) Hs) as [H|(j & Hj & H)].
    + left. apply elem_of_app. by right.
    + right. exists j. split; [lia|]. apply elem_of_app. by right.
  - destruct (decide (i = k)) as [->|Hne].
    { left. by eapply block_head. }
    right. exists k. split; [lia|]. by apply block_report.
Qed.

Lemma required_pass_trace m :
  exists t, trace (snd (required_pass m)) = trace m ++ t
            /\ required_trace (bases_of m) (fst (required_pass m)) t.
Proof.
  unfold required_pass, required_trace.
  destruct (list_find _ _) as [[j c]|] eqn:E.
  - apply list_find_Some in E as (Hj & Hm & Hfirst).
    exists [ReportRequired j]. split; [reflexivity|]. right. split; [reflexivity|].
    exists j, (base_of c). split; [reflexivity|]. unfold bases_of.
    rewrite list_lookup_fmap, Hj. split; [reflexivity|]. split; [exact Hm|].
    intros k b' Hk Hb'. rewrite list_lookup_fmap in Hb'.
    destruct (commands_of m !! k) as [ck|] eqn:Ek; [|discriminate].
    cbn in Hb'. injection Hb' as <-.
    specialize (Hfirst k ck Ek Hk). unfold missing in Hfirst.
    unfold missing_base. by destruct (required _ && negb _).
  - exists []. split; [by rewrite app_nil_r|]. left. split; [reflexivity|].
    split; [reflexivity|].
    intros j b Hb. unfold bases_of in Hb. rewrite list_lookup_fmap in Hb.
    destruct (commands_of m !! j) as [cj|] eqn:Ej; [|discriminate].
    cbn in Hb. injection Hb as <-.
    apply list_find_None in E. rewrite Forall_forall in E.
    specialize (E cj). unfold missing in E. unfold missing_base.
    destruct (required _ && negb _); [|reflexivity].
    exfalso. apply E; [|reflexivity]. eapply list_elem_of_lookup_2. exact Ej.
Qed.

End Traces.

(** ** C1: three ordered passes *)

Lemma indices_bases m m' : bases_of m' = bases_of m -> indices m' = indices m.
Proof.
  intros H. unfold indices. f_equal.
  assert (length (bases_of m') = length (bases_of m)) as E by by rewrite H.
  unfold bases_of in E. by rewrite !length_fmap in E.
Qed.

Section Iterations.

Implicit Types (m : Machine) (i n : nat).

Lemma parse_pass_app dom pre post m :
  parse_pass dom (pre ++ post) m
  = if fst (parse_pass dom pre m)
    then parse_pass dom post (snd (parse_pass dom pre m))
    else (false, snd (parse_pass dom pre m)).
Proof.
  revert m. induction pre as [|i pre IH]; intros m; [reflexivity|].
  cbn [app parse_pass].
  destruct (commands_of m !! i) as [c|]; [|apply IH].
  destruct (handled (base_of c) && Bool.eqb (dominant (base_of c)) dom); [|apply IH].
  destruct (Cmd_parse i m) as [parsed m1].
  destruct (if parsed then Cmd_validate i m1 else (false, m1)) as [ok m2].
  destruct ok; [apply IH|reflexivity].
Qed.

(** One iteration, seen from the whole pass over [n] descriptors. *)
Lemma parse_pass_iteration dom n m_in i c mi :
  (i < n)%nat ->
  commands_of m_in !! i = Some c ->
  handled (base_of c) = true -> dominant (base_of c) = dom ->
  parse_pass dom (seq 0 i) m_in = (true, mi) ->
  aborts_or_continues dom m_in i mi
    (fun mf => parse_pass dom (seq 0 n) m_in = (false, mf)).
Proof.
  intros Hlt Hc Hh Hd Hpre.
  assert (exists c', commands_of mi !! i = Some c'
                     /\ handled (base_of c') && Bool.eqb (dominant (base_of c')) dom = true)
    as (c' & Hc' & Hsel).
  { apply selected_iff.
    pose proof (parse_pass_bases dom (seq 0 i) m_in) as Hb. rewrite Hpre in Hb.
    cbn [snd] in Hb. rewrite Hb. apply selected_iff. exists c. split; [exact Hc|].
    rewrite Hh, Hd. by destruct dom. }
  assert (forall rest,
            parse_pass dom (seq 0 i ++ i :: rest) m_in
            = (let '(parsed, m1) := Cmd_parse i mi in
               let '(ok, m2) := if parsed then Cmd_validate i m1 else (false, m1) in
               if ok then parse_pass dom rest m2
               else (false, invalid_arguments_report i m2))) as Hstep.
  { intros rest. rewrite parse_pass_app, Hpre. cbn [fst snd parse_pass].
    by rewrite Hc', Hsel. }
  assert (seq 0 n = seq 0 i ++ i :: seq (S i) (n - S i)) as Hn.
  { replace n with (i + S (n - S i))%nat at 1 by lia. by rewrite seq_app. }
  assert (seq 0 (S i) = seq 0 i ++ [i]) as Hi by by rewrite seq_S.
  unfold aborts_or_continues. rewrite Hn, Hi, !Hstep.
  destruct (Cmd_parse i mi) as [parsed m1]. cbn [fst snd].
  destruct parsed.
  - destruct (Cmd_validate i m1) as [ok m2]. cbn [fst snd].
    destruct ok; repeat split; try done.
  - repeat split; done.
Qed.

Lemma block_about i ok blk : block i ok blk -> Forall (about i) blk.
Proof.
  assert (forall inner, inner_call i inner -> Forall (about i) inner) as Hin.
  { unfold about. intros inner [->|[->| ->]]; [constructor| |];
      (apply Forall_singleton; tauto). }
  unfold about in *.
  intros [inner H|inner H|inner H]; apply Forall_cons; (split; [tauto|]);
    apply Forall_app; (split; [by apply Hin|]).
  - apply Forall_singleton. tauto.
  - apply Forall_singleton. tauto.
  - apply Forall_cons. split; [tauto|]. apply Forall_singleton. tauto.
Qed.

(** A pass makes events about the descriptors it selects and no other. *)
Lemma pass_trace_events bases dom indices ok t :
  pass_trace bases dom indices ok t ->
  Forall (fun e => exists i, i ∈ indices /\ selected bases dom i /\ about i e) t.
Proof.
  induction 1 as [|i rest ok t Hns _ IH|i rest ok t blk Hs Hblk _ IH|i rest blk Hs Hblk].
  - constructor.
  - eapply Forall_impl; [exact IH|]. intros e (j & Hj & H). exists j.
    split; [by apply list_elem_of_further|exact H].
  - apply Forall_app. split.
    + eapply Forall_impl; [exact (block_about _ _ _ Hblk)|]. intros e He. exists i.
      split; [apply list_elem_of_here|by split].
    + eapply Forall_impl; [exact IH|]. intros e (j & Hj & H). exists j.
      split; [by apply list_elem_of_further|exact H].
  - eapply Forall_impl; [exact (block_about _ _ _ Hblk)|]. intros e He. exists i.
    split; [apply list_elem_of_here|by split].
Qed.

End Iterations.

(** C1.  When tokenisation completes in the machine [m0], resolution is
    three passes in this order.

    First conjunct, the log: the events of [run] are those of a parse
    pass over the handled dominant descriptors ([t1]), then those of the
    required-check ([t2]), then those of a parse pass over the handled
    non-dominant descriptors ([t3]); within a pass each descriptor
    contributes [parse], then [validate], then the report if one of them
    failed; every handled dominant descriptor is parsed unless an earlier
    dominant descriptor failed.

    Second conjunct, the dominant pass descriptor by descriptor: when the
    handled dominant descriptors before [i] have all succeeded, leaving
    the machine [mi], [parse] is called on the handled dominant
    descriptor [i] in [mi], whatever the state of the required
    descriptors; if it returns [false], [run] returns [false] at once
    with the report for [i]; if it returns [true], [validate] is called,
    and if that returns [false], [run] returns [false] with the report
    for [i]; if both return [true] the pass goes on.

    Third conjunct: when the dominant pass fails, [run] returns [false]
    in the machine the pass left, whose events are all calls and reports
    on handled dominant descriptors: the required-check has not run.

    Fourth conjunct: when the dominant pass succeeds, the required-check
    runs next: if a required descriptor is not handled, [run] returns
    [false] with the report for the first such descriptor and nothing
    else; if none is, the result of [run] is that of the parse pass over
    the handled non-dominant descriptors, in which a false result of
    [parse] or [validate] makes [run] return [false] in the same way. *)
Theorem C1_three_ordered_passes (m m0 : Machine) (cur : option nat) :
  tokenize m = Continue m0 cur ->
  (exists t1 t2 t3 ok1 ok2 ok3,
      trace (snd (run_from m)) = trace m0 ++ t1 ++ t2 ++ t3
      /\ fst (run_from m) = Returned (ok1 && ok2 && ok3)
      /\ pass_trace (bases_of m0) true (indices m0) ok1 t1
      /\ (ok1 = false -> t2 = [] /\ t3 = [])
      /\ (ok1 = true -> required_trace (bases_of m0) ok2 t2)
      /\ (ok1 = true -> ok2 = false -> t3 = [])
      /\ (ok1 = true -> ok2 = true -> pass_trace (bases_of m0) false (indices m0) ok3 t3)
      /\ (forall i, selected (bases_of m0) true i ->
                    CallParse i ∈ t1
                    \/ exists j, (j < i)%nat /\ ReportInvalidArguments j ∈ t1))
  /\ (forall i c mi,
        commands_of m0 !! i = Some c ->
        handled (base_of c) = true -> dominant (base_of c) = true ->
        parse_pass true (seq 0 i) m0 = (true, mi) ->
        aborts_or_continues true m0 i mi (fun mf => run_from m = (Returned false, mf)))
  /\ (forall m1,
        parse_pass true (indices m0) m0 = (false, m1) ->
        run_from m = (Returned false, m1)
        /\ exists t, trace m1 = trace m0 ++ t /\ Forall (dominant_event (bases_of m0)) t)
  /\ (forall m1,
        parse_pass true (indices m0) m0 = (true, m1) ->
        (forall j c,
            list_find (fun c => missing c = true) (commands_of m1) = Some (j, c) ->
            exists m2, run_from m = (Returned false, m2)
                       /\ trace m2 = trace m1 ++ [ReportRequired j]
                       /\ commands_of m2 = commands_of m1)
        /\ (list_find (fun c => missing c = true) (commands_of m1) = None ->
            run_from m = (Returned (fst (parse_pass false (indices m0) m1)),
                          snd (parse_pass false (indices m0) m1))
            /\ forall i c mi,
                 commands_of m1 !! i = Some c ->
                 handled (base_of c) = true -> dominant (base_of c) = false ->
                 parse_pass false (seq 0 i) m1 = (true, mi) ->
                 aborts_or_continues false m1 i mi
                   (fun mf => run_from m = (Returned false, mf)))).
Proof.
  intros Htok. split; [|split; [|split]].
  - unfold run_from. rewrite Htok. unfold resolve.
    destruct (parse_pass_trace true (indices m0) m0) as (t1 & Ht1 & Hp1).
    pose proof (parse_pass_bases true (indices m0) m0) as Hb1.
    assert (forall i, selected (bases_of m0) true i ->
                      CallParse i ∈ t1
                      \/ exists j, (j < i)%nat /\ ReportInvalidArguments j ∈ t1) as Hreach.
    { intros i Hs.
      assert (i < length (commands_of m0))%nat as Hlt.
      { destruct Hs as (b & Hb & _). apply lookup_lt_Some in Hb.
        unfold bases_of in Hb. by rewrite length_fmap in Hb. }
      destruct (pass_trace_reaches _ _ _ _ _ _ Hp1 i ltac:(lia) Hs) as [H|(j & Hj & H)];
        [by left|]. right. exists j. split; [lia|done]. }
    destruct (parse_pass true (indices m0) m0) as [ok1 m1]. cbn [fst snd negb] in *.
    destruct ok1; cbn [negb].
    2:{ exists t1, [], [], false, true, true. cbn [fst snd andb].
        rewrite Ht1, !app_nil_r. repeat split; try done. }
    destruct (required_pass_trace m1) as (t2 & Ht2 & Hp2).
    pose proof (required_pass_commands m1) as Hc2.
    rewrite Hb1 in Hp2.
    destruct (required_pass m1) as [ok2 m2]. cbn [fst snd] in *.
    destruct ok2; cbn [negb].
    2:{ exists t1, t2, [], true, false, true. cbn [fst snd andb].
        rewrite Ht2, Ht1, !app_nil_r, <- app_assoc. repeat split; try done. }
    assert (bases_of m2 = bases_of m0) as Hb2 by (unfold bases_of in *; by rewrite Hc2).
    destruct (parse_pass_trace false (indices m2) m2) as (t3 & Ht3 & Hp3).
    rewrite Hb2, (indices_bases _ _ Hb2) in Hp3.
    rewrite (indices_bases _ _ Hb2) in Ht3.
    rewrite (indices_bases _ _ Hb2).
    destruct (parse_pass false (indices m0) m2) as [ok3 m3]. cbn [fst snd] in *.
    exists t1, t2, t3, true, true, ok3. cbn [fst snd andb].
    rewrite Ht3, Ht2, Ht1, <- !app_assoc. repeat split; try done.
  - intros i c mi Hc Hh Hd Hpre.
    assert (i < length (commands_of m0))%nat as Hlt by by eapply lookup_lt_Some.
    destruct (parse_pass_iteration true _ m0 i c mi Hlt Hc Hh Hd Hpre) as (H1 & H2 & H3).
    assert (forall mf, parse_pass true (indices m0) m0 = (false, mf) ->
                       run_from m = (Returned false, mf)) as Hrun.
    { intros mf Hf. unfold run_from. rewrite Htok. unfold resolve. by rewrite Hf. }
    unfold aborts_or_continues. split; [|split].
    + intros Hp. by apply Hrun, H1.
    + intros Hp Hv. by apply Hrun, H2.
    + exact H3.
  - intros m1 H1. split.
    + unfold run_from. rewrite Htok. unfold resolve. by rewrite H1.
    + destruct (parse_pass_trace true (indices m0) m0) as (t1 & Ht1 & Hp1).
      rewrite H1 in Ht1, Hp1. cbn [fst snd] in *.
      exists t1. split; [exact Ht1|].
      eapply Forall_impl; [exact (pass_trace_events _ _ _ _ _ Hp1)|].
      intros e (i & _ & Hs & Ha). by exists i.
  - intros m1 H1.
    pose proof (parse_pass_bases true (indices m0) m0) as Hb1.
    rewrite H1 in Hb1. cbn [snd] in Hb1.
    pose proof (indices_bases _ _ Hb1) as Hi1.
    split.
    + intros j c Hfind. eexists. split; [|split].
      * unfold run_from. rewrite Htok. unfold resolve. rewrite H1.
        unfold required_pass. rewrite Hfind. reflexivity.
      * reflexivity.
      * reflexivity.
    + intros Hfind.
      assert (run_from m = (Returned (fst (parse_pass false (indices m0) m1)),
                            snd (parse_pass false (indices m0) m1))) as Hrun.
      { unfold run_from. rewrite Htok. unfold resolve. rewrite H1.
        unfold required_pass. rewrite Hfind. cbn [negb]. rewrite Hi1.
        by destruct (parse_pass false (indices m0) m1). }
      split; [exact Hrun|].
      intros i c mi Hc Hh Hd Hpre.
      assert (i < length (commands_of m0))%nat as Hlt.
      { apply lookup_lt_Some in Hc. unfold indices in Hi1.
        assert (length (seq 0 (length (commands_of m1)))
                = length (seq 0 (length (commands_of m0)))) as E by by rewrite Hi1.
        rewrite !length_seq in E. lia. }
      destruct (parse_pass_iteration false _ m1 i c mi Hlt Hc Hh Hd Hpre) as (F1 & F2 & F3).
      unfold aborts_or_continues. split; [|split].
      * intros Hp. rewrite Hrun. unfold indices. by rewrite (F1 Hp).
      * intros Hp Hv. rewrite Hrun. unfold indices. by rewrite (F2 Hp Hv).
      * exact F3.
Qed.

(** [[-h]] with the required [-r] absent: the help callback is parsed and
    validated in the dominant pass, then the required-check reports [-r].
    [[-d]] with a dominant callback that throws: [parse] returns [false]
    and [run] returns [false] with the report for [-d], the required [-r]
    being absent all the same. *)
Lemma C1_three_ordered_passes_witness :
  (exists t1 t2 t3 ok1 ok2 ok3,
      [CallParse 0; CallCallback 0; CallValidate 0; ReportRequired 2] = [] ++ t1 ++ t2 ++ t3
      /\ Returned false = Returned (ok1 && ok2 && ok3)
      /\ pass_trace
           (bases_of (machine_of (tokenize (start (Samples.with_dominant ["-h"])))))
           true [0; 1; 2]%nat ok1 t1
      /\ (ok1 = false -> t2 = [] /\ t3 = [])
      /\ (ok1 = true ->
          required_trace
            (bases_of (machine_of (tokenize (start (Samples.with_dominant ["-h"])))))
            ok2 t2)
      /\ (ok1 = true -> ok2 = false -> t3 = [])
      /\ (ok1 = true -> ok2 = true ->
          pass_trace
            (bases_of (machine_of (tokenize (start (Samples.with_dominant ["-h"])))))
            false [0; 1; 2]%nat ok3 t3)
      /\ (forall i,
            selected
              (bases_of (machine_of (tokenize (start (Samples.with_dominant ["-h"])))))
              true i ->
            CallParse i ∈ t1
            \/ exists j, (j < i)%nat /\ ReportInvalidArguments j ∈ t1))
  /\ run_from (start (Samples.with_dominant ["-d"]))
     = (Returned false,
        invalid_arguments_report 1
          (snd (Cmd_parse 1
                  (machine_of (tokenize (start (Samples.with_dominant ["-d"]))))))).
Proof.
  split.
  - exact (proj1 (C1_three_ordered_passes (start (Samples.with_dominant ["-h"]))
                    (machine_of (tokenize (start (Samples.with_dominant ["-h"]))))
                    (Some 0%nat) eq_refl)).
  - exact (proj1 (proj1 (proj2 (C1_three_ordered_passes
                                  (start (Samples.with_dominant ["-d"]))
                                  (machine_of (tokenize (start (Samples.with_dominant ["-d"]))))
                                  (Some 1%nat) eq_refl))
                    1%nat
                    (CmdFunction (set_handled (CmdBase_new "d" "dom" "" false true false))
                       TBool Samples.failing false)
                    (machine_of (tokenize (start (Samples.with_dominant ["-d"]))))
                    eq_refl eq_refl eq_refl eq_refl)
             eq_refl).
Defined.

Example dominant_before_required :
  trace (snd (run (Samples.with_dominant ["-h"])))
  = [CallParse 0; CallCallback 0; CallValidate 0; ReportRequired 2]
  /\ trace (snd (run (Samples.with_dominant ["-d"])))
     = [CallParse 1; CallCallback 1; ReportInvalidArguments 1]
  /\ trace (snd (run (Samples.with_default ["-h"; "-n"; "3"])))
     = [CallParse 0; CallCallback 0; CallValidate 0;
        CallParse 1; CallValidate 1;
        CallParse 2; CallConversion 2; CallValidate 2].
Proof. vm_compute. repeat split. Qed.

(** ** A required descriptor that is never addressed *)

Section Absent.

Implicit Types (m : Machine) (i j cur : nat) (c : Cmd) (current : option nat).

Lemma find_Some_is p nm i :
  find p nm = Some i ->
  exists c, _commands p !! i = Some c /\ CmdBase_is (base_of c) nm = true.
Proof.
  unfold find. destruct (list_find _ _) as [[k c]|] eqn:E; [|discriminate].
  intros [= <-]. apply list_find_Some in E as (H1 & H2 & _). eauto.
Qed.

Lemma find_default_Some_name p i :
  find_default p = Some i ->
  exists c, _commands p !! i = Some c /\ name (base_of c) = "".
Proof.
  unfold find_default. destruct (list_find _ _) as [[k c]|] eqn:E; [|discriminate].
  intros [= <-]. apply list_find_Some in E as (H1 & H2 & _).
  exists c. split; [done|]. by apply String.eqb_eq.
Qed.

(** Tokenisation never writes the flags, so lookups by flag are stable. *)
Lemma token_step_finds m current currArg :
  (forall nm, find (parser (machine_of (token_step m current currArg))) nm
              = find (parser m) nm)
  /\ find_default (parser (machine_of (token_step m current currArg)))
     = find_default (parser m).
Proof.
  pose proof set_handled_keeps as Hh. pose proof (push_back_keeps currArg) as Hp.
  unfold token_step.
  destruct (if isarg currArg then find (parser m) currArg else None) as [a|].
  { cbn [machine_of]. split; [intros nm|]; [by apply find_update|by apply find_default_update]. }
  destruct current as [cur|]; [|by split].
  destruct (commands_of m !! cur) as [c|]; [|by split].
  destruct (negb (variadic (base_of c))).
  - destruct (length (arguments (base_of c)) =? 0)%nat.
    + cbv zeta.
      destruct (find_default (parser (update cur (map_base (push_back currArg)) m)))
        as [d|]; cbn [machine_of].
      * split; [intros nm|].
        -- by rewrite !find_update.
        -- by rewrite !find_default_update.
      * split; [intros nm|]; [by apply find_update|by apply find_default_update].
    + destruct (isarg currArg); by split.
  - cbn [machine_of]. split; [intros nm|].
    + by rewrite !find_update.
    + by rewrite !find_default_update.
Qed.

(** The descriptor the cursor may point to after a step. *)
Lemma token_step_cursor m current currArg m' current' cur' :
  token_step m current currArg = Continue m' current' -> current' = Some cur' ->
  (isarg currArg = true /\ find (parser m) currArg = Some cur')
  \/ find_default (parser m) = Some cur'
  \/ current = Some cur'.
Proof.
  unfold token_step.
  destruct (isarg currArg) eqn:Hi.
  - destruct (find (parser m) currArg) as [a|] eqn:Hf.
    { intros [= <- <-] [= <-]. left. by split. }
    destruct current as [cur|]; [|discriminate].
    destruct (commands_of m !! cur) as [c|]; [|discriminate].
    destruct (negb (variadic (base_of c))).
    + destruct (length (arguments (base_of c)) =? 0)%nat; [|discriminate].
      cbv zeta. rewrite find_default_update by apply push_back_keeps.
      destruct (find_default (parser m)) as [d|]; [|discriminate].
      intros [= <- <-] [= <-]. right. by left.
    + intros [= <- <-] [= <-]. right. by right.
  - destruct current as [cur|]; [|discriminate].
    destruct (commands_of m !! cur) as [c|]; [|discriminate].
    destruct (negb (variadic (base_of c))).
    + destruct (length (arguments (base_of c)) =? 0)%nat; [|discriminate].
      cbv zeta. rewrite find_default_update by apply push_back_keeps.
      destruct (find_default (parser m)) as [d|]; [|discriminate].
      intros [= <- <-] [= <-]. right. by left.
    + intros [= <- <-] [= <-]. right. by right.
Qed.

(** A step writes only to the descriptor a flag resolves to, to the
    cursor and to the default descriptor. *)
Lemma token_step_elsewhere m current currArg i :
  find (parser m) currArg <> Some i -> find_default (parser m) <> Some i ->
  current <> Some i ->
  commands_of (machine_of (token_step m current currArg)) !! i = commands_of m !! i.
Proof.
  intros Hf Hd Hc. unfold token_step.
  destruct (isarg currArg).
  - destruct (find (parser m) currArg) as [a|] eqn:Ef.
    { cbn [machine_of]. apply lookup_update_ne. congruence. }
    destruct current as [cur|]; [|reflexivity].
    destruct (commands_of m !! cur) as [c|]; [|reflexivity].
    destruct (negb (variadic (base_of c))).
    + destruct (length (arguments (base_of c)) =? 0)%nat; [|reflexivity].
      cbv zeta. rewrite find_default_update by apply push_back_keeps.
      destruct (find_default (parser m)) as [d|]; cbn [machine_of];
        rewrite !lookup_update_ne; congruence.
    + cbn [machine_of]. rewrite !lookup_update_ne; congruence.
  - destruct current as [cur|]; [|reflexivity].
    destruct (commands_of m !! cur) as [c|]; [|reflexivity].
    destruct (negb (variadic (base_of c))).
    + destruct (length (arguments (base_of c)) =? 0)%nat; [|reflexivity].
      cbv zeta. rewrite find_default_update by apply push_back_keeps.
      destruct (find_default (parser m)) as [d|]; cbn [machine_of];
        rewrite !lookup_update_ne; congruence.
    + cbn [machine_of]. rewrite !lookup_update_ne; congruence.
Qed.

Lemma token_loop_elsewhere args m current i :
  (forall tok, tok ∈ args -> find (parser m) tok <> Some i) ->
  find_default (parser m) <> Some i -> current <> Some i ->
  commands_of (machine_of (token_loop args m current)) !! i = commands_of m !! i.
Proof.
  revert m current. induction args as [|tok args IH]; intros m current Hf Hd Hc;
    [reflexivity|].
  cbn [token_loop].
  pose proof (token_step_elsewhere m current tok i
                (Hf tok (list_elem_of_here _ _)) Hd Hc) as Hstep.
  destruct (token_step_finds m current tok) as [Hfs Hds].
  pose proof (token_step_cursor m current tok) as Hcur.
  destruct (token_step m current tok) as [m' current'|o m']; cbn [machine_of] in *;
    [|exact Hstep].
  rewrite IH, Hstep; [reflexivity| | |].
  - intros tok' Hin. rewrite Hfs. apply Hf. by apply list_elem_of_further.
  - by rewrite Hds.
  - intros ->. destruct (Hcur m' (Some i) i eq_refl eq_refl) as [[_ H]|[H|H]];
      [|done|done].
    by apply (Hf tok (list_elem_of_here _ _)).
Qed.

(** Tokenisation leaves [run] only by [return false] or through the null
    cursor. *)
Lemma token_loop_exit args m current o m' :
  token_loop args m current = Exit o m' -> o = Returned false \/ o = NullDereference.
Proof.
  revert m current. induction args as [|tok args IH]; intros m current; [discriminate|].
  cbn [token_loop].
  destruct (token_step m current tok) as [m1 c1|o1 m1] eqn:E; [apply IH|].
  intros [= <- <-]. revert E. unfold token_step.
  destruct (if isarg tok then find (parser m) tok else None); [discriminate|].
  destruct current as [cur|]; [|intros [= <- _]; by left].
  destruct (commands_of m !! cur) as [c|]; [|intros [= <- _]; by right].
  destruct (negb (variadic (base_of c))); [|discriminate].
  destruct (length (arguments (base_of c)) =? 0)%nat.
  - cbv zeta. destruct (find_default _); [discriminate|]. intros [= <- _]. by right.
  - destruct (isarg tok); intros [= <- _]; by left.
Qed.

(** With a default descriptor registered the cursor is never null. *)
Lemma token_step_valid m current currArg :
  is_Some (find_default (parser m)) ->
  (forall cur, current = Some cur -> is_Some (commands_of m !! cur)) ->
  match token_step m current currArg with
  | Continue m' current' =>
      forall cur, current' = Some cur -> is_Some (commands_of m' !! cur)
  | Exit o _ => o = Returned false
  end.
Proof.
  intros [d Hd] Hv.
  assert (forall k g m0, is_Some (commands_of m0 !! k) ->
            forall i0, is_Some (commands_of (update i0 g m0) !! k)) as Hup.
  { intros k g m0 [x Hx] i0. rewrite lookup_update. case_decide; rewrite Hx; by eexists. }
  unfold token_step.
  destruct (if isarg currArg then find (parser m) currArg else None) as [a|] eqn:Ea.
  { intros cur [= <-]. apply Hup.
    destruct (isarg currArg); [|discriminate].
    destruct (find_Some_is _ _ _ Ea) as (c & Hc & _). by exists c. }
  destruct current as [cur|]; [|reflexivity].
  destruct (Hv cur eq_refl) as [c Hc]. rewrite Hc.
  destruct (negb (variadic (base_of c))).
  - destruct (length (arguments (base_of c)) =? 0)%nat.
    + cbv zeta. rewrite find_default_update by apply push_back_keeps. rewrite Hd.
      intros k [= <-]. do 2 apply Hup.
      destruct (find_default_Some_name _ _ Hd) as (cd & Hcd & _). by exists cd.
    + destruct (isarg currArg); reflexivity.
  - intros k [= <-]. do 2 apply Hup. by exists c.
Qed.

Lemma token_loop_valid args m current :
  is_Some (find_default (parser m)) ->
  (forall cur, current = Some cur -> is_Some (commands_of m !! cur)) ->
  forall o m', token_loop args m current = Exit o m' -> o = Returned false.
Proof.
  revert m current. induction args as [|tok args IH]; intros m current Hd Hv o m';
    [discriminate|].
  cbn [token_loop].
  pose proof (token_step_valid m current tok Hd Hv) as Hstep.
  destruct (token_step_finds m current tok) as [_ Hds].
  destruct (token_step m current tok) as [m1 c1|o1 m1]; cbn [machine_of] in *.
  - apply IH; [by rewrite Hds|exact Hstep].
  - by intros [= <- _].
Qed.

End Absent.

(** ** C7: a required parameter that is absent *)




(** ** Decimal numerals *)

Section Decimal.

Import Text CLib.

Lemma append_cons (x : ascii) (a b : string) : String x a +:+ b = String x (a +:+ b).
Proof. reflexivity. Qed.

Lemma append_nil_r (a : string) : a +:+ "" = a.
Proof. induction a as [|x a IH]; [reflexivity|]. by rewrite append_cons, IH. Qed.

Lemma append_assoc (a b c : string) : (a +:+ b) +:+ c = a +:+ (b +:+ c).
Proof. induction a as [|x a IH]; [reflexivity|]. by rewrite !append_cons, IH. Qed.

Lemma code_range (c : ascii) : 0 <= code c < 256.
Proof.
  unfold code. pose proof (N_ascii_bounded c) as H. lia.
Qed.

Lemma digit_char_code (c : ascii) : digit_char (code c - 48) = c.
Proof.
  unfold digit_char, code.
  replace (48 + (Z.of_N (N_of_ascii c) - 48)) with (Z.of_N (N_of_ascii c)) by lia.
  rewrite N2Z.id. apply ascii_N_embedding.
Qed.

Lemma is_dec_digit_range (c : ascii) : is_dec_digit c = true -> 48 <= code c <= 57.
Proof.
  unfold is_dec_digit. intros H. apply andb_true_iff in H as [H1 H2].
  apply Z.leb_le in H1, H2. lia.
Qed.

Lemma dec_digit_val (c : ascii) :
  is_dec_digit c = true -> digit_val c = Some (code c - 48) /\ 0 <= code c - 48 < 10.
Proof.
  intros H. pose proof (is_dec_digit_range c H).
  unfold is_dec_digit in H. unfold digit_val. rewrite H. split; [reflexivity|lia].
Qed.

Lemma dec_digit_plain (c : ascii) :
  is_dec_digit c = true ->
  isspace c = false /\ c <> "-"%char /\ c <> "+"%char
  /\ (Ascii.eqb c "0" = true <-> code c - 48 = 0).
Proof.
  intros H. pose proof (is_dec_digit_range c H) as Hr.
  repeat split.
  - unfold isspace. apply orb_false_iff. split; [apply Z.eqb_neq; lia|].
    apply andb_false_iff. right. apply Z.leb_gt. lia.
  - intros ->. change (code "-") with 45 in Hr. lia.
  - intros ->. change (code "+") with 43 in Hr. lia.
  - intros E. apply Ascii.eqb_eq in E. subst. reflexivity.
  - intros E. apply Ascii.eqb_eq.
    rewrite <- (digit_char_code c), E. reflexivity.
Qed.

Lemma digits_loop_dec (s : string) (acc : Z) :
  all_dec_digits s = true -> digits_loop 10 s acc = dec_value s acc.
Proof.
  revert acc. induction s as [|c r IH]; intros acc H; [reflexivity|].
  cbn in H. apply andb_true_iff in H as [Hc Hr].
  destruct (dec_digit_val c Hc) as [Hv Hrange].
  cbn [digits_loop dec_value]. rewrite Hv.
  destruct (Z.ltb_spec (code c - 48) 10); [|lia]. by apply IH.
Qed.

Lemma dec_value_ge (s : string) (acc : Z) :
  all_dec_digits s = true -> 0 <= acc -> acc <= dec_value s acc.
Proof.
  revert acc. induction s as [|c r IH]; intros acc H Ha; [cbn; lia|].
  cbn in H. apply andb_true_iff in H as [Hc Hr].
  destruct (dec_digit_val c Hc) as [_ Hrange].
  cbn [dec_value]. specialize (IH (acc * 10 + (code c - 48)) Hr). lia.
Qed.

(** Enough fuel is enough. *)
Lemma digits_fuel_enough (f1 f2 : nat) (n : Z) :
  0 <= n -> n < 2 ^ Z.of_nat f1 -> n < 2 ^ Z.of_nat f2 ->
  (1 <= f1)%nat -> (1 <= f2)%nat ->
  digits_fuel f1 n = digits_fuel f2 n.
Proof.
  revert f2 n. induction f1 as [|f1 IH]; intros f2 n Hn H1 H2 Hf1 Hf2; [lia|].
  destruct f2 as [|f2]; [lia|].
  cbn [digits_fuel]. destruct (Z.ltb_spec n 10) as [|Hge]; [reflexivity|].
  assert (forall f : nat, n < 2 ^ Z.of_nat (S f) ->
                          n / 10 < 2 ^ Z.of_nat f /\ (1 <= f)%nat) as Hstep.
  { intros f Hf. rewrite Nat2Z.inj_succ, Z.pow_succ_r in Hf by lia. split.
    - apply Z.div_lt_upper_bound; lia.
    - destruct f; [cbn in Hf; lia|lia]. }
  destruct (Hstep f1 H1), (Hstep f2 H2).
  f_equal. apply IH; try done. apply Z.div_pos; lia.
Qed.

Lemma log2_fuel (n : Z) : 0 <= n -> n < 2 ^ Z.of_nat (S (Z.to_nat (Z.log2 n))).
Proof.
  intros Hn. rewrite Nat2Z.inj_succ, Z2Nat.id by apply Z.log2_nonneg.
  destruct (Z.eq_dec n 0) as [->|Hne]; [reflexivity|].
  apply Z.log2_spec. lia.
Qed.

Lemma to_string_digit (d : Z) :
  0 <= d < 10 -> to_string_nonneg d = String (digit_char d) "".
Proof.
  intros H. unfold to_string_nonneg. cbn [digits_fuel].
  destruct (Z.ltb_spec d 10); [reflexivity|lia].
Qed.

Lemma to_string_step (n d : Z) :
  0 < n -> 0 <= d < 10 ->
  to_string_nonneg (n * 10 + d) = to_string_nonneg n +:+ String (digit_char d) "".
Proof.
  intros Hn Hd. unfold to_string_nonneg at 1. cbn [digits_fuel].
  destruct (Z.ltb_spec (n * 10 + d) 10); [lia|].
  replace ((n * 10 + d) / 10) with n by (apply Z.div_unique with d; lia).
  replace ((n * 10 + d) mod 10) with d by (apply Z.mod_unique with n; lia).
  f_equal. unfold to_string_nonneg.
  pose proof (log2_fuel (n * 10 + d) ltac:(lia)) as Hbig.
  pose proof (log2_fuel n ltac:(lia)) as Hsmall.
  rewrite Nat2Z.inj_succ, Z.pow_succ_r in Hbig by lia.
  assert (1 <= Z.to_nat (Z.log2 (n * 10 + d)))%nat as Hf.
  { destruct (Z.to_nat (Z.log2 (n * 10 + d))); [cbn in Hbig; lia|lia]. }
  apply digits_fuel_enough; try lia.
Qed.

Lemma to_string_dec_value (r : string) (acc : Z) :
  all_dec_digits r = true -> 0 < acc ->
  to_string_nonneg (dec_value r acc) = to_string_nonneg acc +:+ r.
Proof.
  revert acc. induction r as [|c r IH]; intros acc H Ha.
  { by rewrite append_nil_r. }
  cbn in H. apply andb_true_iff in H as [Hc Hr].
  destruct (dec_digit_val c Hc) as [_ Hrange].
  cbn [dec_value]. rewrite IH by (done || lia).
  rewrite to_string_step by (done || lia).
  rewrite append_assoc, digit_char_code. reflexivity.
Qed.

Lemma canonical_numeral_inv (s : string) :
  canonical_numeral s = true ->
  s = "0" \/ exists c r, s = String c r /\ is_dec_digit c = true
                         /\ all_dec_digits r = true /\ 0 < code c - 48 < 10.
Proof.
  destruct s as [|c r]; [discriminate|]. cbn.
  intros H. apply andb_true_iff in H as [H1 H2].
  apply andb_true_iff in H1 as [Hc Hr].
  destruct (dec_digit_val c Hc) as [_ Hrange].
  destruct (dec_digit_plain c Hc) as (_ & _ & _ & Hz).
  destruct (Ascii.eqb c "0") eqn:E.
  - cbn in H2. apply String.eqb_eq in H2. apply Ascii.eqb_eq in E. subst. by left.
  - right. exists c, r.
    assert (code c - 48 <> 0) by (intros Hd; apply Hz in Hd; discriminate).
    repeat split; try done; lia.
Qed.

Lemma to_string_canonical (s : string) :
  canonical_numeral s = true -> to_string_nonneg (dec_value s 0) = s.
Proof.
  intros H. destruct (canonical_numeral_inv s H) as [->|(c & r & -> & Hc & Hr & Hd)];
    [reflexivity|].
  cbn [dec_value]. rewrite Z.mul_0_l, Z.add_0_l.
  rewrite to_string_dec_value by (done || lia).
  rewrite to_string_digit by lia. by rewrite digit_char_code.
Qed.

Lemma dec_value_positive (s : string) :
  canonical_numeral s = true -> s <> "0" -> 0 < dec_value s 0.
Proof.
  intros H Hne. destruct (canonical_numeral_inv s H) as [->|(c & r & -> & Hc & Hr & Hd)];
    [done|].
  cbn [dec_value]. pose proof (dec_value_ge r (0 * 10 + (code c - 48)) Hr). lia.
Qed.

(** The scanner on a canonical numeral, bare or after a minus. *)
Lemma scan_digits (neg : bool) (c : ascii) (r : string) :
  is_dec_digit c = true -> all_dec_digits r = true -> 0 < code c - 48 < 10 ->
  (let '(b, s2) := detect_base 0 (String c r) in
   if starts_with_digit b s2 then Some (neg, digits_loop b s2 0) else None)
  = Some (neg, dec_value (String c r) 0).
Proof.
  intros Hc Hr Hd.
  destruct (dec_digit_plain c Hc) as (_ & _ & _ & Hz).
  destruct (dec_digit_val c Hc) as [Hv _].
  assert (Ascii.eqb c "0" = false) as Hnz.
  { destruct (Ascii.eqb c "0"); [|reflexivity]. destruct Hz as [Hz _]. lia. }
  assert (detect_base 0 (String c r) = (10, String c r)) as ->.
  { unfold detect_base, hex_prefix, leading_zero. cbn [Z.eqb orb].
    destruct r as [|x [|h r']]; rewrite ?Hnz; reflexivity. }
  unfold starts_with_digit, is_digit_in. rewrite Hv.
  destruct (Z.ltb_spec (code c - 48) 10); [|lia].
  rewrite digits_loop_dec; [reflexivity|]. cbn. by rewrite Hc, Hr.
Qed.

Lemma take_sign_digit (c : ascii) (r : string) :
  is_dec_digit c = true -> take_sign (String c r) = (false, String c r).
Proof.
  intros Hc. destruct (dec_digit_plain c Hc) as (_ & Hm & Hp & _).
  unfold take_sign.
  destruct c as [[] [] [] [] [] [] [] []]; try reflexivity; congruence.
Qed.

Lemma scan_numeral (s : string) :
  canonical_numeral s = true -> scan s 0 = Some (false, dec_value s 0).
Proof.
  intros H. destruct (canonical_numeral_inv s H) as [->|(c & r & -> & Hc & Hr & Hd)];
    [reflexivity|].
  destruct (dec_digit_plain c Hc) as (Hsp & _).
  unfold scan. change (negb (valid_base 0)) with false. cbv iota.
  cbn [skip_space]. rewrite Hsp, (take_sign_digit c r Hc).
  by apply scan_digits.
Qed.

Lemma scan_negative (r : string) :
  canonical_numeral r = true -> scan (String "-" r) 0 = Some (true, dec_value r 0).
Proof.
  intros H. destruct (canonical_numeral_inv r H) as [->|(c & r' & -> & Hc & Hr & Hd)];
    [reflexivity|].
  unfold scan. change (negb (valid_base 0)) with false. cbv iota.
  change (take_sign (skip_space (String "-" (String c r')))) with (true, String c r').
  by apply scan_digits.
Qed.

End Decimal.

(** ** C10: parse then stringify *)

Section RoundTrip.

Import CLib.

Lemma literal_plain (c : ascii) (r : string) :
  c <> "-"%char ->
  literal_shape (String c r) = canonical_numeral (String c r)
  /\ literal_value (String c r) = dec_value (String c r) 0.
Proof.
  intros Hne. unfold literal_shape, literal_value.
  destruct c as [[] [] [] [] [] [] [] []]; try (split; reflexivity); congruence.
Qed.

Lemma canonical_literal_inv (k : ity) (s : string) :
  canonical_literal k s = true ->
  ity_min k <= literal_value s <= ity_max k
  /\ ((canonical_numeral s = true /\ literal_value s = dec_value s 0
       /\ scan s 0 = Some (false, dec_value s 0))
      \/ exists r, s = String "-" r /\ canonical_numeral r = true
                   /\ 0 < dec_value r 0 /\ literal_value s = - dec_value r 0
                   /\ scan s 0 = Some (true, dec_value r 0)).
Proof.
  unfold canonical_literal. intros H.
  apply andb_true_iff in H as [H Hmax]. apply andb_true_iff in H as [Hshape Hmin].
  apply Z.leb_le in Hmin, Hmax. split; [lia|].
  destruct s as [|c r]; [discriminate|].
  destruct (Ascii.eqb_spec c "-") as [->|Hne].
  - right. exists r. cbn in Hshape. apply andb_true_iff in Hshape as [Hnum Hnz].
    split; [reflexivity|]. split; [exact Hnum|]. split.
    + apply dec_value_positive; [exact Hnum|]. intros ->. discriminate.
    + split; [reflexivity|by apply scan_negative].
  - left. destruct (literal_plain c r Hne) as [E1 E2]. rewrite E1 in Hshape.
    split; [exact Hshape|]. split; [exact E2|by apply scan_numeral].
Qed.

Lemma to_string_literal (s : string) :
  literal_shape s = true -> to_string (literal_value s) = s.
Proof.
  intros Hshape. destruct s as [|c r]; [discriminate|].
  destruct (Ascii.eqb_spec c "-") as [->|Hne].
  - cbn in Hshape. apply andb_true_iff in Hshape as [Hnum Hnz].
    assert (0 < dec_value r 0) as Hpos.
    { apply dec_value_positive; [exact Hnum|]. intros ->. discriminate. }
    cbn [literal_value]. unfold to_string.
    destruct (Z.ltb_spec (- dec_value r 0) 0); [|lia].
    rewrite Z.opp_involutive. f_equal. by apply to_string_canonical.
  - destruct (literal_plain c r Hne) as [E1 E2]. rewrite E1 in Hshape. rewrite E2.
    unfold to_string.
    assert (0 <= dec_value (String c r) 0) as Hge.
    { apply dec_value_ge; [|lia]. cbn in Hshape. by apply andb_true_iff in Hshape as [? _]. }
    destruct (Z.ltb_spec (dec_value (String c r) 0) 0); [lia|].
    by apply to_string_canonical.
Qed.

Lemma parse_integer_literal (k : ity) (s : string) :
  canonical_literal k s = true ->
  Conv.parse_integer k [s] 0 = inr (literal_value s).
Proof.
  intros H. destruct (canonical_literal_inv k s H) as [Hrange Hcases].
  unfold Conv.parse_integer, stoi, stol, stoll, stoul, stoull, sto_signed, sto_unsigned.
  destruct Hcases as [(_ & Hv & ->)|(r & -> & _ & Hpos & Hv & ->)]; rewrite Hv in Hrange.
  - rewrite Hv.
    destruct k; cbn [ity_min ity_max] in Hrange;
      repeat match goal with
             | |- context [Z.leb ?a ?b] => destruct (Z.leb_spec a b); try lia
             end; cbn [andb]; try reflexivity.
    f_equal. apply Z.mod_small. lia.
  - rewrite Hv.
    destruct k; cbn [ity_min ity_max] in Hrange; try lia;
      repeat match goal with
             | |- context [Z.leb ?a ?b] => destruct (Z.leb_spec a b); try lia
             end; cbn [andb]; reflexivity.
Qed.

End RoundTrip.

(** C10.  For every string [s] that is the canonical literal of a value
    of an integer type, the scalar conversion of [[s]] at that type
    succeeds and [stringify] of the result is [s]; and for every string
    [s] whatsoever the string conversion of [[s]] succeeds and
    [stringify] of the result is [s]. *)
Theorem C10_round_trip :
  (forall k s defval,
      canonical_literal k s = true ->
      exists z, Conv.parse (TInteger k) [s] defval = inr z
                /\ Conv.stringify (TInteger k) z = s)
  /\ (forall s defval,
        exists z, Conv.parse TString [s] defval = inr z
                  /\ Conv.stringify TString z = s).
Proof.
  split.
  - intros k s defval H. exists (literal_value s). split.
    + cbn [Conv.parse]. by apply parse_integer_literal.
    + cbn [Conv.stringify]. apply to_string_literal.
      unfold canonical_literal in H.
      apply andb_true_iff in H as [H _]. by apply andb_true_iff in H as [H _].
  - intros s defval. exists s. split; reflexivity.
Qed.

Lemma C10_round_trip_witness :
  exists z, Conv.parse (TInteger I_int) ["-2147483648"] 0 = inr z
            /\ Conv.stringify (TInteger I_int) z = "-2147483648".
Proof.
  exact (proj1 C10_round_trip I_int "-2147483648" 0 eq_refl).
Defined.

Example round_trip_ex :
  Conv.stringify (TInteger I_ulong) 18446744073709551615 = "18446744073709551615"
  /\ Conv.parse (TInteger I_ulong) ["18446744073709551615"] 0 = inr 18446744073709551615
  /\ canonical_literal I_int "007" = false
  /\ canonical_literal I_int "+7" = false
  /\ canonical_literal I_int "-0" = false
  /\ canonical_literal I_uint "-7" = false
  /\ canonical_literal I_int "2147483648" = false.
Proof. vm_compute. repeat split. Qed.

(** * Further properties of the conversions *)

Section Conversions.

Import CLib.

Lemma parse_each_inr {A} (one : list string -> exn + A) (elements : list string)
    (vs : list A) :
  Conv.parse_each one elements = inr vs
  <-> Forall2 (fun e v => one [e] = inr v) elements vs.
Proof.
  revert vs. induction elements as [|e rest IH]; intros vs; cbn [Conv.parse_each].
  - split.
    + intros [= <-]. constructor.
    + intros H. by inversion H.
  - destruct (one [e]) as [x|v] eqn:E.
    + split; [discriminate|]. intros H. inversion H; subst. congruence.
    + destruct (Conv.parse_each one rest) as [x|vs'] eqn:E'.
      * split; [discriminate|]. intros H. inversion H as [|? v' ? vs'' H1 H2]; subst.
        apply IH in H2. discriminate.
      * split.
        -- intros [= <-]. constructor; [exact E|]. by apply IH.
        -- intros H. inversion H as [|? v' ? vs'' H1 H2]; subst.
           apply IH in H2. congruence.
Qed.

Lemma parse_each_inl {A} (one : list string -> exn + A) (elements : list string) (x : exn) :
  Conv.parse_each one elements = inl x
  <-> exists pre e post,
        elements = pre ++ e :: post /\ one [e] = inl x
        /\ Forall (fun e' => exists v, one [e'] = inr v) pre.
Proof.
  induction elements as [|e rest IH]; cbn [Conv.parse_each].
  - split; [discriminate|]. intros (pre & e & post & H & _). by destruct pre.
  - destruct (one [e]) as [y|v] eqn:E.
    + split.
      * intros [= <-]. exists [], e, rest. repeat split; [exact E|constructor].
      * intros (pre & e' & post & H & He & Hpre). destruct pre as [|e0 pre].
        -- injection H as <- <-. congruence.
        -- injection H as <- ->. inversion Hpre as [|? ? [v Hv] _]; subst. congruence.
    + destruct (Conv.parse_each one rest) as [y|vs'] eqn:E'.
      * split.
        -- intros [= <-]. destruct (proj1 IH eq_refl) as (pre & e' & post & -> & He & Hpre).
           exists (e :: pre), e', post. repeat split; [exact He|].
           constructor; [by exists v|exact Hpre].
        -- intros (pre & e' & post & H & He & Hpre). destruct pre as [|e0 pre].
           ++ injection H as <- <-. congruence.
           ++ injection H as <- ->. inversion Hpre; subst.
              f_equal. assert (inl y = inl x :> exn + list A) as [= ->]; [|done].
              apply IH. by exists pre, e', post.
      * split; [discriminate|].
        intros (pre & e' & post & H & He & Hpre). destruct pre as [|e0 pre].
        -- injection H as <- <-. congruence.
        -- injection H as <- ->. inversion Hpre; subst.
           assert (inr vs' = inl x :> exn + list A) as Hc; [|discriminate].
           apply IH. by exists pre, e', post.
Qed.

End Conversions.

(** X1.  The sequence conversion converts each raw string on its own, in
    input order, with the scalar conversion applied to a one-element
    buffer and a value-initialised default: it succeeds with [vs] exactly
    when every element converts to the value at the same position, and
    it fails with an exception exactly when that exception is the one of
    the first element whose conversion fails.  The registered default of
    the parameter plays no part. *)
Theorem X1_vector_elementwise (t : ty) (elements : list string) (defval : list (tyDenote t)) :
  (forall vs,
      Conv.parse (TVector t) elements defval = inr vs
      <-> Forall2 (fun e v => Conv.parse t [e] (value_init t) = inr v) elements vs)
  /\ (forall x,
        Conv.parse (TVector t) elements defval = inl x
        <-> exists pre e post,
              elements = pre ++ e :: post
              /\ Conv.parse t [e] (value_init t) = inl x
              /\ Forall (fun e' => exists v, Conv.parse t [e'] (value_init t) = inr v) pre).
Proof.
  split.
  - intros vs. cbn [Conv.parse]. apply parse_each_inr.
  - intros x. cbn [Conv.parse]. apply parse_each_inl.
Qed.

Lemma X1_vector_elementwise_witness :
  Forall2 (fun e v => Conv.parse (TInteger I_int) [e] (value_init (TInteger I_int)) = inr v)
    ["1"; "0x10"] [1; 16].
Proof.
  exact (proj1 (proj1 (X1_vector_elementwise (TInteger I_int) ["1"; "0x10"] []) [1; 16])
           eq_refl).
Defined.

Example vector_ex :
  Conv.parse (TVector (TInteger I_int)) ["1"; "0x10"; "-3"] [] = inr [1; 16; -3]
  /\ Conv.parse (TVector (TInteger I_int)) ["1"; "x"; "99999999999"] []
     = inl (CLib.invalid_argument "stoi")
  /\ Conv.parse (TVector (TVector TString)) ["a"; "b"] [] = inr [["a"]; ["b"]].
Proof. vm_compute. repeat split. Qed.

(** X2.  The fixed-arity conversions check the number of raw strings
    before anything else: the integer, string and base-wrapped integer
    conversions throw [std::bad_cast] unless there is exactly one, and
    the boolean conversion throws its [runtime_error] unless there is
    none. *)
Theorem X2_arity_errors (elements : list string) :
  (length elements <> 1%nat ->
     (forall k defval, Conv.parse (TInteger k) elements defval = inl CLib.bad_cast)
     /\ (forall defval, Conv.parse TString elements defval = inl CLib.bad_cast)
     /\ (forall k base wrapper,
           Conv.parse (TNumericalBase k base) elements wrapper = inl CLib.bad_cast))
  /\ (elements <> [] ->
        forall defval,
          Conv.parse TBool elements defval
          = inl (CLib.runtime_error
                   "A boolean command line parameter cannot have any arguments.")).
Proof.
  split.
  - intros H.
    assert (forall k b, Conv.parse_integer k elements b = inl CLib.bad_cast) as Hi.
    { intros k b. destruct elements as [|e [|e' rest]]; try reflexivity. by cbn in H. }
    repeat split.
    + intros k defval. apply Hi.
    + intros defval. destruct elements as [|e [|e' rest]]; try reflexivity. by cbn in H.
    + intros k base wrapper. cbn [Conv.parse]. by rewrite Hi.
  - intros H defval. destruct elements; [done|reflexivity].
Qed.

Lemma X2_arity_errors_witness :
  Conv.parse (TInteger I_int) ["1"; "2"] 0 = inl CLib.bad_cast
  /\ Conv.parse TBool ["true"] false
     = inl (CLib.runtime_error "A boolean command line parameter cannot have any arguments.").
Proof.
  split.
  - exact (proj1 (proj1 (X2_arity_errors ["1"; "2"]) ltac:(discriminate)) I_int 0).
  - exact (proj2 (X2_arity_errors ["true"]) ltac:(discriminate) false).
Defined.

(** X3.  A sequence of booleans cannot be given any element: the sequence
    conversion hands each element to the boolean conversion in a
    one-element buffer, which that conversion refuses. *)
Theorem X3_vector_of_bool_rejects (elements : list string) (defval : list bool) :
  elements <> [] ->
  Conv.parse (TVector TBool) elements defval
  = inl (CLib.runtime_error "A boolean command line parameter cannot have any arguments.").
Proof.
  intros H. destruct elements as [|e rest]; [done|]. reflexivity.
Qed.

Lemma X3_vector_of_bool_rejects_witness :
  Conv.parse (TVector TBool) ["1"] []
  = inl (CLib.runtime_error "A boolean command line parameter cannot have any arguments.").
Proof. exact (X3_vector_of_bool_rejects ["1"] [] ltac:(discriminate)). Defined.

Section Literals.

Import Text CLib.

Lemma digits_loop_tail (r t : string) (acc : Z) :
  all_dec_digits r = true -> starts_with_digit 10 t = false ->
  digits_loop 10 (r +:+ t) acc = dec_value r acc.
Proof.
  intros Hr Ht. revert acc. induction r as [|c r IH]; intros acc.
  - cbn [dec_value]. change ("" +:+ t) with t.
    destruct t as [|x t']; [reflexivity|].
    cbn [digits_loop]. unfold starts_with_digit, is_digit_in in Ht.
    destruct (digit_val x); [|reflexivity]. by rewrite Ht.
  - cbn in Hr. apply andb_true_iff in Hr as [Hc Hr].
    destruct (dec_digit_val c Hc) as [Hv Hrange].
    rewrite append_cons. cbn [digits_loop dec_value]. rewrite Hv.
    destruct (Z.ltb_spec (code c - 48) 10); [|lia]. by apply IH.
Qed.

Lemma scan_digits_tail (neg : bool) (c : ascii) (r t : string) :
  is_dec_digit c = true -> all_dec_digits r = true -> 0 < code c - 48 < 10 ->
  starts_with_digit 10 t = false ->
  (let '(b, s2) := detect_base 0 (String c (r +:+ t)) in
   if starts_with_digit b s2 then Some (neg, digits_loop b s2 0) else None)
  = Some (neg, dec_value (String c r) 0).
Proof.
  intros Hc Hr Hd Ht.
  destruct (dec_digit_plain c Hc) as (_ & _ & _ & Hz).
  destruct (dec_digit_val c Hc) as [Hv _].
  assert (Ascii.eqb c "0" = false) as Hnz.
  { destruct (Ascii.eqb c "0"); [|reflexivity]. destruct Hz as [Hz _]. lia. }
  assert (forall X, detect_base 0 (String c X) = (10, String c X)) as ->.
  { intros X. unfold detect_base, hex_prefix, leading_zero. cbn [Z.eqb orb].
    destruct X as [|x [|h r']]; rewrite ?Hnz; reflexivity. }
  unfold starts_with_digit at 1. unfold is_digit_in. rewrite Hv.
  destruct (Z.ltb_spec (code c - 48) 10); [|lia].
  change (String c (r +:+ t)) with (String c r +:+ t).
  rewrite digits_loop_tail; [reflexivity| |exact Ht]. cbn. by rewrite Hc, Hr.
Qed.

(** What the scanner returns on a canonical literal, and on one followed
    by characters that do not continue the numeral. *)
Lemma scan_literal_tail (s t : string) :
  literal_shape s = true -> s <> "0" -> starts_with_digit 10 t = false ->
  scan (s +:+ t) 0 = Some (literal_value s <? 0, Z.abs (literal_value s)).
Proof.
  intros Hshape Hnz Ht. destruct s as [|c r]; [discriminate|].
  destruct (Ascii.eqb_spec c "-") as [->|Hne].
  - cbn in Hshape. apply andb_true_iff in Hshape as [Hnum Hr0].
    assert (0 < dec_value r 0) as Hpos.
    { apply dec_value_positive; [exact Hnum|]. intros ->. discriminate. }
    cbn [literal_value].
    destruct (Z.ltb_spec (- dec_value r 0) 0); [|lia].
    rewrite Z.abs_opp, Z.abs_eq by lia.
    destruct (canonical_numeral_inv r Hnum) as [->|(c & r' & -> & Hc & Hr & Hd)];
      [discriminate|].
    unfold scan. change (negb (valid_base 0)) with false. cbv iota.
    rewrite !append_cons.
    change (take_sign (skip_space (String "-" (String c (r' +:+ t)))))
      with (true, String c (r' +:+ t)).
    by apply scan_digits_tail.
  - destruct (literal_plain c r Hne) as [E1 E2]. rewrite E1 in Hshape. rewrite E2.
    destruct (canonical_numeral_inv _ Hshape) as [E|(c' & r' & E & Hc & Hr & Hd)];
      [done|].
    injection E as <- <-.
    assert (0 < dec_value (String c r) 0) as Hpos by by apply dec_value_positive.
    destruct (Z.ltb_spec (dec_value (String c r) 0) 0); [lia|].
    rewrite Z.abs_eq by lia.
    destruct (dec_digit_plain c Hc) as (Hsp & _).
    unfold scan. change (negb (valid_base 0)) with false. cbv iota.
    rewrite append_cons. cbn [skip_space]. rewrite Hsp, (take_sign_digit c _ Hc).
    by apply scan_digits_tail.
Qed.

Lemma scan_literal (s : string) :
  literal_shape s = true ->
  scan s 0 = Some (literal_value s <? 0, Z.abs (literal_value s)).
Proof.
  intros Hshape. destruct (String.eqb_spec s "0") as [->|Hne]; [reflexivity|].
  rewrite <- (append_nil_r s) at 1. by apply scan_literal_tail.
Qed.

Lemma parse_integer_scan (k : ity) (s s' : string) :
  scan s 0 = scan s' 0 -> Conv.parse_integer k [s] 0 = Conv.parse_integer k [s'] 0.
Proof.
  intros H. unfold Conv.parse_integer, stoi, stol, stoll, stoul, stoull,
    sto_signed, sto_unsigned. by rewrite H.
Qed.

End Literals.

(** X4.  Characters after the numeral are ignored: every integer
    conversion reads a canonical literal (other than ["0"], after which an
    [x] could start a hex prefix) followed by any text that does not begin
    with a decimal digit exactly as it reads the literal alone, so
    ["12abc"] converts to 12 without error. *)
Theorem X4_trailing_characters_ignored (k : ity) (s t : string) :
  literal_shape s = true -> s <> "0" -> CLib.starts_with_digit 10 t = false ->
  Conv.parse_integer k [s +:+ t] 0 = Conv.parse_integer k [s] 0.
Proof.
  intros Hs Hnz Ht. apply parse_integer_scan.
  rewrite scan_literal_tail, scan_literal; done.
Qed.

Lemma X4_trailing_characters_ignored_witness :
  Conv.parse_integer I_int ["12" +:+ "abc"] 0 = Conv.parse_integer I_int ["12"] 0.
Proof.
  exact (X4_trailing_characters_ignored I_int "12" "abc" eq_refl ltac:(discriminate) eq_refl).
Defined.

Example trailing_ex :
  Conv.parse_integer I_int ["12abc"] 0 = inr 12
  /\ Conv.parse_integer I_int ["0x1F"] 0 = inr 31
  /\ Conv.parse_integer I_int ["-7 "] 0 = inr (-7).
Proof. vm_compute. repeat split. Qed.

(** X5.  A canonical literal outside the range of a signed integer type
    makes the conversion at that type throw [std::out_of_range] (named
    after the library function the overload calls); at the unsigned types
    this happens only when the magnitude exceeds 2^64 - 1. *)
Theorem X5_out_of_range (k : ity) (s : string) :
  literal_shape s = true ->
  (if is_signed k
   then literal_value s < ity_min k \/ ity_max k < literal_value s
   else 2 ^ 64 - 1 < Z.abs (literal_value s)) ->
  Conv.parse_integer k [s] 0 = inl (CLib.out_of_range (conversion_name k)).
Proof.
  intros Hs Hr. pose proof (scan_literal s Hs) as Hscan.
  unfold Conv.parse_integer, CLib.stoi, CLib.stol, CLib.stoll, CLib.stoul, CLib.stoull,
    CLib.sto_signed, CLib.sto_unsigned.
  rewrite Hscan.
  destruct (Z.ltb_spec (literal_value s) 0) as [Hneg|Hpos];
    [rewrite Z.abs_neq, ?Z.opp_involutive by lia | rewrite Z.abs_eq by lia];
    (destruct k; cbn [is_signed ity_min ity_max conversion_name] in *;
     repeat match goal with
            | |- context [Z.leb ?a ?b] => destruct (Z.leb_spec a b); try lia
            end; cbn [andb]; try reflexivity; try lia).
Qed.

Lemma X5_out_of_range_witness :
  Conv.parse_integer I_int ["2147483648"] 0 = inl (CLib.out_of_range "stoi").
Proof.
  exact (X5_out_of_range I_int "2147483648" eq_refl ltac:(right; reflexivity)).
Defined.

(** X6.  The unsigned conversions do not reject a literal for its sign,
    and the [unsigned int] one does not reject a value that needs more
    than 32 bits: a canonical literal of magnitude at most 2^64 - 1
    converts to its value reduced modulo 2^64, and then modulo 2^32 for
    [unsigned int]. *)
Theorem X6_unsigned_wraps (k : ity) (s : string) :
  literal_shape s = true -> is_signed k = false ->
  Z.abs (literal_value s) <= 2 ^ 64 - 1 ->
  Conv.parse_integer k [s] 0
  = inr ((literal_value s mod 2 ^ 64) mod (ity_max k + 1)).
Proof.
  intros Hs Hk Hr. pose proof (scan_literal s Hs) as Hscan.
  unfold Conv.parse_integer, CLib.stoi, CLib.stol, CLib.stoll, CLib.stoul, CLib.stoull,
    CLib.sto_signed, CLib.sto_unsigned.
  rewrite Hscan.
  destruct (Z.leb_spec (Z.abs (literal_value s)) (2 ^ 64 - 1)); [|lia].
  assert ((if literal_value s <? 0 then - Z.abs (literal_value s) mod 2 ^ 64
           else Z.abs (literal_value s)) = literal_value s mod 2 ^ 64) as ->.
  { destruct (Z.ltb_spec (literal_value s) 0).
    - rewrite Z.abs_neq, Z.opp_involutive by lia. reflexivity.
    - rewrite Z.abs_eq by lia. symmetry. apply Z.mod_small. lia. }
  assert (0 <= literal_value s mod 2 ^ 64 < 2 ^ 64) as Hm by (apply Z.mod_pos_bound; lia).
  destruct k; try discriminate; cbn [ity_max].
  - reflexivity.
  - f_equal. symmetry. apply Z.mod_small. lia.
  - f_equal. symmetry. apply Z.mod_small. lia.
Qed.

Lemma X6_unsigned_wraps_witness :
  Conv.parse_integer I_ulong ["-1"] 0 = inr 18446744073709551615
  /\ Conv.parse_integer I_uint ["4294967296"] 0 = inr 0.
Proof.
  split.
  - exact (X6_unsigned_wraps I_ulong "-1" eq_refl eq_refl ltac:(vm_compute; discriminate)).
  - exact (X6_unsigned_wraps I_uint "4294967296" eq_refl eq_refl
             ltac:(vm_compute; discriminate)).
Defined.

(** * Further properties of tokenisation and of [run] *)

Section Writes.

Implicit Types (m : Machine) (i j cur : nat) (c : Cmd) (current : option nat).

Lemma token_step_writes m current currArg :
  rtc write (commands_of m) (commands_of (machine_of (token_step m current currArg))).
Proof.
  unfold token_step.
  destruct (if isarg currArg then find (parser m) currArg else None) as [a|].
  { cbn [machine_of]. rewrite commands_update. apply rtc_once. constructor. }
  destruct current as [cur|]; [|reflexivity].
  destruct (commands_of m !! cur) as [c|] eqn:E; [|reflexivity].
  destruct (negb (variadic (base_of c))) eqn:Hv.
  - destruct (length (arguments (base_of c)) =? 0)%nat eqn:Hl.
    + assert (write (commands_of m)
                (commands_of (update cur (map_base (push_back currArg)) m))) as Hw.
      { rewrite commands_update. apply (write_push cur c); [exact E|].
        intros _. apply Nat.eqb_eq in Hl. by destruct (arguments (base_of c)). }
      cbv zeta.
      destruct (find_default (parser (update cur (map_base (push_back currArg)) m)))
        as [d|]; cbn [machine_of].
      * eapply rtc_l; [exact Hw|]. rewrite (commands_update _ d). apply rtc_once. constructor.
      * by apply rtc_once.
    + destruct (isarg currArg); reflexivity.
  - cbn [machine_of].
    change (commands_of (update cur (map_base set_handled)
                           (update cur (map_base (push_back currArg)) m)))
      with (alter (map_base set_handled) cur
              (alter (map_base (push_back currArg)) cur (commands_of m))).
    eapply rtc_l.
    + apply (write_push cur c currArg); [exact E|].
      intros H. rewrite H in Hv. discriminate.
    + apply rtc_once. constructor.
Qed.

Lemma token_loop_writes args m current :
  rtc write (commands_of m) (commands_of (machine_of (token_loop args m current))).
Proof.
  revert m current. induction args as [|tok args IH]; intros m current; [reflexivity|].
  cbn [token_loop]. pose proof (token_step_writes m current tok) as H.
  destruct (token_step m current tok) as [m' current'|o m']; cbn [machine_of] in *.
  - etrans; [exact H|apply IH].
  - exact H.
Qed.

(** The registry when [run] ends: what tokenisation wrote, then values. *)
Lemma run_writes p :
  exists l, rtc write (_commands p) l
            /\ shape <$> commands_of (snd (run p)) = shape <$> l.
Proof.
  unfold run, run_from, tokenize.
  pose proof (token_loop_writes (_arguments (parser (start p))) (start p)
                (find_default (parser (start p)))) as H.
  destruct (token_loop _ _ _) as [m0 cur|o m0]; cbn [machine_of snd] in *.
  - exists (commands_of m0). split; [exact H|]. apply resolve_frame.
  - exists (commands_of m0). by split.
Qed.

Lemma write_static l l' : write l l' -> static_part <$> l' = static_part <$> l.
Proof.
  intros [i l0|i c a l0 _ _]; apply fmap_alter_same; intros x _; by destruct x.
Qed.

Lemma writes_static l l' : rtc write l l' -> static_part <$> l' = static_part <$> l.
Proof.
  induction 1 as [|x y z H _ IH]; [reflexivity|]. by rewrite IH, (write_static _ _ H).
Qed.

Lemma shape_static (l l' : list Cmd) :
  shape <$> l' = shape <$> l -> static_part <$> l' = static_part <$> l.
Proof.
  intros H.
  assert (forall x : list Cmd,
            static_part <$> x
            = (fun s : CmdBase * bool =>
                 (name s.1, command s.1, alternative s.1, description s.1,
                  required s.1, dominant s.1, variadic s.1, s.2)) <$> (shape <$> x)) as E.
  { intros x. rewrite <- list_fmap_compose. reflexivity. }
  by rewrite !E, H.
Qed.

Lemma grows_refl_list l : Forall2 grows l l.
Proof.
  apply Forall2_same_length_lookup_2; [done|]. intros i x y Hx Hy.
  rewrite Hx in Hy. injection Hy as <-. by split.
Qed.

Lemma grows_set_handled c c' : grows c c' -> grows c (map_base set_handled c').
Proof. intros [H1 H2]. destruct c'; split; cbn in *; done. Qed.

Lemma grows_push_back a c c' : grows c c' -> grows c (map_base (push_back a) c').
Proof.
  intros [H1 H2]. destruct c'; split; cbn in *; try done; by apply prefix_app_r.
Qed.

Lemma write_grows l l' : write l l' -> Forall2 grows l l'.
Proof.
  intros [i l0|i c a l0 _ _]; (apply Forall2_alter_r; [apply grows_refl_list|]);
    intros x y _ _ H; [by apply grows_set_handled|by apply grows_push_back].
Qed.

Lemma grows_trans c1 c2 c3 : grows c1 c2 -> grows c2 c3 -> grows c1 c3.
Proof. intros [H1 H2] [H3 H4]. split; [by etrans|auto]. Qed.

Lemma writes_grows l l' : rtc write l l' -> Forall2 grows l l'.
Proof.
  induction 1 as [x|x y z H _ IH].
  - apply Forall2_same_length_lookup_2; [done|]. intros i a b Ha Hb.
    rewrite Ha in Hb. injection Hb as <-. by split.
  - pose proof (write_grows _ _ H) as H1.
    apply Forall2_same_length_lookup_2.
    { apply Forall2_length in H1, IH. congruence. }
    intros i a b Ha Hb.
    destruct (Forall2_lookup_l _ _ _ _ _ H1 Ha) as (c & Hc & Hg1).
    destruct (Forall2_lookup_l _ _ _ _ _ IH Hc) as (b' & Hb' & Hg2).
    rewrite Hb in Hb'. injection Hb' as <-. by eapply grows_trans.
Qed.

Lemma write_bounded l l' : write l l' -> Forall bucket_bounded l -> Forall bucket_bounded l'.
Proof.
  intros [i l0|i c a l0 Hc Hempty] Hall.
  - apply Forall_alter; [done|]. intros x _ Hx. by destruct x.
  - apply Forall_alter; [done|]. intros x Hx _. rewrite Hc in Hx. injection Hx as <-.
    intros Hv. destruct c; cbn in *; rewrite length_app, (Hempty Hv); cbn; lia.
Qed.

Lemma writes_bounded l l' :
  rtc write l l' -> Forall bucket_bounded l -> Forall bucket_bounded l'.
Proof. induction 1 as [|x y z H _ IH]; [done|]. intros Hx. eauto using write_bounded. Qed.

End Writes.

Section Fields.

Implicit Types (m : Machine) (i : nat).

Lemma update_fields i f m : parser_fields (parser (update i f m)) = parser_fields (parser m).
Proof. reflexivity. Qed.

Lemma token_step_fields m current currArg :
  parser_fields (parser (machine_of (token_step m current currArg)))
  = parser_fields (parser m).
Proof.
  unfold token_step.
  destruct (if isarg currArg then find (parser m) currArg else None); [reflexivity|].
  destruct current as [cur|]; [|reflexivity].
  destruct (commands_of m !! cur) as [c|]; [|reflexivity].
  destruct (negb (variadic (base_of c))); [|reflexivity].
  destruct (length (arguments (base_of c)) =? 0)%nat.
  - cbv zeta. destruct (find_default _); reflexivity.
  - destruct (isarg currArg); reflexivity.
Qed.

Lemma token_loop_fields args m current :
  parser_fields (parser (machine_of (token_loop args m current))) = parser_fields (parser m).
Proof.
  revert m current. induction args as [|tok args IH]; intros m current; [reflexivity|].
  cbn [token_loop]. pose proof (token_step_fields m current tok) as H.
  destruct (token_step m current tok) as [m' current'|o m']; cbn [machine_of] in *.
  - by rewrite IH.
  - exact H.
Qed.

Lemma Cmd_parse_fields i m :
  parser_fields (parser (snd (Cmd_parse i m))) = parser_fields (parser m).
Proof.
  unfold Cmd_parse. change (commands_of (emit (CallParse i) m)) with (commands_of m).
  destruct (commands_of m !! i) as [[b T v vf|b T cb v]|]; [| |reflexivity].
  - destruct (negb (required b) && (length (arguments b) =? 0)%nat); [reflexivity|].
    destruct (Conv.parse T (arguments b) v); reflexivity.
  - destruct (result _); reflexivity.
Qed.

Lemma Cmd_validate_fields i m :
  parser_fields (parser (snd (Cmd_validate i m))) = parser_fields (parser m).
Proof.
  unfold Cmd_validate. change (commands_of (emit (CallValidate i) m)) with (commands_of m).
  destruct (commands_of m !! i) as [[b T v [vf|]|b T cb v]|]; try reflexivity.
  destruct (vf v) as [[ok out] err]. reflexivity.
Qed.

Lemma parse_pass_fields dom indices m :
  parser_fields (parser (snd (parse_pass dom indices m))) = parser_fields (parser m).
Proof.
  revert m. induction indices as [|i rest IH]; intros m; [reflexivity|].
  cbn [parse_pass].
  destruct (commands_of m !! i) as [c|]; [|apply IH].
  destruct (handled (base_of c) && Bool.eqb (dominant (base_of c)) dom); [|apply IH].
  pose proof (Cmd_parse_fields i m) as H1.
  destruct (Cmd_parse i m) as [parsed m1]. cbn [snd] in H1.
  assert (parser_fields
            (parser (snd (if parsed then Cmd_validate i m1 else (false, m1))))
          = parser_fields (parser m)) as H2.
  { destruct parsed; [by rewrite Cmd_validate_fields|exact H1]. }
  destruct (if parsed then Cmd_validate i m1 else (false, m1)) as [ok m2]. cbn [snd] in H2.
  destruct ok; [by rewrite IH|].
  cbn [snd]. unfold invalid_arguments_report.
  destruct (commands_of m2 !! i); exact H2.
Qed.

Lemma resolve_fields m :
  parser_fields (parser (snd (resolve m))) = parser_fields (parser m).
Proof.
  unfold resolve.
  pose proof (parse_pass_fields true (indices m) m) as H1.
  destruct (parse_pass true (indices m) m) as [ok1 m1]. cbn [snd] in H1.
  destruct ok1; cbn [negb snd]; [|exact H1].
  assert (parser_fields (parser (snd (required_pass m1))) = parser_fields (parser m)) as H2.
  { unfold required_pass. destruct (list_find _ _) as [[j c]|]; exact H1. }
  destruct (required_pass m1) as [ok2 m2]. cbn [snd] in H2.
  destruct ok2; cbn [negb snd]; [|exact H2].
  pose proof (parse_pass_fields false (indices m2) m2) as H3.
  destruct (parse_pass false (indices m2) m2) as [ok3 m3]. cbn [snd] in *. congruence.
Qed.

Lemma run_fields p : parser_fields (parser (snd (run p))) = parser_fields p.
Proof.
  unfold run, run_from, tokenize.
  pose proof (token_loop_fields (_arguments (parser (start p))) (start p)
                (find_default (parser (start p)))) as H.
  destruct (token_loop _ _ _) as [m0 cur|o m0]; cbn [machine_of snd] in *.
  - by rewrite resolve_fields.
  - exact H.
Qed.

End Fields.

Section Lookups.

Lemma token_loop_finds_all args m current :
  (forall nm, find (parser (machine_of (token_loop args m current))) nm = find (parser m) nm)
  /\ find_default (parser (machine_of (token_loop args m current)))
     = find_default (parser m).
Proof.
  revert m current. induction args as [|tok args IH]; intros m current; [by split|].
  cbn [token_loop]. destruct (token_step_finds m current tok) as [H1 H2].
  destruct (token_step m current tok) as [m' current'|o m']; cbn [machine_of] in *.
  - destruct (IH m' current') as [H3 H4]. split; [intros nm|]; congruence.
  - by split.
Qed.

End Lookups.

Section Counting.

Implicit Types (m : Machine) (i : nat) (l : list Cmd).

Lemma bucket_total_set_handled i l :
  bucket_total (alter (map_base set_handled) i l) = bucket_total l.
Proof.
  unfold bucket_total. f_equal. apply fmap_alter_same. intros x _. by destruct x.
Qed.

Lemma bucket_total_push i l c a :
  l !! i = Some c ->
  bucket_total (alter (map_base (push_back a)) i l) = S (bucket_total l).
Proof.
  unfold bucket_total. revert i. induction l as [|x l IH]; intros i H; [done|].
  destruct i as [|i]; cbn in *.
  - injection H as ->. destruct c; cbn; rewrite length_app; cbn; lia.
  - change (list_alter (map_base (push_back a)) i l)
      with (alter (map_base (push_back a)) i l).
    rewrite (IH i H). lia.
Qed.

Lemma is_value_token_step m current currArg tok :
  is_value_token (parser (machine_of (token_step m current currArg))) tok
  = is_value_token (parser m) tok.
Proof.
  unfold is_value_token. destruct (token_step_finds m current currArg) as [H _].
  by rewrite H.
Qed.

Lemma token_step_count m current currArg m' current' :
  token_step m current currArg = Continue m' current' ->
  bucket_total (commands_of m')
  = (bucket_total (commands_of m)
     + (if is_value_token (parser m) currArg then 1 else 0))%nat.
Proof.
  unfold token_step, is_value_token.
  destruct (if isarg currArg then find (parser m) currArg else None) as [a|].
  { intros [= <- _]. rewrite commands_update, bucket_total_set_handled. lia. }
  destruct current as [cur|]; [|discriminate].
  destruct (commands_of m !! cur) as [c|] eqn:E; [|discriminate].
  destruct (negb (variadic (base_of c))).
  - destruct (length (arguments (base_of c)) =? 0)%nat.
    + cbv zeta.
      destruct (find_default (parser (update cur (map_base (push_back currArg)) m)))
        as [d|]; [|discriminate].
      intros [= <- _]. rewrite !commands_update, bucket_total_set_handled.
      rewrite (bucket_total_push _ _ c) by exact E. lia.
    + destruct (isarg currArg); discriminate.
  - intros [= <- _]. rewrite !commands_update, bucket_total_set_handled.
    rewrite (bucket_total_push _ _ c) by exact E. lia.
Qed.

Lemma token_loop_count args m current m' current' :
  token_loop args m current = Continue m' current' ->
  bucket_total (commands_of m')
  = (bucket_total (commands_of m)
     + length (filter (fun tok => is_value_token (parser m) tok = true) args))%nat.
Proof.
  revert m current. induction args as [|tok args IH]; intros m current.
  { intros [= <- _]. cbn. lia. }
  cbn [token_loop].
  pose proof (token_step_count m current tok) as Hstep.
  pose proof (fun t => is_value_token_step m current tok t) as Hsame.
  destruct (token_step m current tok) as [m1 c1|o m1]; [|discriminate].
  cbn [machine_of] in Hsame.
  intros H. rewrite (IH _ _ H), (Hstep m1 c1 eq_refl), filter_cons.
  assert (filter (fun t => is_value_token (parser m1) t = true) args
          = filter (fun t => is_value_token (parser m) t = true) args) as ->.
  { apply list_filter_iff. intros t. by rewrite Hsame. }
  destruct (is_value_token (parser m) tok); case_decide; try done; cbn; lia.
Qed.

Lemma requirements_static l l' :
  static_part <$> l' = static_part <$> l ->
  length (filter (fun c => required (base_of c) = true) l')
  = length (filter (fun c => required (base_of c) = true) l).
Proof.
  revert l'. induction l as [|x l IH]; intros [|y l'] H; try done.
  change (static_part y :: (static_part <$> l') = static_part x :: (static_part <$> l)) in H.
  assert (static_part y = static_part x) as Hxy by congruence.
  assert (static_part <$> l' = static_part <$> l) as Hl by congruence.
  rewrite !filter_cons. specialize (IH l' Hl).
  assert (required (base_of y) = required (base_of x)) as ->.
  { unfold static_part in Hxy. congruence. }
  case_decide; cbn; by rewrite IH.
Qed.

Lemma bucket_total_shape l l' : shape <$> l' = shape <$> l -> bucket_total l' = bucket_total l.
Proof.
  intros H. unfold bucket_total. f_equal.
  assert (forall x : list Cmd,
            (fun c => length (arguments (base_of c))) <$> x
            = (fun s : CmdBase * bool => length (arguments s.1)) <$> (shape <$> x)) as E.
  { intros x. rewrite <- list_fmap_compose. reflexivity. }
  by rewrite !E, H.
Qed.

Lemma all_tokens_set_handled i l :
  all_tokens (alter (map_base set_handled) i l) = all_tokens l.
Proof.
  unfold all_tokens. f_equal. apply fmap_alter_same. intros x _. by destruct x.
Qed.

Lemma all_tokens_push i l c a :
  l !! i = Some c ->
  all_tokens (alter (map_base (push_back a)) i l) ≡ₚ all_tokens l ++ [a].
Proof.
  unfold all_tokens. revert i. induction l as [|x l IH]; intros i H; [done|].
  destruct i as [|i]; cbn in *.
  - injection H as ->.
    assert (arguments (base_of (map_base (push_back a) c)) = arguments (base_of c) ++ [a])
      as -> by by destruct c.
    rewrite <- !app_assoc. apply Permutation_app_head, Permutation_app_comm.
  - change (list_alter (map_base (push_back a)) i l)
      with (alter (map_base (push_back a)) i l).
    rewrite (IH i H). by rewrite app_assoc.
Qed.

Lemma token_step_tokens m current currArg m' current' :
  token_step m current currArg = Continue m' current' ->
  all_tokens (commands_of m')
  ≡ₚ all_tokens (commands_of m)
     ++ (if is_value_token (parser m) currArg then [currArg] else []).
Proof.
  unfold token_step, is_value_token.
  destruct (if isarg currArg then find (parser m) currArg else None) as [a|].
  { intros [= <- _]. by rewrite commands_update, all_tokens_set_handled, app_nil_r. }
  destruct current as [cur|]; [|discriminate].
  destruct (commands_of m !! cur) as [c|] eqn:E; [|discriminate].
  destruct (negb (variadic (base_of c))).
  - destruct (length (arguments (base_of c)) =? 0)%nat.
    + cbv zeta.
      destruct (find_default (parser (update cur (map_base (push_back currArg)) m)))
        as [d|]; [|discriminate].
      intros [= <- _]. rewrite !commands_update, all_tokens_set_handled.
      by apply (all_tokens_push _ _ c).
    + destruct (isarg currArg); discriminate.
  - intros [= <- _]. rewrite !commands_update, all_tokens_set_handled.
    by apply (all_tokens_push _ _ c).
Qed.

Lemma token_loop_tokens args m current m' current' :
  token_loop args m current = Continue m' current' ->
  all_tokens (commands_of m')
  ≡ₚ all_tokens (commands_of m)
     ++ filter (fun tok => is_value_token (parser m) tok = true) args.
Proof.
  revert m current. induction args as [|tok args IH]; intros m current.
  { intros [= <- _]. by rewrite app_nil_r. }
  cbn [token_loop].
  pose proof (token_step_tokens m current tok) as Hstep.
  pose proof (fun t => is_value_token_step m current tok t) as Hsame.
  destruct (token_step m current tok) as [m1 c1|o m1]; [|discriminate].
  cbn [machine_of] in Hsame.
  intros H. rewrite (IH _ _ H), (Hstep m1 c1 eq_refl), filter_cons.
  assert (filter (fun t => is_value_token (parser m1) t = true) args
          = filter (fun t => is_value_token (parser m) t = true) args) as ->.
  { apply list_filter_iff. intros t. by rewrite Hsame. }
  rewrite <- app_assoc.
  destruct (is_value_token (parser m) tok); case_decide; done.
Qed.

Lemma all_tokens_shape l l' : shape <$> l' = shape <$> l -> all_tokens l' = all_tokens l.
Proof.
  intros H. unfold all_tokens. f_equal.
  assert (forall x : list Cmd,
            (fun c => arguments (base_of c)) <$> x
            = (fun s : CmdBase * bool => arguments s.1) <$> (shape <$> x)) as E.
  { intros x. rewrite <- list_fmap_compose. reflexivity. }
  by rewrite !E, H.
Qed.

Lemma resolve_returns m : exists b, fst (resolve m) = Returned b.
Proof.
  unfold resolve.
  destruct (parse_pass true (indices m) m) as [[] m1]; cbn [negb]; [|by eexists].
  destruct (required_pass m1) as [[] m2]; cbn [negb]; [|by eexists].
  destruct (parse_pass false (indices m2) m2) as [ok3 m3]. by eexists.
Qed.

End Counting.

(** X7.  When a default descriptor is registered, [run] returns: the
    cursor it writes through is never null. *)
Theorem X7_returns_with_default (p : Parser) :
  is_Some (find_default p) -> exists b, fst (run p) = Returned b.
Proof.
  intros Hd. unfold run, run_from.
  destruct (tokenize (start p)) as [m0 cur|o m'] eqn:Htok; [apply resolve_returns|].
  exists false. cbn [fst].
  refine (token_loop_valid (_arguments p) (start p) (find_default p) Hd _ o m' Htok).
  intros d Hdd. destruct (find_default_Some_name _ _ Hdd) as (cd & Hcd & _). by exists cd.
Qed.

Lemma X7_returns_with_default_witness :
  exists b, fst (run (Samples.with_default ["-n"; "5"; "a"; "-z"])) = Returned b.
Proof.
  exact (X7_returns_with_default (Samples.with_default ["-n"; "5"; "a"; "-z"])
           (ex_intro _ 1%nat eq_refl)).
Defined.

(** X8.  When no default descriptor is registered, a value accepted by a
    non-variadic descriptor ends [run] in a write through the null
    cursor: the token is stored in the bucket, the cursor is reset to the
    absent default, and the handled mark is written through it. *)
Theorem X8_null_cursor_without_default (p : Parser) (pre : list string) (currArg : string)
    (post : list string) (m : Machine) (cur : nat) (c : Cmd) :
  find_default p = None ->
  _arguments p = pre ++ currArg :: post ->
  token_loop pre (start p) None = Continue m (Some cur) ->
  commands_of m !! cur = Some c ->
  variadic (base_of c) = false -> arguments (base_of c) = [] ->
  no_descriptor p currArg ->
  run p = (NullDereference, update cur (map_base (push_back currArg)) m).
Proof.
  intros Hd Hargs Hpre Hc Hv Ha Hn.
  pose proof (token_loop_finds_all pre (start p) None) as Hfinds.
  unfold run, run_from, tokenize. cbn [start parser]. fold (start p).
  rewrite Hd, Hargs, token_loop_app, Hpre. cbn [token_loop].
  rewrite Hpre in Hfinds. cbn [machine_of] in Hfinds. destruct Hfinds as [Hf Hfd].
  change (parser (start p)) with p in Hf, Hfd.
  unfold token_step. unfold no_descriptor in Hn. rewrite Hf, Hn, Hc, Hv, Ha.
  cbn [negb length Nat.eqb]. cbv zeta.
  rewrite find_default_update by apply push_back_keeps.
  rewrite Hfd, Hd. reflexivity.
Qed.

Lemma X8_null_cursor_without_default_witness :
  fst (run (set_optional (TInteger I_int) "n" "num" 7 "" None false
              (Samples.fresh ["-n"; "5"; "rest"])))
  = NullDereference.
Proof.
  exact (f_equal fst
           (X8_null_cursor_without_default
              (set_optional (TInteger I_int) "n" "num" 7 "" None false
                 (Samples.fresh ["-n"; "5"; "rest"]))
              ["-n"] "5" ["rest"] _ 1 _ eq_refl eq_refl eq_refl eq_refl eq_refl eq_refl
              eq_refl)).
Defined.

(** X9.  When no default descriptor is registered and the first raw
    argument does not resolve to a descriptor, [run] returns [false]
    having written exactly the invalid-parameter message for that
    argument to the error stream and nothing to the output stream; no
    descriptor is touched. *)
Theorem X9_first_token_without_default (p : Parser) (currArg : string) (rest : list string) :
  find_default p = None ->
  _arguments p = currArg :: rest ->
  no_descriptor p currArg ->
  run p = (Returned false,
           {| parser := p; output := "";
              error := "ERROR: Invalid parameter '" +:+ currArg +:+ "'" +:+ Text.endl
                       +:+ print_help p;
              trace := [ReportInvalidParameter currArg] |}).
Proof.
  intros Hd Hargs Hn. unfold run, run_from, tokenize. cbn [start parser].
  rewrite Hd, Hargs. cbn [token_loop]. unfold token_step. cbn [parser].
  unfold no_descriptor in Hn. change (parser (start p)) with p. rewrite Hn. reflexivity.
Qed.

Lemma X9_first_token_without_default_witness :
  fst (run (Samples.with_flag ["stray"; "-f"])) = Returned false.
Proof.
  exact (f_equal fst
           (X9_first_token_without_default (Samples.with_flag ["stray"; "-f"])
              "stray" ["-f"] eq_refl eq_refl eq_refl)).
Defined.

(** X10.  A token that is not flag-shaped and arrives while the cursor is
    a non-variadic descriptor whose bucket already holds a value makes
    [run] return [false]: the token is not stored, the error stream
    receives the only-one-parameter message naming the descriptor (or
    'Default') and the token, and the output stream receives the help
    hint. *)
Theorem X10_second_value_refused (p : Parser) (pre : list string) (currArg : string)
    (post : list string) (m : Machine) (cur : nat) (c : Cmd) :
  _arguments p = pre ++ currArg :: post ->
  token_loop pre (start p) (find_default p) = Continue m (Some cur) ->
  commands_of m !! cur = Some c ->
  variadic (base_of c) = false -> arguments (base_of c) <> [] ->
  isarg currArg = false ->
  exists m',
    run p = (Returned false, m')
    /\ commands_of m' = commands_of m
    /\ trace m' = trace m ++ [ReportOnlyOneParameter cur currArg]
    /\ output m' = output m +:+ print_help (parser m)
    /\ error m'
       = error m
         +:+ ((if is_default c
               then "'Default' command can have only one parameter." +:+ Text.endl
               else "Command '" +:+ name (base_of c) +:+ "[" +:+ alternative (base_of c)
                    +:+ "]'" +:+ " can have only one parameter." +:+ Text.endl)
              +:+ "Given parameter '" +:+ currArg +:+ "' is invalid in this context!"
              +:+ Text.endl).
Proof.
  intros Hargs Hpre Hc Hv Ha Hi.
  assert (token_step m (Some cur) currArg
          = Exit (Returned false)
              (to_out (print_help (parser m))
                 (to_err ((if is_default c
                           then "'Default' command can have only one parameter."
                                +:+ Text.endl
                           else "Command '" +:+ name (base_of c) +:+ "["
                                +:+ alternative (base_of c) +:+ "]'"
                                +:+ " can have only one parameter." +:+ Text.endl)
                          +:+ "Given parameter '" +:+ currArg
                          +:+ "' is invalid in this context!" +:+ Text.endl)
                    (emit (ReportOnlyOneParameter cur currArg) m)))) as Hstep.
  { unfold token_step. rewrite Hi, Hc, Hv. cbn [negb].
    destruct (arguments (base_of c)); [done|]. reflexivity. }
  eexists. split.
  - unfold run, run_from, tokenize. cbn [start parser]. fold (start p).
    rewrite Hargs, token_loop_app, Hpre. cbn [token_loop]. rewrite Hstep. reflexivity.
  - repeat split.
Qed.

Lemma X10_second_value_refused_witness :
  exists m',
    run (Samples.with_default ["-n"; "1"; "-n"; "2"]) = (Returned false, m')
    /\ trace m' = [ReportOnlyOneParameter 2 "2"].
Proof.
  destruct (X10_second_value_refused (Samples.with_default ["-n"; "1"; "-n"; "2"])
              ["-n"; "1"; "-n"] "2" [] _ 2 _ eq_refl eq_refl eq_refl eq_refl
              ltac:(discriminate) eq_refl) as (m' & H1 & _ & H2 & _).
  exists m'. split; [exact H1|exact H2].
Defined.

Section Greedy.

Lemma token_loop_variadic args m d c :
  commands_of m !! d = Some c -> variadic (base_of c) = true ->
  (forall tok, tok ∈ args -> no_descriptor (parser m) tok) ->
  exists m' c',
    token_loop args m (Some d) = Continue m' (Some d)
    /\ commands_of m' !! d = Some c'
    /\ arguments (base_of c') = arguments (base_of c) ++ args
    /\ (args <> [] -> handled (base_of c') = true)
    /\ (forall j, j <> d -> commands_of m' !! j = commands_of m !! j)
    /\ output m' = output m /\ error m' = error m /\ trace m' = trace m.
Proof.
  revert m c. induction args as [|tok args IH]; intros m c Hc Hv Hn.
  { exists m, c. rewrite app_nil_r. repeat split; done. }
  cbn [token_loop].
  rewrite (token_step_variadic m d tok c (Hn tok (list_elem_of_here _ _)) Hc Hv).
  set (m1 := update d (map_base set_handled) (update d (map_base (push_back tok)) m)).
  assert (commands_of m1 !! d
          = Some (map_base set_handled (map_base (push_back tok) c))) as Hc1.
  { unfold m1. by do 2 apply lookup_update_eq. }
  assert (variadic (base_of (map_base set_handled (map_base (push_back tok) c))) = true)
    as Hv1 by by destruct c.
  assert (forall t, t ∈ args -> no_descriptor (parser m1) t) as Hn1.
  { intros t Ht. unfold m1. do 2 (apply no_descriptor_update;
      [first [apply set_handled_keeps|apply push_back_keeps]|]).
    apply Hn. by apply list_elem_of_further. }
  destruct (IH m1 _ Hc1 Hv1 Hn1)
    as (m' & c' & Hloop & Hc' & Ha & _ & Hother & Ho & He & Ht).
  exists m', c'. split; [exact Hloop|]. split; [exact Hc'|]. split.
  { rewrite Ha. destruct c; cbn; by rewrite <- app_assoc. }
  split.
  { intros _. destruct (Forall2_lookup_l _ _ _ d _
                          (writes_grows _ _ (token_loop_writes args m1 (Some d))) Hc1)
      as (c'' & Hc'' & _ & Hh).
    rewrite Hloop in Hc''. cbn [machine_of] in Hc''. rewrite Hc' in Hc''.
    injection Hc'' as <-. apply Hh. by destruct c. }
  split.
  { intros j Hj. rewrite (Hother j Hj). unfold m1. by rewrite !lookup_update_ne. }
  by rewrite Ho, He, Ht.
Qed.

End Greedy.

(** X11.  With a variadic default descriptor and an argument vector none
    of whose tokens resolves to a registered flag, tokenisation completes
    with every token appended to the default descriptor's bucket in input
    order; the default is marked handled as soon as there is one token,
    and no other descriptor is touched. *)
Theorem X11_variadic_default_takes_all (p : Parser) (d : nat) (cd : Cmd) :
  find_default p = Some d -> _commands p !! d = Some cd ->
  variadic (base_of cd) = true ->
  (forall tok, tok ∈ _arguments p -> no_descriptor p tok) ->
  exists m cd',
    tokenize (start p) = Continue m (Some d)
    /\ commands_of m !! d = Some cd'
    /\ arguments (base_of cd') = arguments (base_of cd) ++ _arguments p
    /\ (_arguments p <> [] -> handled (base_of cd') = true)
    /\ (forall j, j <> d -> commands_of m !! j = _commands p !! j).
Proof.
  intros Hd Hcd Hv Hn. unfold tokenize. cbn [start parser]. fold (start p). rewrite Hd.
  destruct (token_loop_variadic (_arguments p) (start p) d cd Hcd Hv Hn)
    as (m & cd' & H1 & H2 & H3 & H4 & H5 & _).
  exists m, cd'. repeat split; done.
Qed.

Lemma X11_variadic_default_takes_all_witness :
  exists m cd',
    tokenize (start (set_default (TVector TString) false "" [] None
                       (Samples.fresh ["a"; "-b"; "c"])))
    = Continue m (Some 1%nat)
    /\ commands_of m !! 1%nat = Some cd'
    /\ arguments (base_of cd') = [] ++ ["a"; "-b"; "c"]
    /\ (["a"; "-b"; "c"] <> [] -> handled (base_of cd') = true)
    /\ (forall j, j <> 1%nat ->
          commands_of m !! j
          = _commands (set_default (TVector TString) false "" [] None
                         (Samples.fresh ["a"; "-b"; "c"])) !! j).
Proof.
  refine (X11_variadic_default_takes_all
            (set_default (TVector TString) false "" [] None (Samples.fresh ["a"; "-b"; "c"]))
            1 _ eq_refl eq_refl eq_refl _).
  intros tok H.
  repeat (apply elem_of_cons in H as [->|H]; [reflexivity|]).
  by apply elem_of_nil in H.
Defined.

(** X12.  [run] writes nothing but [handled], the buckets and the typed
    values: the descriptors are the same in number and order, each with
    the name, flags, description, requiredness, dominance, arity class
    and kind it was registered with, and the application name, help text
    and raw argument vector of the parser are untouched; so [commands()]
    and [requirements()] return the same before and after. *)
Theorem X12_run_keeps_registration (p : Parser) :
  static_part <$> commands_of (snd (run p)) = static_part <$> _commands p
  /\ parser_fields (parser (snd (run p))) = parser_fields p
  /\ commands (parser (snd (run p))) = commands p
  /\ requirements (parser (snd (run p))) = requirements p.
Proof.
  destruct (run_writes p) as (l & Hw & Hs).
  assert (static_part <$> commands_of (snd (run p)) = static_part <$> _commands p) as H.
  { rewrite (shape_static _ _ Hs). by apply writes_static. }
  split; [exact H|]. split; [apply run_fields|]. split.
  - unfold commands.
    assert (length (static_part <$> commands_of (snd (run p)))
            = length (static_part <$> _commands p)) as E by by rewrite H.
    by rewrite !length_fmap in E.
  - unfold requirements. by apply requirements_static.
Qed.

(** X13.  [run] never empties a bucket nor clears a handled mark: after
    [run] every descriptor's bucket has its bucket from before as a
    prefix, and a descriptor that was handled still is.  Nothing is reset
    between two calls of [run] on the same parser. *)
Theorem X13_buckets_only_grow (p : Parser) (i : nat) (c : Cmd) :
  _commands p !! i = Some c ->
  exists c', commands_of (snd (run p)) !! i = Some c' /\ grows c c'.
Proof.
  intros Hc. destruct (run_writes p) as (l & Hw & Hs).
  destruct (Forall2_lookup_l _ _ _ _ _ (writes_grows _ _ Hw) Hc) as (cl & Hcl & Hg).
  destruct (shape_lookup _ _ i cl Hs Hcl) as (c' & Hc' & Hsh).
  exists c'. split; [exact Hc'|]. unfold grows in *. unfold shape in Hsh.
  injection Hsh as -> _. exact Hg.
Qed.

Lemma X13_buckets_only_grow_witness :
  exists c',
    commands_of (snd (run (Samples.with_default ["-n"; "5"]))) !! 2%nat = Some c'
    /\ grows (CmdArgument (CmdBase_new "n" "num" "" false false false)
                (TInteger I_int) 7 None) c'.
Proof.
  exact (X13_buckets_only_grow (Samples.with_default ["-n"; "5"]) 2 _ eq_refl).
Defined.

(** X14.  When tokenisation completes no token is lost or duplicated: the
    tokens held in the buckets after [run], taken together with their
    multiplicities, are those the buckets held before together with the
    raw arguments that do not resolve to a registered flag, each once;
    in particular their number is the sum of the two numbers. *)
Theorem X14_tokens_conserved (p : Parser) (m : Machine) (cur : option nat) :
  tokenize (start p) = Continue m cur ->
  all_tokens (commands_of (snd (run p)))
  ≡ₚ all_tokens (_commands p)
     ++ filter (fun tok => is_value_token p tok = true) (_arguments p)
  /\ bucket_total (commands_of (snd (run p)))
     = (bucket_total (_commands p)
        + length (filter (fun tok => is_value_token p tok = true) (_arguments p)))%nat.
Proof.
  intros Htok. unfold run, run_from. rewrite Htok. split.
  - rewrite (all_tokens_shape _ _ (proj1 (resolve_frame m))).
    unfold tokenize in Htok. apply token_loop_tokens in Htok. exact Htok.
  - rewrite (bucket_total_shape _ _ (proj1 (resolve_frame m))).
    unfold tokenize in Htok. apply token_loop_count in Htok. exact Htok.
Qed.

Lemma X14_tokens_conserved_witness :
  all_tokens (commands_of (snd (run (Samples.with_default ["-n"; "5"; "a"]))))
  ≡ₚ ["5"; "a"]
  /\ bucket_total (commands_of (snd (run (Samples.with_default ["-n"; "5"; "a"])))) = 2%nat.
Proof.
  exact (X14_tokens_conserved (Samples.with_default ["-n"; "5"; "a"])
           (machine_of (tokenize (start (Samples.with_default ["-n"; "5"; "a"]))))
           (Some 1%nat) eq_refl).
Defined.

(** X15.  A non-variadic descriptor never holds more than one token: if
    that is so of every descriptor before [run] (as it is after
    registration, which creates empty buckets), it is so after [run],
    however [run] ends. *)
Theorem X15_one_token_per_scalar (p : Parser) :
  Forall bucket_bounded (_commands p) ->
  Forall bucket_bounded (commands_of (snd (run p))).
Proof.
  intros H. destruct (run_writes p) as (l & Hw & Hs).
  pose proof (writes_bounded _ _ Hw H) as Hl.
  apply Forall_lookup. intros i c' Hc'.
  symmetry in Hs. destruct (shape_lookup _ _ i c' Hs Hc') as (cl & Hcl & Hsh).
  rewrite Forall_lookup in Hl. specialize (Hl i cl Hcl).
  unfold bucket_bounded in *. unfold shape in Hsh. injection Hsh as Hb _.
  by rewrite <- Hb.
Qed.

Lemma X15_one_token_per_scalar_witness :
  Forall bucket_bounded
    (commands_of (snd (run (Samples.with_default ["-n"; "1"; "-n"; "2"; "x"; "y"])))).
Proof.
  apply X15_one_token_per_scalar.
  repeat constructor; intros _; cbn; lia.
Defined.

(** * Further properties of resolution *)

Section Values.

Implicit Types (m : Machine) (i j : nat).

Lemma Cmd_parse_argument i m b T v0 vf :
  commands_of m !! i = Some (CmdArgument b T v0 vf) ->
  negb (required b) && (length (arguments b) =? 0)%nat = false ->
  match Conv.parse T (arguments b) v0 with
  | inr v' => fst (Cmd_parse i m) = true
              /\ commands_of (snd (Cmd_parse i m)) !! i = Some (CmdArgument b T v' vf)
  | inl e => fst (Cmd_parse i m) = false
             /\ commands_of (snd (Cmd_parse i m)) = commands_of m
  end.
Proof.
  intros E Hs. unfold Cmd_parse.
  change (commands_of (emit (CallParse i) m)) with (commands_of m). rewrite E, Hs.
  destruct (Conv.parse T (arguments b) v0) as [e|v']; [by split|].
  split; [reflexivity|]. cbn [snd]. erewrite lookup_update_eq; [reflexivity|exact E].
Qed.

Lemma Cmd_validate_argument i m b T v vf :
  commands_of m !! i = Some (CmdArgument b T v vf) ->
  fst (Cmd_validate i m) = match vf with
                           | Some f => (f v).1.1
                           | None => true
                           end.
Proof.
  intros E. unfold Cmd_validate.
  change (commands_of (emit (CallValidate i) m)) with (commands_of m). rewrite E.
  destruct vf as [f|]; [|reflexivity]. by destruct (f v) as [[ok out] err].
Qed.

(** One iteration of a parse pass, seen from another descriptor. *)
Lemma parse_pass_step_other dom i j rest m :
  i <> j ->
  exists m2, commands_of m2 !! i = commands_of m !! i
             /\ (parse_pass dom (j :: rest) m = parse_pass dom rest m2
                 \/ parse_pass dom (j :: rest) m = (false, m2)).
Proof.
  intros Hne. cbn [parse_pass].
  destruct (commands_of m !! j) as [c|]; [|exists m; by split; [|left]].
  destruct (handled (base_of c) && Bool.eqb (dominant (base_of c)) dom);
    [|exists m; by split; [|left]].
  pose proof (Cmd_parse_other j i m ltac:(congruence)) as H1.
  destruct (Cmd_parse j m) as [parsed m1]. cbn [snd] in H1.
  assert (commands_of (snd (if parsed then Cmd_validate j m1 else (false, m1))) !! i
          = commands_of m !! i) as H2.
  { destruct parsed; [by rewrite Cmd_validate_commands|exact H1]. }
  destruct (if parsed then Cmd_validate j m1 else (false, m1)) as [ok m2]. cbn [snd] in H2.
  destruct ok.
  - exists m2. split; [exact H2|by left].
  - exists (invalid_arguments_report j m2). split; [|by right].
    by rewrite invalid_arguments_report_commands.
Qed.

Lemma parse_pass_value dom indices m i b T v0 vf :
  NoDup indices ->
  commands_of m !! i = Some (CmdArgument b T v0 vf) ->
  exists v',
    commands_of (snd (parse_pass dom indices m)) !! i = Some (CmdArgument b T v' vf)
    /\ (v' = v0
        \/ (i ∈ indices /\ handled b = true /\ dominant b = dom
            /\ Conv.parse T (arguments b) v0 = inr v'))
    /\ (fst (parse_pass dom indices m) = true ->
        i ∈ indices -> handled b = true -> dominant b = dom ->
        required b = true \/ arguments b <> [] ->
        Conv.parse T (arguments b) v0 = inr v'
        /\ forall f, vf = Some f -> (f v').1.1 = true).
Proof.
  intros Hnd. revert m v0. induction Hnd as [|j rest Hnotin Hnd IH]; intros m v0 E.
  { exists v0. split; [exact E|]. split; [by left|]. intros _ H. by apply elem_of_nil in H. }
  destruct (decide (i = j)) as [<-|Hne].
  - (* the descriptor's own iteration *)
    assert (forall m2 v1,
              commands_of m2 !! i = Some (CmdArgument b T v1 vf) ->
              exists v', commands_of (snd (parse_pass dom rest m2)) !! i
                         = Some (CmdArgument b T v' vf) /\ v' = v1) as Hrest.
    { intros m2 v1 E2. destruct (IH m2 v1 E2) as (v' & H1 & [H2|(H2 & _)] & _);
        [by exists v'|contradiction]. }
    cbn [parse_pass]. rewrite E. cbn [base_of].
    destruct (handled b && Bool.eqb (dominant b) dom) eqn:Hsel.
    2:{ destruct (Hrest m v0 E) as (v' & H1 & ->). exists v0. split; [exact H1|].
        split; [by left|]. intros _ _ Hh Hd _. rewrite Hh, Hd in Hsel.
        by destruct dom. }
    apply andb_true_iff in Hsel as [Hh Hd]. apply Bool.eqb_prop in Hd.
    destruct (negb (required b) && (length (arguments b) =? 0)%nat) eqn:Hshort.
    + (* the early return *)
      rewrite (Cmd_parse_use_default i m b T v0 vf E).
      2:{ apply andb_true_iff in Hshort as [H _]. by destruct (required b). }
      2:{ apply andb_true_iff in Hshort as [_ H]. apply Nat.eqb_eq in H.
          by destruct (arguments b). }
      assert (commands_of (emit (CallParse i) m) !! i = Some (CmdArgument b T v0 vf))
        as E1 by exact E.
      pose proof (Cmd_validate_commands i (emit (CallParse i) m)) as Hvc.
      destruct (Cmd_validate i (emit (CallParse i) m)) as [ok m2]. cbn [snd] in Hvc.
      assert (commands_of m2 !! i = Some (CmdArgument b T v0 vf)) as E2 by by rewrite Hvc.
      destruct ok.
      * destruct (Hrest m2 v0 E2) as (v' & H1 & ->). exists v0. split; [exact H1|].
        split; [by left|]. intros _ _ _ _ [Hr|Ha].
        -- rewrite Hr in Hshort. discriminate.
        -- apply andb_true_iff in Hshort as [_ H]. apply Nat.eqb_eq in H.
           by destruct (arguments b).
      * exists v0. cbn [fst snd]. rewrite invalid_arguments_report_commands.
        split; [exact E2|]. split; [by left|discriminate].
    + pose proof (Cmd_parse_argument i m b T v0 vf E Hshort) as Hp.
      destruct (Conv.parse T (arguments b) v0) as [e|v1] eqn:Hconv.
      * destruct Hp as [Hp1 Hp2]. destruct (Cmd_parse i m) as [parsed m1].
        cbn [fst snd] in Hp1, Hp2. subst parsed.
        exists v0. cbn [fst snd]. rewrite invalid_arguments_report_commands, Hp2.
        split; [exact E|]. split; [by left|discriminate].
      * destruct Hp as [Hp1 Hp2]. destruct (Cmd_parse i m) as [parsed m1].
        cbn [fst snd] in Hp1, Hp2. subst parsed.
        pose proof (Cmd_validate_commands i m1) as Hvc.
        pose proof (Cmd_validate_argument i m1 b T v1 vf Hp2) as Hva.
        destruct (Cmd_validate i m1) as [ok m2]. cbn [fst snd] in Hvc, Hva.
        assert (commands_of m2 !! i = Some (CmdArgument b T v1 vf)) as E2 by by rewrite Hvc.
        destruct ok.
        -- destruct (Hrest m2 v1 E2) as (v' & H1 & ->). exists v1. split; [exact H1|].
           split.
           ++ right. split; [apply list_elem_of_here|]. by repeat split.
           ++ intros _ _ _ _ _. split; [reflexivity|]. intros f ->. by symmetry.
        -- exists v1. cbn [fst snd]. rewrite invalid_arguments_report_commands.
           split; [exact E2|]. split; [|discriminate].
           right. split; [apply list_elem_of_here|]. by repeat split.
  - (* another descriptor's iteration *)
    destruct (parse_pass_step_other dom i j rest m Hne) as (m2 & H2 & [Hgo|Hstop]).
    + rewrite Hgo. rewrite E in H2.
      destruct (IH m2 v0 H2) as (v' & H1 & Hv & Hok).
      exists v'. split; [exact H1|]. split.
      * destruct Hv as [->|(Hin & Hrest)]; [by left|].
        right. split; [by apply list_elem_of_further|exact Hrest].
      * intros Ht Hin. apply Hok; [exact Ht|].
        apply elem_of_cons in Hin as [->|Hin]; [done|exact Hin].
    + rewrite Hstop. exists v0. cbn [fst snd]. rewrite H2.
      split; [exact E|]. split; [by left|discriminate].
Qed.

End Values.

(** X16.  What resolution does to a value parameter.  Let tokenisation
    complete with descriptor [i] holding value [v0] and bucket
    [arguments b].  After [run] the descriptor holds either [v0] still or
    the conversion of its bucket (called with [v0] as the default), and
    nothing else.  If [run] returns [true] and the descriptor is handled
    and is required or has a non-empty bucket, it holds the conversion of
    its bucket, and its validation hook, if any, accepted that value. *)
Theorem X16_values_are_conversions (p : Parser) (m0 : Machine) (cur : option nat)
    (i : nat) (b : CmdBase) (T : ty) (v0 : tyDenote T) (vf : option (ValidationFunction T)) :
  tokenize (start p) = Continue m0 cur ->
  commands_of m0 !! i = Some (CmdArgument b T v0 vf) ->
  exists v',
    commands_of (snd (run p)) !! i = Some (CmdArgument b T v' vf)
    /\ (v' = v0 \/ (handled b = true /\ Conv.parse T (arguments b) v0 = inr v'))
    /\ (fst (run p) = Returned true ->
        handled b = true -> required b = true \/ arguments b <> [] ->
        Conv.parse T (arguments b) v0 = inr v'
        /\ forall f, vf = Some f -> (f v').1.1 = true).
Proof.
  intros Htok E. unfold run, run_from. rewrite Htok. unfold resolve.
  assert (i < length (commands_of m0))%nat as Hlt by (by eapply lookup_lt_Some).
  assert (forall m, length (commands_of m) = length (commands_of m0) -> i ∈ indices m) as Hin.
  { intros m Hl. unfold indices. rewrite Hl. apply elem_of_seq. lia. }
  assert (forall m, NoDup (indices m)) as Hnd by (intros m; apply NoDup_seq).
  assert (forall m m', shape <$> commands_of m' = shape <$> commands_of m ->
                       length (commands_of m') = length (commands_of m)) as Hlen.
  { intros m m' H. assert (length (shape <$> commands_of m')
                           = length (shape <$> commands_of m)) as E' by by rewrite H.
    by rewrite !length_fmap in E'. }
  destruct (parse_pass_value true (indices m0) m0 i b T v0 vf (Hnd m0) E)
    as (v1 & E1 & Hv1 & Hok1).
  pose proof (Hlen _ _ (proj1 (parse_pass_frame true (indices m0) m0))) as Hl1.
  destruct (parse_pass true (indices m0) m0) as [ok1 m1]. cbn [fst snd] in *.
  destruct ok1; cbn [negb fst snd].
  2:{ exists v1. split; [exact E1|]. split; [|discriminate].
      destruct Hv1 as [->|(_ & Hh & _ & Hc)]; [by left|by right]. }
  pose proof (required_pass_commands m1) as Hc2.
  destruct (required_pass m1) as [ok2 m2]. cbn [fst snd] in *.
  destruct ok2; cbn [negb fst snd].
  2:{ exists v1. rewrite Hc2. split; [exact E1|]. split; [|discriminate].
      destruct Hv1 as [->|(_ & Hh & _ & Hc)]; [by left|by right]. }
  assert (commands_of m2 !! i = Some (CmdArgument b T v1 vf)) as E2 by by rewrite Hc2.
  destruct (parse_pass_value false (indices m2) m2 i b T v1 vf (Hnd m2) E2)
    as (v3 & E3 & Hv3 & Hok3).
  assert (i ∈ indices m2) as Hin2 by (apply Hin; by rewrite Hc2).
  destruct (parse_pass false (indices m2) m2) as [ok3 m3]. cbn [fst snd] in *.
  exists v3. split; [exact E3|].
  destruct (dominant b) eqn:Hdom.
  - (* dominant: written in the first pass only *)
    assert (v3 = v1) as -> by (destruct Hv3 as [->|(_ & _ & H & _)]; [done|discriminate]).
    split.
    + destruct Hv1 as [->|(_ & Hh & _ & Hc)]; [by left|by right].
    + intros _ Hh Hr. apply Hok1; try done. by apply Hin.
  - (* not dominant: written in the third pass only *)
    assert (v1 = v0) as -> by (destruct Hv1 as [->|(_ & _ & H & _)]; [done|discriminate]).
    split.
    + destruct Hv3 as [->|(_ & Hh & _ & Hc)]; [by left|by right].
    + intros [= ->] Hh Hr. by apply Hok3.
Qed.

(** [-n 12abc] with a validation hook that accepts only values below 10:
    [run] returns [false], and [-n] holds 12. *)
Example rejected_value_stays :
  let p := set_optional (TInteger I_int) "n" "num" 7 ""
             (Some (fun v : Z => (v <? 10, "", "too large"))) false
             (set_default TString false "" "none" None (Samples.fresh ["-n"; "12abc"])) in
  fst (run p) = Returned false
  /\ get (TInteger I_int) "n" (parser (snd (run p))) = inr 12
  /\ trace (snd (run p))
     = [CallParse 1; CallValidate 1; CallParse 2; CallConversion 2; CallValidate 2;
        ReportInvalidArguments 2].
Proof. vm_compute. repeat split. Qed.

Lemma X16_values_are_conversions_witness :
  exists v',
    commands_of (snd (run (Samples.with_default ["-n"; "0x10"]))) !! 2%nat
    = Some (CmdArgument
              (push_back "0x10" (set_handled (CmdBase_new "n" "num" "" false false false)))
              (TInteger I_int) v' None)
    /\ Conv.parse (TInteger I_int) ["0x10"] 7 = inr v'.
Proof.
  destruct (X16_values_are_conversions (Samples.with_default ["-n"; "0x10"])
              (machine_of (tokenize (start (Samples.with_default ["-n"; "0x10"]))))
              (Some 1%nat) 2
              (push_back "0x10" (set_handled (CmdBase_new "n" "num" "" false false false)))
              (TInteger I_int) 7 None eq_refl eq_refl) as (v' & H1 & _ & H2).
  exists v'. split; [exact H1|].
  exact (proj1 (H2 eq_refl eq_refl ltac:(right; discriminate))).
Defined.

(** * Further properties of the registry *)

Section Registry.

Implicit Types (p : Parser) (c : Cmd) (nm : string).

Lemma get_found T nm p i c :
  list_find (named nm) (_commands p) = Some (i, c) ->
  get T nm p
  = match c with
    | CmdArgument _ T' value _ =>
        match decide (T' = T) with
        | left e => inr (eq_rect T' tyDenote value T e)
        | right _ =>
            inl (CLib.runtime_error ("Invalid usage of the parameter " +:+ nm +:+ " detected."))
        end
    | CmdFunction _ _ _ _ =>
        inl (CLib.runtime_error ("Invalid usage of the parameter " +:+ nm +:+ " detected."))
    end.
Proof. intros H. unfold get. by rewrite H. Qed.

Lemma list_find_absent nm l :
  (forall c, c ∈ l -> name (base_of c) <> nm) -> list_find (named nm) l = None.
Proof.
  intros H. apply list_find_None, Forall_forall. intros c Hc Hn.
  apply String.eqb_eq in Hn. by apply (H c Hc).
Qed.

Lemma list_find_appended nm l c :
  (forall c', c' ∈ l -> name (base_of c') <> nm) -> name (base_of c) = nm ->
  list_find (named nm) (l ++ [c]) = Some (length l, c).
Proof.
  intros H Hc. rewrite list_find_app_r by by apply list_find_absent.
  cbn. rewrite Hc, String.eqb_refl. reflexivity.
Qed.

Lemma get_same_type T nm p i b v vf :
  list_find (named nm) (_commands p) = Some (i, CmdArgument b T v vf) ->
  get T nm p = inr v.
Proof.
  intros H. rewrite (get_found T nm p i _ H).
  destruct (decide (T = T)) as [e|]; [|done].
  by rewrite (proof_irrel e eq_refl).
Qed.

Lemma get_other_type T T' nm p i b v vf :
  T' <> T ->
  list_find (named nm) (_commands p) = Some (i, CmdArgument b T v vf) ->
  get T' nm p
  = inl (CLib.runtime_error ("Invalid usage of the parameter " +:+ nm +:+ " detected.")).
Proof.
  intros Hne H. rewrite (get_found T' nm p i _ H).
  destruct (decide (T = T')) as [e|]; [congruence|done].
Qed.

Lemma CmdBase_new_name nm alt desc r d v : name (CmdBase_new nm alt desc r d v) = nm.
Proof. reflexivity. Qed.

End Registry.

(** X17.  Registration then lookup.  When no descriptor of the registry
    has the name [nm], registering an optional parameter under [nm] with
    default [v] makes [get<T>(nm)] return [v]; the same lookup at any
    other type throws the invalid-usage error, as does a lookup of a name
    registered as a callback; and [get_default<T>()] returns the value
    given to [set_default] when no descriptor had an empty name. *)
Theorem X17_get_after_registration (p : Parser) (T : ty) (nm alt desc : string)
    (v : tyDenote T) (vf : option (ValidationFunction T)) (dom : bool) :
  (forall c, c ∈ _commands p -> name (base_of c) <> nm) ->
  get T nm (set_optional T nm alt v desc vf dom p) = inr v
  /\ (forall T', T' <> T ->
        get T' nm (set_optional T nm alt v desc vf dom p)
        = inl (CLib.runtime_error
                 ("Invalid usage of the parameter " +:+ nm +:+ " detected.")))
  /\ (forall T' callback indet,
        get T' nm (set_callback T nm alt callback desc dom indet p)
        = inl (CLib.runtime_error
                 ("Invalid usage of the parameter " +:+ nm +:+ " detected.")))
  /\ (nm = "" -> forall req, get_default T (set_default T req desc v vf p) = inr v).
Proof.
  intros H. repeat split.
  - eapply get_same_type. unfold set_optional, add_command. cbn [_commands with_commands].
    by apply list_find_appended.
  - intros T' Hne. eapply get_other_type; [exact Hne|].
    unfold set_optional, add_command. cbn [_commands with_commands].
    by apply list_find_appended.
  - intros T' callback indet.
    erewrite get_found;
      [|unfold set_callback, add_command; cbn [_commands with_commands];
        by apply list_find_appended].
    reflexivity.
  - intros -> req. unfold get_default. eapply get_same_type.
    unfold set_default, add_command. cbn [_commands with_commands].
    by apply list_find_appended.
Qed.

Lemma X17_get_after_registration_witness :
  get (TInteger I_int) "n"
    (set_optional (TInteger I_int) "n" "num" 7 "" None false (Samples.fresh [])) = inr 7.
Proof.
  refine (proj1 (X17_get_after_registration (Samples.fresh []) (TInteger I_int)
                   "n" "num" "" 7 None false _)).
  intros c Hc. apply list_elem_of_singleton in Hc. by subst.
Defined.

(** X18.  [get<T>(nm)] throws the not-found error exactly when no
    descriptor of the registry has the name [nm]. *)
Theorem X18_get_not_found (p : Parser) (T : ty) (nm : string) :
  get T nm p = inl (CLib.runtime_error ("The parameter " +:+ nm +:+ " could not be found."))
  <-> forall c, c ∈ _commands p -> name (base_of c) <> nm.
Proof.
  split.
  - intros Hg c Hc Hn.
    destruct (list_find (named nm) (_commands p)) as [[i c']|] eqn:E.
    + rewrite (get_found T nm p i c' E) in Hg.
      assert ("Invalid usage of the parameter " +:+ nm +:+ " detected."
              <> "The parameter " +:+ nm +:+ " could not be found.") as Hmsg by done.
      destruct c' as [b T' v vf|]; [destruct (decide (T' = T))|]; congruence.
    + apply list_find_None in E. rewrite Forall_forall in E.
      apply (E c Hc). cbn. rewrite Hn. apply String.eqb_refl.
  - intros H. unfold get. pose proof (list_find_absent nm _ H) as E.
    by rewrite E.
Qed.

Lemma X18_get_not_found_witness :
  get TString "missing" (Samples.with_default [])
  = inl (CLib.runtime_error "The parameter missing could not be found.").
Proof.
  refine (proj2 (X18_get_not_found (Samples.with_default []) TString "missing") _).
  intros c Hc.
  repeat (apply elem_of_cons in Hc as [->|Hc]; [discriminate|]).
  by apply elem_of_nil in Hc.
Defined.

(** X19.  The earliest registration wins.  Once some descriptor has the
    name [nm], registering another descriptor changes no [get] of [nm];
    once a flag resolves, registering another descriptor does not change
    what it resolves to; and once there is a default descriptor, it stays
    the default. *)
Theorem X19_earliest_registration_wins (p : Parser) (c : Cmd) :
  (forall T nm, (exists c0, c0 ∈ _commands p /\ name (base_of c0) = nm) ->
                get T nm (add_command c p) = get T nm p)
  /\ (forall flag, is_Some (find p flag) -> find (add_command c p) flag = find p flag)
  /\ (is_Some (find_default p) -> find_default (add_command c p) = find_default p).
Proof.
  split; [|split].
  - intros T nm (c0 & Hin & Hn).
    destruct (list_find_elem_of (named nm) (_commands p) c0 Hin) as [[i c1] E].
    { cbn. rewrite Hn. apply String.eqb_refl. }
    rewrite (get_found T nm p i c1 E).
    apply get_found with i. unfold add_command. cbn [_commands with_commands].
    by apply list_find_app_l.
  - intros flag [i Hi]. unfold find in *. unfold add_command. cbn [_commands with_commands].
    destruct (list_find _ (_commands p)) as [[k ck]|] eqn:E; [|discriminate].
    by rewrite (list_find_app_l _ _ _ _ _ E).
  - intros [i Hi]. unfold find_default in *. unfold add_command.
    cbn [_commands with_commands].
    destruct (list_find _ (_commands p)) as [[k ck]|] eqn:E; [|discriminate].
    by rewrite (list_find_app_l _ _ _ _ _ E).
Qed.

Lemma X19_earliest_registration_wins_witness :
  get (TInteger I_int) "n"
    (set_optional (TInteger I_int) "n" "other" 99 "" None false (Samples.with_default []))
  = get (TInteger I_int) "n" (Samples.with_default []).
Proof.
  refine (proj1 (X19_earliest_registration_wins (Samples.with_default []) _)
            (TInteger I_int) "n" _).
  eexists. split;
    [apply list_elem_of_further, list_elem_of_further, list_elem_of_here|reflexivity].
Defined.

Section Lengths.

Lemma write_length l l' : write l l' -> length l' = length l.
Proof. intros [|]; apply length_alter. Qed.

Lemma writes_length l l' : rtc write l l' -> length l' = length l.
Proof.
  induction 1 as [|x y z H _ IH]; [reflexivity|]. by rewrite IH, (write_length _ _ H).
Qed.

End Lengths.

(** * Further properties of the help parameter *)

Section Help.

Implicit Types (m : Machine) (p : Parser).

Lemma existsb_static (f : string * string * string * string * bool * bool * bool * bool -> bool)
    (l l' : list Cmd) :
  static_part <$> l' = static_part <$> l ->
  existsb (fun c => f (static_part c)) l' = existsb (fun c => f (static_part c)) l.
Proof.
  revert l'. induction l as [|x l IH]; intros [|y l'] H; try done.
  change (static_part y :: (static_part <$> l') = static_part x :: (static_part <$> l)) in H.
  assert (static_part y = static_part x) as Hxy by congruence.
  assert (static_part <$> l' = static_part <$> l) as Hl by congruence.
  cbn [existsb]. by rewrite Hxy, (IH l' Hl).
Qed.

Lemma token_step_silent m current currArg m' current' :
  token_step m current currArg = Continue m' current' ->
  output m' = output m /\ error m' = error m /\ trace m' = trace m.
Proof.
  unfold token_step.
  destruct (if isarg currArg then find (parser m) currArg else None).
  { by intros [= <- _]. }
  destruct current as [cur|]; [|discriminate].
  destruct (commands_of m !! cur) as [c|]; [|discriminate].
  destruct (negb (variadic (base_of c))).
  - destruct (length (arguments (base_of c)) =? 0)%nat.
    + cbv zeta. destruct (find_default _); [|discriminate]. by intros [= <- _].
    + destruct (isarg currArg); discriminate.
  - by intros [= <- _].
Qed.

Lemma token_loop_silent args m current m' current' :
  token_loop args m current = Continue m' current' ->
  output m' = output m /\ error m' = error m /\ trace m' = trace m.
Proof.
  revert m current. induction args as [|tok args IH]; intros m current.
  { by intros [= <- _]. }
  cbn [token_loop]. pose proof (token_step_silent m current tok) as Hs.
  destruct (token_step m current tok) as [m1 c1|]; [|discriminate].
  destruct (Hs m1 c1 eq_refl) as (H1 & H2 & H3). intros H.
  destruct (IH _ _ H) as (H4 & H5 & H6). repeat split; congruence.
Qed.

(** Text, once written to the output stream, stays. *)
Lemma Cmd_parse_output i m :
  exists s, output (snd (Cmd_parse i m)) = output m +:+ s.
Proof.
  unfold Cmd_parse. change (commands_of (emit (CallParse i) m)) with (commands_of m).
  destruct (commands_of m !! i) as [[b T v vf|b T cb v]|].
  - destruct (negb (required b) && (length (arguments b) =? 0)%nat).
    { exists "". by rewrite append_nil_r. }
    destruct (Conv.parse T (arguments b) v); exists ""; by rewrite append_nil_r.
  - destruct (result _); eexists; reflexivity.
  - exists "". by rewrite append_nil_r.
Qed.

Lemma Cmd_validate_output i m :
  exists s, output (snd (Cmd_validate i m)) = output m +:+ s.
Proof.
  unfold Cmd_validate. change (commands_of (emit (CallValidate i) m)) with (commands_of m).
  destruct (commands_of m !! i) as [[b T v [vf|]|b T cb v]|];
    try (exists ""; by rewrite append_nil_r).
  destruct (vf v) as [[ok out] err]. by eexists.
Qed.

Lemma parse_pass_output dom indices m :
  exists s, output (snd (parse_pass dom indices m)) = output m +:+ s.
Proof.
  revert m. induction indices as [|i rest IH]; intros m.
  { exists "". by rewrite append_nil_r. }
  cbn [parse_pass].
  destruct (commands_of m !! i) as [c|]; [|apply IH].
  destruct (handled (base_of c) && Bool.eqb (dominant (base_of c)) dom); [|apply IH].
  destruct (Cmd_parse_output i m) as [s1 H1].
  destruct (Cmd_parse i m) as [parsed m1]. cbn [snd] in H1.
  assert (exists s, output (snd (if parsed then Cmd_validate i m1 else (false, m1)))
                    = output m +:+ s) as [s2 H2].
  { destruct parsed.
    - destruct (Cmd_validate_output i m1) as [s Hs]. exists (s1 +:+ s).
      by rewrite Hs, H1, append_assoc.
    - by exists s1. }
  destruct (if parsed then Cmd_validate i m1 else (false, m1)) as [ok m2]. cbn [snd] in H2.
  destruct ok.
  - destruct (IH m2) as [s3 H3]. exists (s2 +:+ s3). by rewrite H3, H2, append_assoc.
  - exists s2. cbn [snd]. unfold invalid_arguments_report.
    destruct (commands_of m2 !! i); exact H2.
Qed.

Lemma after_dominant_pass m :
  exists s t,
    output (snd (resolve m)) = output (snd (parse_pass true (indices m) m)) +:+ s
    /\ trace (snd (resolve m)) = trace (snd (parse_pass true (indices m) m)) ++ t.
Proof.
  unfold resolve.
  destruct (parse_pass true (indices m) m) as [ok1 m1]. cbn [snd].
  destruct ok1; cbn [negb snd].
  2:{ exists "", []. by rewrite append_nil_r, app_nil_r. }
  destruct (required_pass_trace m1) as (t2 & Ht2 & _).
  assert (output (snd (required_pass m1)) = output m1) as Ho2.
  { unfold required_pass. destruct (list_find _ _) as [[j c]|]; reflexivity. }
  destruct (required_pass m1) as [ok2 m2]. cbn [snd] in *.
  destruct ok2; cbn [negb snd].
  2:{ exists "", t2. by rewrite append_nil_r, Ho2. }
  destruct (parse_pass_output false (indices m2) m2) as [s3 H3].
  destruct (parse_pass_trace false (indices m2) m2) as (t3 & Ht3 & _).
  destruct (parse_pass false (indices m2) m2) as [ok3 m3]. cbn [snd] in *.
  exists s3, (t2 ++ t3). by rewrite H3, Ho2, Ht3, Ht2, app_assoc.
Qed.

Lemma about_same i j e : about i e -> about j e -> i = j.
Proof. unfold about. intros Hi Hj. destruct e; intuition congruence. Qed.

(** What follows the dominant pass: the report of the required-check or
    calls and reports on handled non-dominant descriptors. *)
Lemma after_dominant_pass_events m :
  exists s t,
    output (snd (resolve m)) = output (snd (parse_pass true (indices m) m)) +:+ s
    /\ trace (snd (resolve m)) = trace (snd (parse_pass true (indices m) m)) ++ t
    /\ Forall (fun e => (exists j, e = ReportRequired j)
                        \/ exists i, selected (bases_of m) false i /\ about i e) t.
Proof.
  unfold resolve.
  pose proof (parse_pass_bases true (indices m) m) as Hb1.
  destruct (parse_pass true (indices m) m) as [ok1 m1]. cbn [snd] in *.
  destruct ok1; cbn [negb snd].
  2:{ exists "", []. rewrite append_nil_r, app_nil_r. repeat split. constructor. }
  destruct (required_pass_trace m1) as (t2 & Ht2 & Hr2).
  pose proof (required_pass_commands m1) as Hc2.
  assert (output (snd (required_pass m1)) = output m1) as Ho2.
  { unfold required_pass. destruct (list_find _ _) as [[j c]|]; reflexivity. }
  assert (Forall (fun e => (exists j, e = ReportRequired j)
                           \/ exists i, selected (bases_of m) false i /\ about i e) t2) as F2.
  { destruct Hr2 as [(_ & -> & _)|(_ & j & b & -> & _)]; [constructor|].
    apply Forall_singleton. left. by exists j. }
  destruct (required_pass m1) as [ok2 m2]. cbn [fst snd] in *.
  destruct ok2; cbn [negb snd].
  2:{ exists "", t2. by rewrite append_nil_r, Ho2. }
  assert (bases_of m2 = bases_of m) as Hb2.
  { rewrite <- Hb1. unfold bases_of. by rewrite Hc2. }
  destruct (parse_pass_output false (indices m2) m2) as [s3 H3].
  destruct (parse_pass_trace false (indices m2) m2) as (t3 & Ht3 & Hp3).
  apply pass_trace_events in Hp3. rewrite Hb2 in Hp3.
  destruct (parse_pass false (indices m2) m2) as [ok3 m3]. cbn [fst snd] in *.
  exists s3, (t2 ++ t3). rewrite H3, Ho2, Ht3, Ht2, app_assoc. repeat split.
  apply Forall_app. split; [exact F2|].
  eapply Forall_impl; [exact Hp3|]. intros e (i & _ & Hs & Ha). right. by exists i.
Qed.

Lemma run_static p :
  static_part <$> commands_of (snd (run p)) = static_part <$> _commands p.
Proof.
  destruct (run_writes p) as (l & Hw & Hs).
  rewrite (shape_static _ _ Hs). by apply writes_static.
Qed.

Lemma help_flags indet tok :
  CmdBase_is (base_of (help_command indet)) tok = true <-> tok = "-h" \/ tok = "--help".
Proof.
  unfold CmdBase_is. cbn. rewrite orb_true_iff, !String.eqb_eq. tauto.
Qed.

End Help.

(** X20.  The help parameter registered by [init] is found by
    [has_help] from then on: registering further descriptors and running
    the parser do not change that.  [has_help] returns the same before
    and after [run] for every parser. *)
Theorem X20_help_stays_registered :
  (forall argv0 args indet p, has_help (init argv0 args indet p) = true)
  /\ (forall p c, has_help p = true -> has_help (add_command c p) = true)
  /\ (forall p, has_help (parser (snd (run p))) = has_help p).
Proof.
  split; [|split].
  - intros argv0 args indet p. unfold has_help, init, enable_help, set_callback, add_command.
    cbn [_commands with_commands]. rewrite existsb_app. apply orb_true_iff. by right.
  - intros p c H. unfold has_help, add_command in *. cbn [_commands with_commands].
    rewrite existsb_app, H. reflexivity.
  - intros p. unfold has_help.
    apply (existsb_static
             (fun s => String.eqb s.1.1.1.1.1.1.1 "h" && String.eqb s.1.1.1.1.1.2 "--help")).
    apply run_static.
Qed.

Lemma X20_help_stays_registered_witness :
  has_help (set_optional TBool "f" "flag" false "" None false
              (init "prog" ["-f"] false Parser_new)) = true.
Proof.
  exact (proj1 (proj2 X20_help_stays_registered) (init "prog" ["-f"] false Parser_new) _
           (proj1 X20_help_stays_registered "prog" ["-f"] false Parser_new)).
Defined.

(** X21.  When tokenisation completes with the help descriptor (the first
    of the registry, as [init] registers it) handled, the help callback's
    [parse] and [validate] both return [true]; the usage text is the
    first thing [run] writes to the output stream, rendered from the
    registry as tokenisation left it, before any value is converted; the
    events of [run] start with the three of the help descriptor and no
    later event is about it: [run] never reports help as failing, so help
    by itself never makes [run] fail. *)
Theorem X21_help_prints_usage_first (p : Parser) (m0 : Machine) (cur : option nat)
    (b : CmdBase) (v : bool) :
  tokenize (start p) = Continue m0 cur ->
  commands_of m0 !! 0%nat = Some (CmdFunction b TBool help_callback v) ->
  handled b = true -> dominant b = true ->
  fst (Cmd_parse 0 m0) = true
  /\ fst (Cmd_validate 0 (snd (Cmd_parse 0 m0))) = true
  /\ exists s t,
       output (snd (run p)) = usage (parser m0) +:+ s
       /\ trace (snd (run p)) = [CallParse 0; CallCallback 0; CallValidate 0] ++ t
       /\ Forall (fun e => ~ about 0 e) t.
Proof.
  intros Htok E Hh Hd.
  destruct (token_loop_silent _ _ _ _ _ Htok) as (Ho & _ & Ht).
  cbn [start output trace] in Ho, Ht.
  assert (Cmd_parse 0 m0
          = (true,
             update 0 (fun _ => CmdFunction b TBool help_callback false)
               (to_err "" (to_out (usage (parser m0))
                             (emit (CallCallback 0) (emit (CallParse 0) m0)))))) as Hparse.
  { unfold Cmd_parse. change (commands_of (emit (CallParse 0) m0)) with (commands_of m0).
    rewrite E. reflexivity. }
  rewrite Hparse. cbn [fst snd].
  set (m1 := update 0 _ _).
  assert (Cmd_validate 0 m1 = (true, emit (CallValidate 0) m1)) as Hvalidate.
  { unfold Cmd_validate.
    change (commands_of (emit (CallValidate 0) m1)) with (commands_of m1).
    unfold m1. erewrite lookup_update_eq; [reflexivity|exact E]. }
  rewrite Hvalidate. cbn [fst].
  split; [reflexivity|]. split; [reflexivity|].
  unfold run, run_from. rewrite Htok.
  destruct (after_dominant_pass_events m0) as (s & t & Hs & Htr & Hev). rewrite Hs, Htr.
  assert (exists n, indices m0 = 0%nat :: seq 1 n) as [n ->].
  { unfold indices. destruct (commands_of m0) as [|c l]; [discriminate|].
    exists (length l). reflexivity. }
  cbn [parse_pass]. rewrite E. cbn [base_of]. rewrite Hh, Hd. cbn [andb Bool.eqb].
  rewrite Hparse. fold m1. rewrite Hvalidate.
  destruct (parse_pass_output true (seq 1 n) (emit (CallValidate 0) m1)) as [s1 H1].
  destruct (parse_pass_trace true (seq 1 n) (emit (CallValidate 0) m1)) as (t1 & H2 & Hp1).
  apply pass_trace_events in Hp1.
  rewrite H1, H2. exists (s1 +:+ s), (t1 ++ t).
  unfold m1. cbn [output trace emit to_out to_err update]. rewrite Ho, Ht.
  split; [|split].
  - change ("" +:+ usage (parser m0)) with (usage (parser m0)). by rewrite append_assoc.
  - cbn [app]. rewrite <- ?app_assoc. reflexivity.
  - apply Forall_app. split.
    + eapply Forall_impl; [exact Hp1|]. intros e (i & Hi & _ & Ha) H0.
      apply elem_of_seq in Hi. pose proof (about_same _ _ _ Ha H0). lia.
    + eapply Forall_impl; [exact Hev|]. intros e [[j ->]|(i & Hsel & Ha)] H0.
      * unfold about in H0. intuition discriminate.
      * pose proof (about_same _ _ _ Ha H0) as ->.
        destruct Hsel as (b' & Hb' & _ & Hd'). unfold bases_of in Hb'.
        rewrite list_lookup_fmap, E in Hb'. cbn in Hb'. congruence.
Qed.

Lemma X21_help_prints_usage_first_witness :
  fst (Cmd_parse 0 (machine_of (tokenize (start (Samples.with_dominant ["--help"]))))) = true
  /\ fst (Cmd_validate 0
            (snd (Cmd_parse 0
                    (machine_of (tokenize (start (Samples.with_dominant ["--help"])))))))
     = true
  /\ exists s t,
       output (snd (run (Samples.with_dominant ["--help"])))
       = usage (parser (machine_of (tokenize (start (Samples.with_dominant ["--help"])))))
         +:+ s
       /\ trace (snd (run (Samples.with_dominant ["--help"])))
          = [CallParse 0; CallCallback 0; CallValidate 0] ++ t
       /\ Forall (fun e => ~ about 0 e) t.
Proof.
  exact (X21_help_prints_usage_first (Samples.with_dominant ["--help"])
           (machine_of (tokenize (start (Samples.with_dominant ["--help"])))) (Some 0%nat)
           (set_handled (CmdBase_new "h" "help" "" false true false)) false
           eq_refl eq_refl eq_refl eq_refl).
Defined.

(** X22.  [doesHelpExist] agrees with tokenisation: for a parser whose
    first descriptor is the help parameter as [init] registers it, when
    tokenisation completes the help descriptor is handled exactly when
    [doesHelpExist()] is true, that is when [-h] or [--help] is among the
    raw arguments. *)
Theorem X22_help_handled_iff_given (p : Parser) (indet : bool) (rest : list Cmd)
    (m : Machine) (cur : option nat) :
  _commands p = help_command indet :: rest ->
  tokenize (start p) = Continue m cur ->
  exists c, commands_of m !! 0%nat = Some c
            /\ handled (base_of c) = doesHelpExist p.
Proof.
  intros Hp Htok.
  assert (_commands p !! 0%nat = Some (help_command indet)) as H0 by by rewrite Hp.
  assert (forall tok, isarg tok = true -> (tok = "-h" \/ tok = "--help") ->
                      find p tok = Some 0%nat) as Hfind.
  { intros tok _ Ht. unfold find. rewrite Hp. cbn [list_find].
    rewrite decide_True; [reflexivity|]. by apply help_flags. }
  assert (forall tok, find p tok = Some 0%nat -> tok = "-h" \/ tok = "--help") as Hfind'.
  { intros tok Hf. destruct (find_Some_is _ _ _ Hf) as (c & Hc & His).
    rewrite H0 in Hc. injection Hc as <-. by apply (help_flags indet). }
  assert (find_default p <> Some 0%nat) as Hdef.
  { intros Hd. destruct (find_default_Some_name _ _ Hd) as (c & Hc & Hn).
    rewrite H0 in Hc. injection Hc as <-. discriminate. }
  unfold doesHelpExist, doesArgumentExist.
  destruct (existsb _ (_arguments p)) eqn:Hex.
  - apply existsb_exists in Hex as (tok & Hin & Htok').
    apply orb_true_iff in Htok'. rewrite !String.eqb_eq in Htok'.
    change ("-" +:+ "h") with "-h" in Htok'.
    apply list_elem_of_In, list_elem_of_split in Hin as (pre & post & Hargs).
    unfold tokenize in Htok. cbn [start parser] in Htok. fold (start p) in Htok.
    rewrite Hargs, token_loop_app in Htok.
    pose proof (token_loop_finds_all pre (start p) (find_default p)) as [Hf _].
    pose proof (token_loop_writes pre (start p) (find_default p)) as Hw1.
    destruct (token_loop pre (start p) (find_default p)) as [m1 c1|]; [|discriminate].
    cbn [machine_of token_loop] in *.
    assert (isarg tok = true) as Hi by (destruct Htok' as [-> | ->]; reflexivity).
    rewrite (token_step_flag m1 c1 tok 0 Hi) in Htok
      by (rewrite Hf; by apply Hfind).
    pose proof (token_loop_writes post (update 0 (map_base set_handled) m1) (Some 0%nat))
      as Hw2.
    rewrite Htok in Hw2. cbn [machine_of] in Hw2.
    assert (exists c1', commands_of m1 !! 0%nat = Some c1') as [c1' Hc1].
    { apply lookup_lt_is_Some. rewrite (writes_length _ _ Hw1).
      apply lookup_lt_is_Some. by eexists. }
    destruct (Forall2_lookup_l _ _ _ 0%nat _ (writes_grows _ _ Hw2)
                (lookup_update_eq m1 0 _ c1' Hc1)) as (c & Hc & _ & Hh).
    exists c. split; [exact Hc|]. apply Hh. by destruct c1'.
  - pose proof (token_loop_elsewhere (_arguments p) (start p) (find_default p) 0) as Hel.
    unfold tokenize in Htok. cbn [start parser] in Htok. fold (start p) in Htok.
    rewrite Htok in Hel. cbn [machine_of] in Hel.
    exists (help_command indet). rewrite Hel; [by split| |exact Hdef|exact Hdef].
    intros tok Hin Hf. apply Hfind' in Hf.
    assert (existsb (fun argument => String.eqb argument ("-" +:+ "h")
                                     || String.eqb argument "--help") (_arguments p) = true)
      as Hc; [|congruence].
    apply existsb_exists. exists tok. split; [by apply list_elem_of_In|].
    apply orb_true_iff. rewrite !String.eqb_eq. exact Hf.
Qed.

Lemma X22_help_handled_iff_given_witness :
  exists c,
    commands_of (machine_of (tokenize (start (Samples.with_default ["a"; "--help"]))))
    !! 0%nat = Some c
    /\ handled (base_of c) = true.
Proof.
  exact (X22_help_handled_iff_given (Samples.with_default ["a"; "--help"]) false _
           (machine_of (tokenize (start (Samples.with_default ["a"; "--help"]))))
           (Some 0%nat) eq_refl eq_refl).
Defined.

(** X23.  Each registration appends one descriptor, leaving the earlier
    ones as they are: [commands()] grows by one; [requirements()] grows
    by one for [set_required], and for [set_default] when it is called
    with [is_required], and stays the same for [set_optional],
    [set_callback] and [enable_help]. *)
Theorem X23_registration_counts (p : Parser) :
  (forall T req desc v vf,
      commands (set_default T req desc v vf p) = S (commands p)
      /\ requirements (set_default T req desc v vf p)
         = (requirements p + (if req then 1 else 0))%nat)
  /\ (forall T nm alt desc vf dom indet,
        commands (set_required T nm alt desc vf dom indet p) = S (commands p)
        /\ requirements (set_required T nm alt desc vf dom indet p) = S (requirements p))
  /\ (forall T nm alt v desc vf dom,
        commands (set_optional T nm alt v desc vf dom p) = S (commands p)
        /\ requirements (set_optional T nm alt v desc vf dom p) = requirements p)
  /\ (forall T nm alt cb desc dom indet,
        commands (set_callback T nm alt cb desc dom indet p) = S (commands p)
        /\ requirements (set_callback T nm alt cb desc dom indet p) = requirements p)
  /\ (forall indet,
        commands (enable_help indet p) = S (commands p)
        /\ requirements (enable_help indet p) = requirements p).
Proof.
  assert (forall c, commands (add_command c p) = S (commands p)
                    /\ requirements (add_command c p)
                       = (requirements p + (if required (base_of c) then 1 else 0))%nat) as H.
  { intros c. unfold commands, requirements, add_command. cbn [_commands with_commands].
    rewrite length_app, filter_app, length_app, filter_cons, filter_nil.
    split; [cbn; lia|]. destruct (required (base_of c)); case_decide; try done; cbn; lia. }
  repeat split; intros;
    match goal with
    | |- context [commands ?q] => first [apply (H _) | idtac]
    | _ => idtac
    end;
    try (unfold enable_help, set_default, set_required, set_optional, set_callback;
         rewrite (proj2 (H _)); cbn; try destruct req; lia).
Qed.

(** X24.  Success means nothing required is missing: when [run] returns
    [true], every descriptor registered as required is handled. *)
Theorem X24_success_has_all_required (p : Parser) (i : nat) (c : Cmd) :
  fst (run p) = Returned true ->
  commands_of (snd (run p)) !! i = Some c ->
  required (base_of c) = true -> handled (base_of c) = true.
Proof.
  unfold run, run_from.
  destruct (tokenize (start p)) as [m0 cur|o m'] eqn:Htok.
  2:{ cbn [fst]. intros ->.
      destruct (token_loop_exit _ _ _ _ _ Htok); discriminate. }
  unfold resolve.
  destruct (parse_pass true (indices m0) m0) as [ok1 m1].
  destruct ok1; cbn [negb]; [|discriminate].
  pose proof (required_pass_commands m1) as Hc2.
  unfold required_pass in *.
  destruct (list_find (fun c => missing c = true) (commands_of m1)) as [[j cj]|] eqn:Hfind;
    cbn [negb fst snd] in *; [discriminate|].
  pose proof (parse_pass_frame false (indices m1) m1) as [Hs _].
  destruct (parse_pass false (indices m1) m1) as [ok3 m3]. cbn [fst snd] in *.
  intros _ Hc Hreq.
  symmetry in Hs. destruct (shape_lookup _ _ i c Hs Hc) as (c1 & Hc1 & Hsh).
  apply list_find_None in Hfind. rewrite Forall_lookup in Hfind.
  specialize (Hfind i c1 Hc1). unfold missing in Hfind.
  unfold shape in Hsh. injection Hsh as Hb _. rewrite Hb, Hreq in Hfind.
  by destruct (handled (base_of c)).
Qed.

Lemma X24_success_has_all_required_witness :
  handled (set_handled (CmdBase_new "" "" "" true false true)) = true.
Proof.
  exact (X24_success_has_all_required
           (set_default (TVector TString) true "" [] None (Samples.fresh ["a"; "b"]))
           1 (CmdArgument
                (push_back "b" (set_handled (push_back "a"
                   (set_handled (CmdBase_new "" "" "" true false true)))))
                (TVector TString) ["a"; "b"] None)
           eq_refl eq_refl eq_refl).
Defined.
